(** * A shallow embedding of [src/src/proxy/ProxyPatternPool.py]

    The generic object pool ([Pool]) and its forwarding front-end ([Proxy])
    are embedded as executable state-passing functions.  Every method of the
    Python class becomes a computation in a small state-and-exception monad
    whose state is the collection of attributes of [self].

    Modelling conventions.
    - Pooled objects are opaque and hashable; an object is represented by the
      natural number that identifies it.  The one thing the pool asks of an
      object itself is its truth value ([if self._borrow(obj)]), which
      [obj_truthy] gives.
    - Timestamps (seconds, as returned by [_now]) and delays are integers
      ([Z]) counting clock ticks; every entry point receives the clock
      reading [now] that [_now()] yields while it runs.
    - Python sets are [gset]s and the [_uses] dictionary is a [gmap].  The
      order in which Python enumerates a set and the element [set.pop]
      removes are left to the interpreter, hence they are parameters
      ([set_iter], [set_pop]) of the development.
    - The caller-supplied factory and hooks are arbitrary callables: each of
      them either returns or raises.
    - Runs are serial: a method call runs to completion before the next one
      starts.  The pool's lock serialises the bookkeeping of [get], [ret]
      and [_hkRound]; [_health_check], [_empty] and [_fill] work partly
      outside the lock, and what another thread does in between is not
      covered.  Debug logging is switched off. *)

From stdpp Require Import base gmap sets list strings.
From Stdlib Require Import ZArith Lia.
Local Open Scope Z_scope.

(** ** Objects, exceptions and calls into user code *)

Abbreviation Obj := nat.

Inductive exn : Type :=
| TimeOut                (* class TimeOut(PoolException) *)
| PoolException          (* class PoolException(PPPException) *)
| KeyError
| ValueError
| AssertionError
| AttributeError
| ZeroDivisionError
| UserError (code : nat) (* any Exception raised by the factory or a hook *).

#[global] Instance exn_eq_dec : EqDecision exn.
Proof. solve_decision. Defined.

(** The result of calling a user-supplied callable. *)
Inductive call (A : Type) : Type :=
| Returns (a : A)
| Raises (e : exn).
Arguments Returns {A} a.
Arguments Raises {A} e.

(** [class UseInfo]: per-object usage statistics. *)
Record UseInfo : Type := mkUseInfo {
  uses_count : Z;   (* uses *)
  last_get : Z;
  last_ret : Z
}.

(** [threading.BoundedSemaphore]: the current value and the initial value. *)
Record Semaphore : Type := mkSemaphore {
  sem_value : Z;
  sem_initial : Z
}.

(** Records emitted on the module logger at warning and error level. *)
Inductive log_record : Type :=
| LogOpenerException (e : exn)        (* "exception in opener: ..." *)
| LogGetterException (e : exn)        (* "exception in getter: ..." *)
| LogRetterException (e : exn)        (* "exception in retter: ..." *)
| LogCloserException (e : exn)        (* "exception in closer: ..." *)
| LogObjectCreationFailed (e : exn)   (* "object creation failed: ..." *)
| LogNewObjectFailed (e : exn)        (* "new object failed: ..." *)
| LogHealthCheckError (e : exn)       (* "health check error: ..." *)
| LogBadHealth (d : string)           (* "bad health: ..." *)
| LogLongRunning (long_run long_time long_kill : Z)
                                      (* "long running objects: ..." *)
| LogHkRoundError (e : exn)           (* "housekeeper round error: ..." *)
| LogDeletingInUse (n : nat)          (* "deleting in-use objects: ..." *).

(** ** Constructor arguments of [Pool], and what it reads of its
    environment *)

Record Config : Type := mkConfig {
  (* [fun]: called with the creation number [_ncreated].  The callable may
     be stateful, so its outcome is also indexed by the number of the
     attempt, which [_ncreating] counts. *)
  fun_ : Z → Z → call Obj;
  max_size : Z;
  min_size0 : Z;
  timeout_ : option Z;
  max_use : Z;
  max_avail_delay : Z;
  max_using_delay : Z;
  max_using_delay_kill : Z;
  health_freq : Z;
  opener : option (Obj → call unit);
  getter : option (Obj → call unit);
  retter : option (Obj → call unit);
  closer : option (Obj → call unit);
  health : option (Obj → call bool);
  stats_hook : option (Obj → call string);
  tracer : option (Obj → call string);
  (* [bool(obj)]: the truth value Python gives a pooled object *)
  obj_truthy : Obj → bool;
  (* [skip_thread]: [PPP_WERKZEUG_WORKAROUND] is set in the environment and
     [WERKZEUG_RUN_MAIN] is not "true" *)
  skip_thread : bool
}.

(** [self._max_using_delay_warn = max_using_delay or max_using_delay_kill] *)
Definition max_using_delay_warn (cfg : Config) : Z :=
  if decide (max_using_delay cfg = 0) then max_using_delay_kill cfg
  else max_using_delay cfg.

(** ** The mutable attributes of a [Pool] *)

#[projections(primitive)]
Record Pool : Type := mkPool {
  nobjs : Z;        (* number of objects currently managed *)
  nuses : Z;        (* cumulated number of successful gets *)
  ncreating : Z;    (* creation attempts *)
  ncreated : Z;     (* created objects *)
  nhealth : Z;      (* health checks *)
  bad_health : Z;   (* bad health found *)
  nborrows : Z;     (* borrowed objects *)
  nreturns : Z;     (* returned objects *)
  nkilled : Z;      (* objects destroyed for being used too long *)
  nrecycled : Z;    (* objects removed for being available too long *)
  nwornout : Z;     (* objects which reached max_use *)
  ndestroys : Z;    (* objects actually destroyed *)
  hc_rounds : Z;
  hc_errors : Z;
  hk_rounds : Z;
  hk_errors : Z;
  shutdown_ : bool;
  min_size : Z;
  avail : gset Obj;
  using_ : gset Obj;
  todel : gset Obj;
  uses : gmap Obj UseInfo;
  sem : option Semaphore;
  (* effects outside of [self]: the log, and the objects handed to
     [_destroy], most recent last *)
  logged : list log_record;
  destroyed : list Obj
}.

(** Attribute updates, one per field. *)

Definition upd_nobjs (f : Z → Z) (s : Pool) : Pool :=
  {| nobjs := f (nobjs s); nuses := nuses s; ncreating := ncreating s; ncreated := ncreated
     s; nhealth := nhealth s; bad_health := bad_health s; nborrows := nborrows s; nreturns
     := nreturns s; nkilled := nkilled s; nrecycled := nrecycled s; nwornout := nwornout s;
     ndestroys := ndestroys s; hc_rounds := hc_rounds s; hc_errors := hc_errors s; hk_rounds
     := hk_rounds s; hk_errors := hk_errors s; shutdown_ := shutdown_ s; min_size :=
     min_size s; avail := avail s; using_ := using_ s; todel := todel s; uses := uses s; sem
     := sem s; logged := logged s; destroyed := destroyed s |}.

Definition upd_nuses (f : Z → Z) (s : Pool) : Pool :=
  {| nobjs := nobjs s; nuses := f (nuses s); ncreating := ncreating s; ncreated := ncreated
     s; nhealth := nhealth s; bad_health := bad_health s; nborrows := nborrows s; nreturns
     := nreturns s; nkilled := nkilled s; nrecycled := nrecycled s; nwornout := nwornout s;
     ndestroys := ndestroys s; hc_rounds := hc_rounds s; hc_errors := hc_errors s; hk_rounds
     := hk_rounds s; hk_errors := hk_errors s; shutdown_ := shutdown_ s; min_size :=
     min_size s; avail := avail s; using_ := using_ s; todel := todel s; uses := uses s; sem
     := sem s; logged := logged s; destroyed := destroyed s |}.

Definition upd_ncreating (f : Z → Z) (s : Pool) : Pool :=
  {| nobjs := nobjs s; nuses := nuses s; ncreating := f (ncreating s); ncreated := ncreated
     s; nhealth := nhealth s; bad_health := bad_health s; nborrows := nborrows s; nreturns
     := nreturns s; nkilled := nkilled s; nrecycled := nrecycled s; nwornout := nwornout s;
     ndestroys := ndestroys s; hc_rounds := hc_rounds s; hc_errors := hc_errors s; hk_rounds
     := hk_rounds s; hk_errors := hk_errors s; shutdown_ := shutdown_ s; min_size :=
     min_size s; avail := avail s; using_ := using_ s; todel := todel s; uses := uses s; sem
     := sem s; logged := logged s; destroyed := destroyed s |}.

Definition upd_ncreated (f : Z → Z) (s : Pool) : Pool :=
  {| nobjs := nobjs s; nuses := nuses s; ncreating := ncreating s; ncreated := f (ncreated
     s); nhealth := nhealth s; bad_health := bad_health s; nborrows := nborrows s; nreturns
     := nreturns s; nkilled := nkilled s; nrecycled := nrecycled s; nwornout := nwornout s;
     ndestroys := ndestroys s; hc_rounds := hc_rounds s; hc_errors := hc_errors s; hk_rounds
     := hk_rounds s; hk_errors := hk_errors s; shutdown_ := shutdown_ s; min_size :=
     min_size s; avail := avail s; using_ := using_ s; todel := todel s; uses := uses s; sem
     := sem s; logged := logged s; destroyed := destroyed s |}.

Definition upd_nhealth (f : Z → Z) (s : Pool) : Pool :=
  {| nobjs := nobjs s; nuses := nuses s; ncreating := ncreating s; ncreated := ncreated s;
     nhealth := f (nhealth s); bad_health := bad_health s; nborrows := nborrows s; nreturns
     := nreturns s; nkilled := nkilled s; nrecycled := nrecycled s; nwornout := nwornout s;
     ndestroys := ndestroys s; hc_rounds := hc_rounds s; hc_errors := hc_errors s; hk_rounds
     := hk_rounds s; hk_errors := hk_errors s; shutdown_ := shutdown_ s; min_size :=
     min_size s; avail := avail s; using_ := using_ s; todel := todel s; uses := uses s; sem
     := sem s; logged := logged s; destroyed := destroyed s |}.

Definition upd_bad_health (f : Z → Z) (s : Pool) : Pool :=
  {| nobjs := nobjs s; nuses := nuses s; ncreating := ncreating s; ncreated := ncreated s;
     nhealth := nhealth s; bad_health := f (bad_health s); nborrows := nborrows s; nreturns
     := nreturns s; nkilled := nkilled s; nrecycled := nrecycled s; nwornout := nwornout s;
     ndestroys := ndestroys s; hc_rounds := hc_rounds s; hc_errors := hc_errors s; hk_rounds
     := hk_rounds s; hk_errors := hk_errors s; shutdown_ := shutdown_ s; min_size :=
     min_size s; avail := avail s; using_ := using_ s; todel := todel s; uses := uses s; sem
     := sem s; logged := logged s; destroyed := destroyed s |}.

Definition upd_nborrows (f : Z → Z) (s : Pool) : Pool :=
  {| nobjs := nobjs s; nuses := nuses s; ncreating := ncreating s; ncreated := ncreated s;
     nhealth := nhealth s; bad_health := bad_health s; nborrows := f (nborrows s); nreturns
     := nreturns s; nkilled := nkilled s; nrecycled := nrecycled s; nwornout := nwornout s;
     ndestroys := ndestroys s; hc_rounds := hc_rounds s; hc_errors := hc_errors s; hk_rounds
     := hk_rounds s; hk_errors := hk_errors s; shutdown_ := shutdown_ s; min_size :=
     min_size s; avail := avail s; using_ := using_ s; todel := todel s; uses := uses s; sem
     := sem s; logged := logged s; destroyed := destroyed s |}.

Definition upd_nreturns (f : Z → Z) (s : Pool) : Pool :=
  {| nobjs := nobjs s; nuses := nuses s; ncreating := ncreating s; ncreated := ncreated s;
     nhealth := nhealth s; bad_health := bad_health s; nborrows := nborrows s; nreturns := f
     (nreturns s); nkilled := nkilled s; nrecycled := nrecycled s; nwornout := nwornout s;
     ndestroys := ndestroys s; hc_rounds := hc_rounds s; hc_errors := hc_errors s; hk_rounds
     := hk_rounds s; hk_errors := hk_errors s; shutdown_ := shutdown_ s; min_size :=
     min_size s; avail := avail s; using_ := using_ s; todel := todel s; uses := uses s; sem
     := sem s; logged := logged s; destroyed := destroyed s |}.

Definition upd_nkilled (f : Z → Z) (s : Pool) : Pool :=
  {| nobjs := nobjs s; nuses := nuses s; ncreating := ncreating s; ncreated := ncreated s;
     nhealth := nhealth s; bad_health := bad_health s; nborrows := nborrows s; nreturns :=
     nreturns s; nkilled := f (nkilled s); nrecycled := nrecycled s; nwornout := nwornout s;
     ndestroys := ndestroys s; hc_rounds := hc_rounds s; hc_errors := hc_errors s; hk_rounds
     := hk_rounds s; hk_errors := hk_errors s; shutdown_ := shutdown_ s; min_size :=
     min_size s; avail := avail s; using_ := using_ s; todel := todel s; uses := uses s; sem
     := sem s; logged := logged s; destroyed := destroyed s |}.

Definition upd_nrecycled (f : Z → Z) (s : Pool) : Pool :=
  {| nobjs := nobjs s; nuses := nuses s; ncreating := ncreating s; ncreated := ncreated s;
     nhealth := nhealth s; bad_health := bad_health s; nborrows := nborrows s; nreturns :=
     nreturns s; nkilled := nkilled s; nrecycled := f (nrecycled s); nwornout := nwornout s;
     ndestroys := ndestroys s; hc_rounds := hc_rounds s; hc_errors := hc_errors s; hk_rounds
     := hk_rounds s; hk_errors := hk_errors s; shutdown_ := shutdown_ s; min_size :=
     min_size s; avail := avail s; using_ := using_ s; todel := todel s; uses := uses s; sem
     := sem s; logged := logged s; destroyed := destroyed s |}.

Definition upd_nwornout (f : Z → Z) (s : Pool) : Pool :=
  {| nobjs := nobjs s; nuses := nuses s; ncreating := ncreating s; ncreated := ncreated s;
     nhealth := nhealth s; bad_health := bad_health s; nborrows := nborrows s; nreturns :=
     nreturns s; nkilled := nkilled s; nrecycled := nrecycled s; nwornout := f (nwornout s);
     ndestroys := ndestroys s; hc_rounds := hc_rounds s; hc_errors := hc_errors s; hk_rounds
     := hk_rounds s; hk_errors := hk_errors s; shutdown_ := shutdown_ s; min_size :=
     min_size s; avail := avail s; using_ := using_ s; todel := todel s; uses := uses s; sem
     := sem s; logged := logged s; destroyed := destroyed s |}.

Definition upd_ndestroys (f : Z → Z) (s : Pool) : Pool :=
  {| nobjs := nobjs s; nuses := nuses s; ncreating := ncreating s; ncreated := ncreated s;
     nhealth := nhealth s; bad_health := bad_health s; nborrows := nborrows s; nreturns :=
     nreturns s; nkilled := nkilled s; nrecycled := nrecycled s; nwornout := nwornout s;
     ndestroys := f (ndestroys s); hc_rounds := hc_rounds s; hc_errors := hc_errors s;
     hk_rounds := hk_rounds s; hk_errors := hk_errors s; shutdown_ := shutdown_ s; min_size
     := min_size s; avail := avail s; using_ := using_ s; todel := todel s; uses := uses s;
     sem := sem s; logged := logged s; destroyed := destroyed s |}.

Definition upd_hc_rounds (f : Z → Z) (s : Pool) : Pool :=
  {| nobjs := nobjs s; nuses := nuses s; ncreating := ncreating s; ncreated := ncreated s;
     nhealth := nhealth s; bad_health := bad_health s; nborrows := nborrows s; nreturns :=
     nreturns s; nkilled := nkilled s; nrecycled := nrecycled s; nwornout := nwornout s;
     ndestroys := ndestroys s; hc_rounds := f (hc_rounds s); hc_errors := hc_errors s;
     hk_rounds := hk_rounds s; hk_errors := hk_errors s; shutdown_ := shutdown_ s; min_size
     := min_size s; avail := avail s; using_ := using_ s; todel := todel s; uses := uses s;
     sem := sem s; logged := logged s; destroyed := destroyed s |}.

Definition upd_hc_errors (f : Z → Z) (s : Pool) : Pool :=
  {| nobjs := nobjs s; nuses := nuses s; ncreating := ncreating s; ncreated := ncreated s;
     nhealth := nhealth s; bad_health := bad_health s; nborrows := nborrows s; nreturns :=
     nreturns s; nkilled := nkilled s; nrecycled := nrecycled s; nwornout := nwornout s;
     ndestroys := ndestroys s; hc_rounds := hc_rounds s; hc_errors := f (hc_errors s);
     hk_rounds := hk_rounds s; hk_errors := hk_errors s; shutdown_ := shutdown_ s; min_size
     := min_size s; avail := avail s; using_ := using_ s; todel := todel s; uses := uses s;
     sem := sem s; logged := logged s; destroyed := destroyed s |}.

Definition upd_hk_rounds (f : Z → Z) (s : Pool) : Pool :=
  {| nobjs := nobjs s; nuses := nuses s; ncreating := ncreating s; ncreated := ncreated s;
     nhealth := nhealth s; bad_health := bad_health s; nborrows := nborrows s; nreturns :=
     nreturns s; nkilled := nkilled s; nrecycled := nrecycled s; nwornout := nwornout s;
     ndestroys := ndestroys s; hc_rounds := hc_rounds s; hc_errors := hc_errors s; hk_rounds
     := f (hk_rounds s); hk_errors := hk_errors s; shutdown_ := shutdown_ s; min_size :=
     min_size s; avail := avail s; using_ := using_ s; todel := todel s; uses := uses s; sem
     := sem s; logged := logged s; destroyed := destroyed s |}.

Definition upd_hk_errors (f : Z → Z) (s : Pool) : Pool :=
  {| nobjs := nobjs s; nuses := nuses s; ncreating := ncreating s; ncreated := ncreated s;
     nhealth := nhealth s; bad_health := bad_health s; nborrows := nborrows s; nreturns :=
     nreturns s; nkilled := nkilled s; nrecycled := nrecycled s; nwornout := nwornout s;
     ndestroys := ndestroys s; hc_rounds := hc_rounds s; hc_errors := hc_errors s; hk_rounds
     := hk_rounds s; hk_errors := f (hk_errors s); shutdown_ := shutdown_ s; min_size :=
     min_size s; avail := avail s; using_ := using_ s; todel := todel s; uses := uses s; sem
     := sem s; logged := logged s; destroyed := destroyed s |}.

Definition upd_shutdown (f : bool → bool) (s : Pool) : Pool :=
  {| nobjs := nobjs s; nuses := nuses s; ncreating := ncreating s; ncreated := ncreated s;
     nhealth := nhealth s; bad_health := bad_health s; nborrows := nborrows s; nreturns :=
     nreturns s; nkilled := nkilled s; nrecycled := nrecycled s; nwornout := nwornout s;
     ndestroys := ndestroys s; hc_rounds := hc_rounds s; hc_errors := hc_errors s; hk_rounds
     := hk_rounds s; hk_errors := hk_errors s; shutdown_ := f (shutdown_ s); min_size :=
     min_size s; avail := avail s; using_ := using_ s; todel := todel s; uses := uses s; sem
     := sem s; logged := logged s; destroyed := destroyed s |}.

Definition upd_min_size (f : Z → Z) (s : Pool) : Pool :=
  {| nobjs := nobjs s; nuses := nuses s; ncreating := ncreating s; ncreated := ncreated s;
     nhealth := nhealth s; bad_health := bad_health s; nborrows := nborrows s; nreturns :=
     nreturns s; nkilled := nkilled s; nrecycled := nrecycled s; nwornout := nwornout s;
     ndestroys := ndestroys s; hc_rounds := hc_rounds s; hc_errors := hc_errors s; hk_rounds
     := hk_rounds s; hk_errors := hk_errors s; shutdown_ := shutdown_ s; min_size := f
     (min_size s); avail := avail s; using_ := using_ s; todel := todel s; uses := uses s;
     sem := sem s; logged := logged s; destroyed := destroyed s |}.

Definition upd_avail (f : gset Obj → gset Obj) (s : Pool) : Pool :=
  {| nobjs := nobjs s; nuses := nuses s; ncreating := ncreating s; ncreated := ncreated s;
     nhealth := nhealth s; bad_health := bad_health s; nborrows := nborrows s; nreturns :=
     nreturns s; nkilled := nkilled s; nrecycled := nrecycled s; nwornout := nwornout s;
     ndestroys := ndestroys s; hc_rounds := hc_rounds s; hc_errors := hc_errors s; hk_rounds
     := hk_rounds s; hk_errors := hk_errors s; shutdown_ := shutdown_ s; min_size :=
     min_size s; avail := f (avail s); using_ := using_ s; todel := todel s; uses := uses s;
     sem := sem s; logged := logged s; destroyed := destroyed s |}.

Definition upd_using (f : gset Obj → gset Obj) (s : Pool) : Pool :=
  {| nobjs := nobjs s; nuses := nuses s; ncreating := ncreating s; ncreated := ncreated s;
     nhealth := nhealth s; bad_health := bad_health s; nborrows := nborrows s; nreturns :=
     nreturns s; nkilled := nkilled s; nrecycled := nrecycled s; nwornout := nwornout s;
     ndestroys := ndestroys s; hc_rounds := hc_rounds s; hc_errors := hc_errors s; hk_rounds
     := hk_rounds s; hk_errors := hk_errors s; shutdown_ := shutdown_ s; min_size :=
     min_size s; avail := avail s; using_ := f (using_ s); todel := todel s; uses := uses s;
     sem := sem s; logged := logged s; destroyed := destroyed s |}.

Definition upd_todel (f : gset Obj → gset Obj) (s : Pool) : Pool :=
  {| nobjs := nobjs s; nuses := nuses s; ncreating := ncreating s; ncreated := ncreated s;
     nhealth := nhealth s; bad_health := bad_health s; nborrows := nborrows s; nreturns :=
     nreturns s; nkilled := nkilled s; nrecycled := nrecycled s; nwornout := nwornout s;
     ndestroys := ndestroys s; hc_rounds := hc_rounds s; hc_errors := hc_errors s; hk_rounds
     := hk_rounds s; hk_errors := hk_errors s; shutdown_ := shutdown_ s; min_size :=
     min_size s; avail := avail s; using_ := using_ s; todel := f (todel s); uses := uses s;
     sem := sem s; logged := logged s; destroyed := destroyed s |}.

Definition upd_uses (f : gmap Obj UseInfo → gmap Obj UseInfo) (s : Pool) : Pool :=
  {| nobjs := nobjs s; nuses := nuses s; ncreating := ncreating s; ncreated := ncreated s;
     nhealth := nhealth s; bad_health := bad_health s; nborrows := nborrows s; nreturns :=
     nreturns s; nkilled := nkilled s; nrecycled := nrecycled s; nwornout := nwornout s;
     ndestroys := ndestroys s; hc_rounds := hc_rounds s; hc_errors := hc_errors s; hk_rounds
     := hk_rounds s; hk_errors := hk_errors s; shutdown_ := shutdown_ s; min_size :=
     min_size s; avail := avail s; using_ := using_ s; todel := todel s; uses := f (uses s);
     sem := sem s; logged := logged s; destroyed := destroyed s |}.

Definition upd_sem (f : option Semaphore → option Semaphore) (s : Pool) : Pool :=
  {| nobjs := nobjs s; nuses := nuses s; ncreating := ncreating s; ncreated := ncreated s;
     nhealth := nhealth s; bad_health := bad_health s; nborrows := nborrows s; nreturns :=
     nreturns s; nkilled := nkilled s; nrecycled := nrecycled s; nwornout := nwornout s;
     ndestroys := ndestroys s; hc_rounds := hc_rounds s; hc_errors := hc_errors s; hk_rounds
     := hk_rounds s; hk_errors := hk_errors s; shutdown_ := shutdown_ s; min_size :=
     min_size s; avail := avail s; using_ := using_ s; todel := todel s; uses := uses s; sem
     := f (sem s); logged := logged s; destroyed := destroyed s |}.

Definition upd_logged (f : list log_record → list log_record) (s : Pool) : Pool :=
  {| nobjs := nobjs s; nuses := nuses s; ncreating := ncreating s; ncreated := ncreated s;
     nhealth := nhealth s; bad_health := bad_health s; nborrows := nborrows s; nreturns :=
     nreturns s; nkilled := nkilled s; nrecycled := nrecycled s; nwornout := nwornout s;
     ndestroys := ndestroys s; hc_rounds := hc_rounds s; hc_errors := hc_errors s; hk_rounds
     := hk_rounds s; hk_errors := hk_errors s; shutdown_ := shutdown_ s; min_size :=
     min_size s; avail := avail s; using_ := using_ s; todel := todel s; uses := uses s; sem
     := sem s; logged := f (logged s); destroyed := destroyed s |}.

Definition upd_destroyed (f : list Obj → list Obj) (s : Pool) : Pool :=
  {| nobjs := nobjs s; nuses := nuses s; ncreating := ncreating s; ncreated := ncreated s;
     nhealth := nhealth s; bad_health := bad_health s; nborrows := nborrows s; nreturns :=
     nreturns s; nkilled := nkilled s; nrecycled := nrecycled s; nwornout := nwornout s;
     ndestroys := ndestroys s; hc_rounds := hc_rounds s; hc_errors := hc_errors s; hk_rounds
     := hk_rounds s; hk_errors := hk_errors s; shutdown_ := shutdown_ s; min_size :=
     min_size s; avail := avail s; using_ := using_ s; todel := todel s; uses := uses s; sem
     := sem s; logged := logged s; destroyed := f (destroyed s) |}.

(** ** The monad of pool methods

    A method either returns a value, raises an exception, or waits forever
    (a [Semaphore.acquire] without deadline on an exhausted semaphore).
    Attribute updates made before an exception is raised persist, as they
    do in Python. *)

Inductive outcome (A : Type) : Type :=
| Done (a : A)
| Raised (e : exn)
| Blocked.
Arguments Done {A} a.
Arguments Raised {A} e.
Arguments Blocked {A}.

(** Computations over a state [S]; [M] is the instance for pool methods. *)
Definition ST (S A : Type) : Type := S → outcome A * S.
Abbreviation M := (ST Pool).

Definition ret_ {S A} (a : A) : ST S A := λ s, (Done a, s).

Definition bind {S A B} (m : ST S A) (k : A → ST S B) : ST S B := λ s,
  match m s with
  | (Done a, s') => k a s'
  | (Raised e, s') => (Raised e, s')
  | (Blocked, s') => (Blocked, s')
  end.

Definition raise {S A} (e : exn) : ST S A := λ s, (Raised e, s).
Definition gets {S A} (f : S → A) : ST S A := λ s, (Done (f s), s).
Definition modify {S} (f : S → S) : ST S unit := λ s, (Done tt, f s).

(** [try: m except Exception as e: h e] *)
Definition try_except {S A} (m : ST S A) (h : exn → ST S A) : ST S A := λ s,
  match m s with
  | (Raised e, s') => h e s'
  | r => r
  end.

(** [try: m finally: fin] *)
Definition try_finally {S A} (m : ST S A) (fin : ST S unit) : ST S A := λ s,
  match m s with
  | (Done a, s') => bind fin (λ _, ret_ a) s'
  | (Raised e, s') => bind fin (λ _, raise e) s'
  | (Blocked, s') => (Blocked, s')
  end.

Declare Scope pool_scope.
Delimit Scope pool_scope with pool.
Notation "x <- m ;; k" := (bind m (λ x, k))
  (at level 100, m at next level, right associativity) : pool_scope.
Notation "m ;; k" := (bind m (λ _, k))
  (at level 100, right associativity) : pool_scope.
Local Open Scope pool_scope.

(** [for x in l: body x], where the body answers whether to [break]. *)
Fixpoint for_each {S A} (l : list A) (body : A → ST S bool) : ST S unit :=
  match l with
  | [] => ret_ tt
  | x :: l' => brk <- body x ;; if (brk : bool) then ret_ tt else for_each l' body
  end.

(** A [for] loop which updates local variables [acc]. *)
Fixpoint for_fold {S A B} (l : list A) (acc : B) (body : A → B → ST S B)
    : ST S B :=
  match l with
  | [] => ret_ acc
  | x :: l' => acc' <- body x acc ;; for_fold l' acc' body
  end.

(** [[f x for x in l]] *)
Fixpoint for_map {S A B} (l : list A) (f : A → ST S B) : ST S (list B) :=
  match l with
  | [] => ret_ []
  | x :: l' => y <- f x ;; ys <- for_map l' f ;; ret_ (y :: ys)
  end.

Definition when {S} (b : bool) (m : ST S unit) : ST S unit :=
  if b then m else ret_ tt.

Definition log (r : log_record) : M unit :=
  modify (upd_logged (λ l, l ++ [r])).

(** Python truthiness of the values the code tests. *)
Definition truthy (z : Z) : bool := bool_decide (z ≠ 0).

(** [timeout or self._timeout] on optional numbers. *)
Definition py_or (a b : option Z) : option Z :=
  match a with
  | Some t => if truthy t then Some t else b
  | None => b
  end.

(** ** The semaphore *)

(** [self._sem.acquire(timeout=t)]: succeeds at once when the value is not
    zero; otherwise gives up when a deadline was given and waits forever
    when none was. *)
Definition sem_acquire (t : option Z) : M bool := λ s,
  match sem s with
  | None => (Raised AttributeError, s)
  | Some m =>
      if decide (sem_value m = 0) then
        match t with
        | Some _ => (Done false, s)
        | None => (Blocked, s)
        end
      else
        (Done true,
         upd_sem (λ _, Some (mkSemaphore (sem_value m - 1) (sem_initial m))) s)
  end.

(** [self._sem.release()] on a bounded semaphore: releasing more often than
    acquired raises [ValueError]. *)
Definition sem_release : M unit := λ s,
  match sem s with
  | None => (Raised AttributeError, s)
  | Some m =>
      if decide (sem_initial m ≤ sem_value m) then (Raised ValueError, s)
      else
        (Done tt,
         upd_sem (λ _, Some (mkSemaphore (sem_value m + 1) (sem_initial m))) s)
  end.

(** [if self._sem: self._sem.release()] *)
Definition release_if_sem : M unit :=
  sm <- gets (λ s, sem s) ;; if sm is Some _ then sem_release else ret_ tt.

(** ** The methods of [Pool] *)

Section PoolMethods.

Variable cfg : Config.
(** [list(s)]: the order in which the interpreter enumerates a set. *)
Variable set_iter : gset Obj → list Obj.
(** [s.pop()]: the element the interpreter removes, if there is one. *)
Variable set_pop : gset Obj → option Obj.

(** A hook call guarded by [try/except Exception], the exception being
    logged: [if hook: try: hook(obj) except Exception as e: log.error(...)]. *)
Definition run_hook (hook : option (Obj → call unit))
    (report : exn → log_record) (obj : Obj) : M unit :=
  match hook with
  | None => ret_ tt
  | Some h =>
      match h obj with
      | Returns _ => ret_ tt
      | Raises e => log (report e)
      end
  end.

(** [self._uses[obj]] *)
Definition uses_of (obj : Obj) : M UseInfo := λ s,
  match uses s !! obj with
  | Some u => (Done u, s)
  | None => (Raised KeyError, s)
  end.

(** [_create]: create a new object (low level). *)
Definition _create (now : Z) : M Obj :=
  modify (upd_ncreating (λ n, n + 1)) ;;
  n <- gets (λ s, ncreated s) ;;
  k <- gets (λ s, ncreating s) ;;
  match fun_ cfg n k with
  | Raises e => raise e
  | Returns obj =>
      modify (upd_ncreated (λ n, n + 1)) ;;
      modify (upd_nobjs (λ n, n + 1)) ;;
      modify (upd_uses (λ u, <[obj := mkUseInfo 0 now now]> u)) ;;
      ret_ obj
  end.

(** [_new]: create a new available object. *)
Definition _new (now : Z) : M Obj :=
  obj <- _create now ;;
  run_hook (opener cfg) LogOpenerException obj ;;
  modify (upd_avail (λ a, {[obj]} ∪ a)) ;;
  ret_ obj.

(** [_out]: remove an object from the pool. *)
Definition _out (obj : Obj) : M unit :=
  seen1 <- (u <- gets (λ s, uses s) ;;
            if decide (is_Some (u !! obj))
            then modify (upd_uses (delete obj)) ;; ret_ true
            else ret_ false) ;;
  seen2 <- (a <- gets (λ s, avail s) ;;
            if decide (obj ∈ a)
            then modify (upd_avail (λ a, a ∖ {[obj]})) ;; ret_ true
            else ret_ seen1) ;;
  seen3 <- (u <- gets (λ s, using_ s) ;;
            if decide (obj ∈ u)
            then modify (upd_using (λ u, u ∖ {[obj]})) ;; ret_ true
            else ret_ seen2) ;;
  when seen3 (modify (upd_nobjs (λ n, n - 1))).

(** The idiom [self._out(obj); self._todel.add(obj)]: the object leaves the
    pool and waits for its destruction. *)
Definition retire (obj : Obj) : M unit :=
  _out obj ;;
  modify (upd_todel (λ t, {[obj]} ∪ t)).

(** [_destroy]: run the closer on the object and drop it. *)
Definition _destroy (obj : Obj) : M unit :=
  run_hook (closer cfg) LogCloserException obj ;;
  modify (upd_destroyed (λ d, d ++ [obj])).

(** [_del] *)
Definition _del (obj : Obj) : M unit :=
  _out obj ;; _destroy obj.

(** [_empty]: destroy the objects which are pending destruction. *)
Definition _empty : M unit :=
  td <- gets (λ s, todel s) ;;
  if decide (td = ∅) then ret_ tt
  else
    let destroys := set_iter td in
    modify (upd_todel (λ _, ∅)) ;;
    modify (upd_ndestroys (λ n, n + Z.of_nat (length destroys))) ;;
    for_each destroys (λ obj, _destroy obj ;; ret_ false).

(** One iteration of the loop of [_fill]: take a token so as not to go
    beyond [max_size], create an object, and give the token back whether
    the object was created or not.  Answers whether the loop stops. *)
Definition fill_one (now : Z) : M bool :=
  sm <- gets (λ s, sem s) ;;
  skip <- (if sm is Some _
           then ok <- sem_acquire (Some 0) ;; ret_ (negb ok)
           else ret_ false) ;;
  if (skip : bool) then ret_ true
  else
    try_except (_new now ;; ret_ tt)
               (λ e, log (LogNewObjectFailed e)) ;;
    release_if_sem ;;
    ret_ false.

(** [_fill]: create new available objects to reach [min_size]. *)
Definition _fill (now : Z) : M unit :=
  ms <- gets (λ s, min_size s) ;;
  no <- gets (λ s, nobjs s) ;;
  if decide (ms > no) then
    let tocreate := ms - no in
    for_each (seq 0 (Z.to_nat tocreate)) (λ _, fill_one now)
  else ret_ tt.

(** [_borrow]: borrow an existing object, for internal use; returns the
    object, or [None] when it could not be borrowed. *)
Definition _borrow (obj : Obj) : M (option Obj) :=
  sm <- gets (λ s, sem s) ;;
  got <- (if sm is Some _ then sem_acquire (Some 0) else ret_ true) ;;
  if (got : bool) then
    a <- gets (λ s, avail s) ;;
    if decide (obj ∈ a) then
      modify (upd_avail (λ a, a ∖ {[obj]})) ;;
      modify (upd_using (λ u, {[obj]} ∪ u)) ;;
      modify (upd_nborrows (λ n, n + 1)) ;;
      ret_ (Some obj)
    else
      (* failed to borrow: give the token back *)
      release_if_sem ;;
      ret_ None
  else ret_ None.

(** [_return]: return a borrowed object. *)
Definition _return (obj : Obj) : M unit :=
  u <- gets (λ s, using_ s) ;;
  if decide (obj ∈ u) then
    modify (upd_using (λ u, u ∖ {[obj]})) ;;
    modify (upd_avail (λ a, {[obj]} ∪ a)) ;;
    modify (upd_nreturns (λ n, n + 1)) ;;
    release_if_sem
  else raise AssertionError.

(** [get], once the token is held: the block under the lock, which takes
    an available object or creates one, and the getter hook. *)
Definition get_locked (now : Z) : M Obj :=
  a <- gets (λ s, avail s) ;;
  (if decide (a = ∅) then
     try_except (_new now ;; ret_ tt)
                (λ e, log (LogObjectCreationFailed e) ;;
                      release_if_sem ;;
                      raise e)
   else ret_ tt) ;;
  a <- gets (λ s, avail s) ;;
  match set_pop a with
  | None => raise KeyError
  | Some obj =>
      modify (upd_avail (λ a, a ∖ {[obj]})) ;;
      modify (upd_using (λ u, {[obj]} ∪ u)) ;;
      modify (upd_nuses (λ n, n + 1)) ;;
      i <- uses_of obj ;;
      modify (upd_uses (λ u,
        <[obj := mkUseInfo (uses_count i + 1) now (last_ret i)]> u)) ;;
      run_hook (getter cfg) LogGetterException obj ;;
      ret_ obj
  end.

(** [get]: get an object from the pool, possibly creating one. *)
Definition get (timeout : option Z) (now : Z) : M Obj :=
  down <- gets (λ s, shutdown_ s) ;;
  if (down : bool) then raise PoolException
  else
    sm <- gets (λ s, sem s) ;;
    (* the token taken here is given back at the end of [ret] *)
    (if sm is Some _ then
       ok <- sem_acquire (py_or timeout (timeout_ cfg)) ;;
       if (ok : bool) then ret_ tt else raise TimeOut
     else ret_ tt) ;;
    get_locked now.

(** [ret], for an object in use: the rest of the block under the lock. *)
Definition ret_locked (obj : Obj) (now : Z) : M unit :=
  worn <- (if truthy (max_use cfg)
           then i <- uses_of obj ;;
                ret_ (bool_decide (max_use cfg ≤ uses_count i))
           else ret_ false) ;;
  (if (worn : bool) then
     modify (upd_nwornout (λ n, n + 1)) ;;
     retire obj
   else
     modify (upd_using (λ u, u ∖ {[obj]})) ;;
     modify (upd_avail (λ a, {[obj]} ∪ a)) ;;
     i <- uses_of obj ;;
     modify (upd_uses (λ u,
       <[obj := mkUseInfo (uses_count i) (last_get i) now]> u))) ;;
  (* give back the token taken in [get] *)
  release_if_sem.

(** [ret]: return an object to the pool.  For an object which is not in
    use the method returns at once, from inside the block under the lock. *)
Definition ret (obj : Obj) (now : Z) : M unit :=
  run_hook (retter cfg) LogRetterException obj ;;
  u <- gets (λ s, using_ s) ;;
  if decide (obj ∈ u) then
    ret_locked obj now ;;
    _empty ;;
    _fill now
  else ret_ tt.

(** The body of the first loop of [_hkRound] for one object in use; the
    local variables are [long_run], [long_kill] and [long_time]. *)
Definition kill_one (now : Z) (obj : Obj) (acc : Z * Z * Z) : M (Z * Z * Z) :=
  let '(long_run, long_kill, long_time) := acc in
  i <- uses_of obj ;;
  let running := now - last_get i in
  let '(long_run, long_time) :=
    if decide (running >= max_using_delay_warn cfg)
    then (long_run + 1, long_time + running)
    else (long_run, long_time) in
  if truthy (max_using_delay_kill cfg)
     && bool_decide (running >= max_using_delay_kill cfg)
  then
    (* the object cannot simply be returned: its user may carry on *)
    modify (upd_nkilled (λ n, n + 1)) ;;
    retire obj ;;
    (* the killed object was in use, hence holds a token *)
    release_if_sem ;;
    ret_ (long_run, long_kill + 1, long_time)
  else ret_ (long_run, long_kill, long_time).

(** [_hkRound], first part: warn about objects which have been in use for
    a long time, and kill those in use for too long. *)
Definition borrow_age_sweep (now : Z) : M unit :=
  if truthy (max_using_delay_warn cfg) then
    u <- gets (λ s, using_ s) ;;
    acc <- for_fold (set_iter u) (0, 0, 0) (kill_one now) ;;
    let '(long_run, long_kill, long_time) := acc in
    when (truthy long_run || truthy long_kill)
         (log (LogLongRunning long_run long_time long_kill))
  else ret_ tt.

(** The body of the second loop of [_hkRound] for one available object;
    answers whether the loop stops. *)
Definition recycle_one (now : Z) (obj : Obj) : M bool :=
  i <- uses_of obj ;;
  if decide (now - last_ret i >= max_avail_delay cfg) then
    modify (upd_nrecycled (λ n, n + 1)) ;;
    retire obj ;;
    (* stop deleting objects once min_size is reached *)
    no <- gets (λ s, nobjs s) ;;
    ms <- gets (λ s, min_size s) ;;
    ret_ (bool_decide (no ≤ ms))
  else ret_ false.

(** [_hkRound], second part: close objects which have been unused for a
    long time, while there are more than [min_size] objects. *)
Definition idle_sweep (now : Z) : M unit :=
  no <- gets (λ s, nobjs s) ;;
  ms <- gets (λ s, min_size s) ;;
  if truthy (max_avail_delay cfg) && bool_decide (no > ms) then
    a <- gets (λ s, avail s) ;;
    for_each (set_iter a) (recycle_one now)
  else ret_ tt.

(** [_hkRound]: one housekeeping round, run under the lock.  Objects
    scheduled for destruction are moved to [_todel]. *)
Definition _hkRound (now : Z) : M unit :=
  modify (upd_hk_rounds (λ n, n + 1)) ;;
  borrow_age_sweep now ;;
  idle_sweep now.

(** [tracer = self._tracer or str]: the default describes the object by
    its own [str], rendered here as a fixed text. *)
Definition trace_obj (obj : Obj) : call string :=
  match tracer cfg with
  | Some t => t obj
  | None => Returns "obj"%string
  end.

(** Call into user code outside of any [try]: an exception propagates. *)
Definition call_ {A} (c : call A) : M A :=
  match c with
  | Returns a => ret_ a
  | Raises e => raise e
  end.

(** The truth value of what [_borrow] returns: [None] is false, an object
    has the truth value of its own. *)
Definition borrowed_truthy (r : option Obj) : bool :=
  match r with
  | Some o => obj_truthy cfg o
  | None => false
  end.

(** The body of the loop of [_health_check] for one object.  The test
    [if self._borrow(obj)] is on the object returned: a borrowed object
    whose truth value is false is neither checked nor returned. *)
Definition health_check_obj (h : Obj → call bool) (obj : Obj) : M unit :=
  got <- _borrow obj ;;
  if borrowed_truthy got then
    healthy <-
      try_finally
        (try_except
           (modify (upd_nhealth (λ n, n + 1)) ;; call_ (h obj))
           (λ e, modify (upd_hc_errors (λ n, n + 1)) ;;
                 log (LogHealthCheckError e) ;;
                 (* [healthy] keeps its initial value [True] *)
                 ret_ true))
        (_return obj) ;;
    if (healthy : bool) then ret_ tt
    else
      d <- call_ (trace_obj obj) ;;
      log (LogBadHealth d) ;;
      modify (upd_bad_health (λ n, n + 1)) ;;
      retire obj
  else ret_ tt (* meant to skip the objects which are in use *).

(** [_health_check]: only called from the housekeeper. *)
Definition _health_check : M unit :=
  match health cfg with
  | None => raise AssertionError
  | Some h =>
      modify (upd_hc_rounds (λ n, n + 1)) ;;
      objs <- gets (λ s, set_iter (avail s)) ;;
      for_each objs (λ obj, health_check_obj h obj ;; ret_ false)
  end.

(** One iteration of the loop of [_houseKeeping], after its [sleep]. *)
Definition _houseKeeping (now : Z) : M unit :=
  try_except (_hkRound now)
    (λ e, modify (upd_hk_errors (λ n, n + 1)) ;; log (LogHkRoundError e)) ;;
  rounds <- gets (λ s, hk_rounds s) ;;
  (match health cfg with
   | Some _ =>
       if decide (health_freq cfg = 0) then raise ZeroDivisionError
       else when (bool_decide (rounds `mod` health_freq cfg = 0)) _health_check
   | None => ret_ tt
   end) ;;
  _empty ;;
  _fill now.

(** [__delete__] *)
Definition __delete__ : M unit :=
  u <- gets (λ s, using_ s) ;;
  (if decide (u = ∅) then ret_ tt
   else
     log (LogDeletingInUse (size u)) ;;
     for_each (set_iter u) (λ obj, _del obj ;; ret_ false) ;;
     modify (upd_using (λ _, ∅))) ;;
  a <- gets (λ s, avail s) ;;
  for_each (set_iter a) (λ obj, _del obj ;; ret_ false) ;;
  modify (upd_avail (λ _, ∅)) ;;
  modify (upd_uses (λ _, ∅)).

(** [shutdown]: stop the housekeeper and close all objects. *)
Definition shutdown : M unit :=
  modify (upd_shutdown (λ _, true)) ;;
  modify (upd_min_size (λ _, 0)) ;;
  __delete__.

(** [__stats_data]: the descriptor of one object. *)
Inductive descr : Type :=
| DescrStats (d : string)    (* data["stats"] *)
| DescrTrace (d : string)    (* data["trace"] *)
| DescrStr (obj : Obj)       (* data["str"] *).

Definition __stats_data (obj : Obj) (now : Z) : M (descr * option (Z * Z * Z)) :=
  d <- match stats_hook cfg, tracer cfg with
       | Some f, _ => x <- call_ (f obj) ;; ret_ (DescrStats x)
       | None, Some f => x <- call_ (f obj) ;; ret_ (DescrTrace x)
       | None, None => ret_ (DescrStr obj)
       end ;;
  u <- gets (λ s, uses s) ;;
  match u !! obj with
  | Some i => ret_ (d, Some (uses_count i, last_get i - now, last_ret i - now))
  | None => ret_ (d, None)
  end.

(** The snapshot returned by [stats]: the state of the three sets with the
    per-object descriptors; its other entries are plain reads of the
    configuration and of the counters of [Pool]. *)
Record Snapshot : Type := mkSnapshot {
  st_sem : option Semaphore;
  st_navail : nat;
  st_nusing : nat;
  st_ntodel : nat;
  st_shutdown : bool;
  st_avail : list (descr * option (Z * Z * Z));
  st_using : list (descr * option (Z * Z * Z));
  st_nobjs : Z;
  st_ncreated : Z;
  st_ndestroys : Z
}.

Definition stats (now : Z) : M Snapshot :=
  s <- gets id ;;
  da <- for_map (set_iter (avail s)) (λ obj, __stats_data obj now) ;;
  du <- for_map (set_iter (using_ s)) (λ obj, __stats_data obj now) ;;
  ret_ (mkSnapshot (sem s) (size (avail s)) (size (using_ s)) (size (todel s))
          (shutdown_ s) da du (nobjs s) (ncreated s) (ndestroys s)).

(** [obj]: the generator-based context manager
    [o = self.get(timeout); yield o; self.ret(o)] wrapped around the body of
    a [with] statement.  An exception of the body is thrown into the
    generator at its [yield]; no handler encloses the [yield], so the
    statement after it does not run and the exception propagates. *)
Definition obj {A} (timeout : option Z) (now : Z) (body : Obj → M A)
    (now' : Z) : M A :=
  o <- get timeout now ;;
  λ s, match body o s with
       | (Done a, s') => (ret o now' ;; ret_ a) s'
       | (Raised e, s') => (Raised e, s')
       | (Blocked, s') => (Blocked, s')
       end.

(** [__init__]: the attributes of a new pool, then a first [_fill] unless
    the environment asks to skip it. *)
Definition new_pool (sm : option Semaphore) : Pool :=
  {| nobjs := 0; nuses := 0; ncreating := 0; ncreated := 0; nhealth := 0;
     bad_health := 0; nborrows := 0; nreturns := 0; nkilled := 0;
     nrecycled := 0; nwornout := 0; ndestroys := 0; hc_rounds := 0;
     hc_errors := 0; hk_rounds := 0; hk_errors := 0; shutdown_ := false;
     min_size := min_size0 cfg; avail := ∅; using_ := ∅; todel := ∅;
     uses := ∅; sem := sm; logged := []; destroyed := [] |}.

Definition first_fill (now : Z) : M unit :=
  if skip_thread cfg then ret_ tt else _fill now.

Definition Pool_init (now : Z) : outcome unit * Pool :=
  if truthy (max_size cfg) then
    (* BoundedSemaphore(max_size) refuses a negative initial value *)
    if decide (max_size cfg < 0) then (Raised ValueError, new_pool None)
    else first_fill now
           (new_pool (Some (mkSemaphore (max_size cfg) (max_size cfg))))
  else first_fill now (new_pool None).

End PoolMethods.

(** ** [Proxy], as far as it drives a pool

    The attributes of a proxy whose objects come from a generating function:
    the pool (if any), the slot [_local.obj] of the current execution
    context and the object count. *)

Record Proxy : Type := mkProxy {
  p_has_fun : bool;                 (* self._fun is set *)
  p_pool : option Pool;             (* self._pool *)
  p_local : option (option Obj);    (* None: [_local] has no attribute [obj] *)
  p_nobjs : Z;                      (* self._nobjs *)
  p_calls : Z                       (* factory calls made by the proxy itself *)
}.

Section ProxyMethods.

Variable cfg : Config.
Variable set_iter : gset Obj → list Obj.
Variable set_pop : gset Obj → option Obj.

(** Run a method of [self._pool]. *)
Definition on_pool {A} (m : M A) : ST Proxy A := λ p,
  match p_pool p with
  | None => (Raised AttributeError, p)
  | Some s =>
      let '(r, s') := m s in
      (r, mkProxy (p_has_fun p) (Some s') (p_local p) (p_nobjs p) (p_calls p))
  end.

Definition set_local (l : option (option Obj)) : ST Proxy unit :=
  modify (λ p, mkProxy (p_has_fun p) (p_pool p) l (p_nobjs p) (p_calls p)).

(** [_get_obj]: the current wrapped object, possibly creating it. *)
Definition _get_obj (timeout : option Z) (now : Z) : ST Proxy (option Obj) :=
  p <- gets id ;;
  (if p_has_fun p && bool_decide (p_local p = None) then
     match p_pool p with
     | Some _ =>
         o <- on_pool (get cfg set_pop timeout now) ;;
         set_local (Some (Some o)) ;;
         modify (λ p, mkProxy (p_has_fun p) (p_pool p) (p_local p)
                        (from_option nobjs (p_nobjs p) (p_pool p)) (p_calls p))
     | None =>
         modify (λ p, mkProxy (p_has_fun p) (p_pool p) (p_local p)
                        (p_nobjs p) (p_calls p + 1)) ;;
         k <- gets p_calls ;;
         match fun_ cfg (p_nobjs p) k with
         | Raises e => raise e
         | Returns o =>
             set_local (Some (Some o)) ;;
             modify (λ p, mkProxy (p_has_fun p) (p_pool p) (p_local p)
                            (p_nobjs p + 1) (p_calls p))
         end
     end
   else ret_ tt) ;;
  l <- gets p_local ;;
  match l with
  | Some o => ret_ o
  | None => raise AttributeError
  end.


(** [_ret_obj]: return the current wrapped object to the pool. *)
Definition _ret_obj (now : Z) : ST Proxy unit :=
  p <- gets id ;;
  match p_pool p, p_local p with
  | Some _, Some l =>
      (if l is Some o
       then on_pool (ret cfg set_iter o now)
       else ret_ tt) ;;
      set_local None
  | _, _ => ret_ tt
  end.

(** [_obj]: [yield self._get_obj(timeout=timeout); self._ret_obj()] as a
    context manager around the body of a [with] statement. *)
Definition _obj {A} (timeout : option Z) (now : Z)
    (body : option Obj → ST Proxy A) (now' : Z) : ST Proxy A :=
  o <- _get_obj timeout now ;;
  λ p, match body o p with
       | (Done a, p') => (_ret_obj now' ;; ret_ a) p'
       | (Raised e, p') => (Raised e, p')
       | (Blocked, p') => (Blocked, p')
       end.

End ProxyMethods.

(** ** Runs of a pool

    The operations callers and the housekeeper perform on a pool.  Each
    phase of the housekeeping loop is an operation of its own, so that runs
    cover the interleavings of the housekeeper with [get] and [ret]. *)

Inductive op : Type :=
| Get (timeout : option Z)
| Ret (obj : Obj)
| HkRound
| HealthCheck
| Empty
| Fill
| HouseKeeping.

Section Runs.

Variable cfg : Config.
Variable set_iter : gset Obj → list Obj.
Variable set_pop : gset Obj → option Obj.

Definition exec (o : op) (now : Z) : M unit :=
  match o with
  | Get timeout => get cfg set_pop timeout now ;; ret_ tt
  | Ret obj => ret cfg set_iter obj now
  | HkRound => _hkRound cfg set_iter now
  | HealthCheck => _health_check cfg set_iter
  | Empty => _empty cfg set_iter
  | Fill => _fill cfg now
  | HouseKeeping => _houseKeeping cfg set_iter now
  end.

(** The state after an operation, whatever its outcome. *)
Definition step (s : Pool) (o : op * Z) : Pool := (exec o.1 o.2 s).2.

Definition run (ops : list (op * Z)) (s : Pool) : Pool := foldl step s ops.

(** The states of a pool constructed at [now0] after any run. *)
Definition reachable (s : Pool) : Prop :=
  ∃ now0 ops, (Pool_init cfg now0).1 = Done tt ∧ s = run ops (Pool_init cfg now0).2.

End Runs.

(** The interpreter's choices used in examples: enumeration in the order of
    [elements], and [pop] taking the first element of that order. *)
Definition std_iter (X : gset Obj) : list Obj := elements X.
Definition std_pop (X : gset Obj) : option Obj := head (elements X).

(** ** Invariants of the bookkeeping *)

Section Invariants.

Variable cfg : Config.

(** The object was returned by the factory for an earlier creation number. *)
Definition born (s : Pool) (o : Obj) : Prop :=
  ∃ n k, 0 ≤ n < ncreated s ∧ fun_ cfg n k = Returns o.

(** The capacity gate, while the running operation holds [k] tokens of its
    own: every token is free, held for an object in use, or held by the
    operation. *)
Definition tokens_ok (k : Z) (s : Pool) : Prop :=
  match sem s with
  | Some m =>
      0 < max_size cfg ∧
      sem_initial m = max_size cfg ∧ 0 ≤ sem_value m ∧
      sem_value m + Z.of_nat (size (using_ s)) + k = max_size cfg
  | None => max_size cfg = 0
  end.

Record Inv (k : Z) (s : Pool) : Prop := mkInv {
  inv_disjoint : avail s ## using_ s;
  inv_todel : todel s ## avail s ∪ using_ s;
  inv_dom : dom (uses s) = avail s ∪ using_ s;
  inv_nobjs : nobjs s = Z.of_nat (size (avail s)) + Z.of_nat (size (using_ s));
  inv_ncreated :
    ncreated s = nobjs s + Z.of_nat (size (todel s)) + ndestroys s;
  inv_destroyed : ndestroys s = Z.of_nat (length (destroyed s));
  inv_born : ∀ o, o ∈ avail s ∪ using_ s ∪ todel s → born s o;
  inv_tokens : tokens_ok k s;
  inv_min_size : min_size s = min_size0 cfg;
  inv_alive : shutdown_ s = false
}.

(** The bound on the number of live objects of a bounded pool. *)
Definition Bound (s : Pool) : Prop :=
  max_size cfg ≠ 0 → nobjs s ≤ Z.max (max_size cfg) (min_size0 cfg).

(** How a later state relates to an earlier one: creation numbers grow,
    an object which left the pool stays out, the use count of an object
    does not decrease, and destroyed objects stay destroyed. *)
Record evolves (s0 s : Pool) : Prop := mkEvolves {
  ev_ncreated : ncreated s0 ≤ ncreated s;
  ev_dead : ∀ o, born s0 o → o ∉ dom (uses s0) → o ∉ dom (uses s);
  ev_uses : ∀ o i i',
    uses s0 !! o = Some i → uses s !! o = Some i' →
    uses_count i ≤ uses_count i';
  ev_destroyed : ∀ o, o ∈ destroyed s0 → o ∈ destroyed s
}.

(** The object has reached the use limit. *)
Definition worn_out (s : Pool) (o : Obj) : Prop :=
  max_use cfg ≠ 0 ∧ ∃ i, uses s !! o = Some i ∧ max_use cfg ≤ uses_count i.

(** At [now] the object has been held for at least [max_using_delay_kill]. *)
Definition kill_due (now : Z) (s : Pool) (o : Obj) : Prop :=
  max_using_delay_kill cfg ≠ 0 ∧
  ∃ i, uses s !! o = Some i ∧ now - last_get i >= max_using_delay_kill cfg.

(** At [now] the object has been idle for at least [max_avail_delay]. *)
Definition idle_due (now : Z) (s : Pool) (o : Obj) : Prop :=
  ∃ i, uses s !! o = Some i ∧ now - last_ret i >= max_avail_delay cfg.

(** Conservation of objects: the three sets are disjoint, the live count
    is the number of available and in-use objects, and every created
    object is live, pending destruction or destroyed. *)
Definition conserved (s : Pool) : Prop :=
  avail s ## using_ s ∧ todel s ## avail s ∪ using_ s ∧
  Z.of_nat (size (avail s)) + Z.of_nat (size (using_ s)) = nobjs s ∧
  ncreated s =
    nobjs s + Z.of_nat (size (todel s)) + Z.of_nat (length (destroyed s)) ∧
  ndestroys s = Z.of_nat (length (destroyed s)).

(** The hook which describes an object in [stats], if any. *)
Definition describe : option (Obj → call string) :=
  match stats_hook cfg with
  | Some f => Some f
  | None => tracer cfg
  end.

(** Two objects returned for different creation numbers are different. *)
Definition fun_distinct : Prop :=
  ∀ n k n' k' o, 0 ≤ n → 0 ≤ n' →
    fun_ cfg n k = Returns o → fun_ cfg n' k' = Returns o → n = n'.

End Invariants.

(** The gate after one token was taken, resp. given back. *)
Definition sem_dec (sm : option Semaphore) : option Semaphore :=
  (λ m, mkSemaphore (sem_value m - 1) (sem_initial m)) <$> sm.
Definition sem_inc (sm : option Semaphore) : option Semaphore :=
  (λ m, mkSemaphore (sem_value m + 1) (sem_initial m)) <$> sm.

(** The objects and their accounting are the same in both states. *)
Record same_objs (s s' : Pool) : Prop := mkSameObjs {
  so_avail : avail s' = avail s;
  so_using : using_ s' = using_ s;
  so_todel : todel s' = todel s;
  so_uses : uses s' = uses s;
  so_nobjs : nobjs s' = nobjs s;
  so_ncreated : ncreated s' = ncreated s;
  so_ndestroys : ndestroys s' = ndestroys s;
  so_destroyed : destroyed s' = destroyed s;
  so_min_size : min_size s' = min_size s;
  so_shutdown : shutdown_ s' = shutdown_ s
}.

(** What creating objects may change. *)
Record grows (s s' : Pool) : Prop := mkGrows {
  gr_using : using_ s' = using_ s;
  gr_todel : todel s' = todel s;
  gr_sem : sem s' = sem s;
  gr_destroyed : destroyed s' = destroyed s;
  gr_avail : avail s ⊆ avail s';
  gr_nobjs : nobjs s ≤ nobjs s'
}.

(** The state without the log. *)
Definition forget_log (s : Pool) : Pool := upd_logged (λ _, []) s.

(** The health hook answers [False] for the object: the one outcome for
    which [_health_check] removes it. *)
Definition unhealthy (h : Obj → call bool) (o : Obj) : bool :=
  match h o with
  | Returns false => true
  | _ => false
  end.

(** The objects the pool keeps track of. *)
Definition tracked (s : Pool) : gset Obj :=
  dom (uses s) ∪ avail s ∪ using_ s.

(** The use limit is respected: no tracked object has been used more than
    [max_use] times, and an available object can be used once more. *)
Definition within_max_use (cfg : Config) (s : Pool) : Prop :=
  ∀ o i, uses s !! o = Some i →
    0 ≤ uses_count i ≤ max_use cfg ∧
    (o ∈ avail s → uses_count i < max_use cfg).

(** No use is counted between two states: an object tracked in the later
    state is new, with no use yet, or was tracked with the same count. *)
Definition no_use_counted (s s' : Pool) : Prop :=
  ∀ o i', uses s' !! o = Some i' →
    uses_count i' = 0 ∨
    ∃ i, uses s !! o = Some i ∧ uses_count i' = uses_count i.

(** A computation which counts no use, whatever its outcome. *)
Definition stable {A} (m : M A) : Prop :=
  ∀ s, no_use_counted s (m s).2.

(** A free token, when the pool is bounded. *)
Definition token_free (s : Pool) : Prop :=
  ∀ m, sem s = Some m → sem_value m ≠ 0.

(** Hoare triples: the postcondition sees the outcome and the final state. *)
Definition hoare {S A} (P : S → Prop) (m : ST S A)
    (Q : outcome A → S → Prop) : Prop :=
  ∀ s, P s → Q (m s).1 (m s).2.

(** ** Example pools

    A factory which returns the creation number as the object, with the
    sizes, recycling limits and hooks given; the same hook (if any) serves
    as opener, getter, retter and closer.  The objects being numbers, the
    object [0] is the one whose truth value is false. *)
Definition example_cfg (mx mn mu idle kill : Z)
    (hook : option (Obj → call unit)) (hl : option (Obj → call bool))
    (st : option (Obj → call string)) : Config :=
  {| fun_ := λ n _, Returns (Z.to_nat n);
     max_size := mx; min_size0 := mn; timeout_ := None;
     max_use := mu; max_avail_delay := idle;
     max_using_delay := 0; max_using_delay_kill := kill;
     health_freq := 1;
     opener := hook; getter := hook; retter := hook; closer := hook;
     health := hl; stats_hook := st; tracer := None;
     obj_truthy := λ o, bool_decide (o ≠ 0%nat); skip_thread := false |}.

(** The same pool with another frequency of the health checks. *)
Definition with_health_freq (f : Z) (c : Config) : Config :=
  {| fun_ := fun_ c; max_size := max_size c; min_size0 := min_size0 c;
     timeout_ := timeout_ c; max_use := max_use c;
     max_avail_delay := max_avail_delay c;
     max_using_delay := max_using_delay c;
     max_using_delay_kill := max_using_delay_kill c;
     health_freq := f;
     opener := opener c; getter := getter c; retter := retter c;
     closer := closer c; health := health c; stats_hook := stats_hook c;
     tracer := tracer c; obj_truthy := obj_truthy c;
     skip_thread := skip_thread c |}.

(** The same pool with another factory. *)
Definition with_fun (f : Z → Z → call Obj) (c : Config) : Config :=
  {| fun_ := f; max_size := max_size c; min_size0 := min_size0 c;
     timeout_ := timeout_ c; max_use := max_use c;
     max_avail_delay := max_avail_delay c;
     max_using_delay := max_using_delay c;
     max_using_delay_kill := max_using_delay_kill c;
     health_freq := health_freq c;
     opener := opener c; getter := getter c; retter := retter c;
     closer := closer c; health := health c; stats_hook := stats_hook c;
     tracer := tracer c; obj_truthy := obj_truthy c;
     skip_thread := skip_thread c |}.

(** A factory whose second call fails. *)
Definition flaky_fun (n k : Z) : call Obj :=
  if bool_decide (k = 2) then Raises (UserError 9) else Returns (Z.to_nat n).

(** The state of an example pool constructed at time 0, after a run. *)
Definition example_run (c : Config) (ops : list (op * Z)) : Pool :=
  run c std_iter std_pop ops (Pool_init c 0).2.
(** * Properties *)

(** Reduce the projections of updated states. *)
Ltac psimpl :=
  cbn [nobjs nuses ncreating ncreated nhealth bad_health nborrows nreturns
       nkilled nrecycled nwornout ndestroys hc_rounds hc_errors hk_rounds
       hk_errors shutdown_ min_size avail using_ todel uses sem logged
       destroyed upd_nobjs upd_nuses upd_ncreating upd_ncreated upd_nhealth
       upd_bad_health upd_nborrows upd_nreturns upd_nkilled upd_nrecycled
       upd_nwornout upd_ndestroys upd_hc_rounds upd_hc_errors upd_hk_rounds
       upd_hk_errors upd_shutdown upd_min_size upd_avail upd_using upd_todel
       upd_uses upd_sem upd_logged upd_destroyed
       sem_value sem_initial fst snd] in *.

(** ** Sizes of sets *)

Lemma size_add_fresh (o : Obj) (X : gset Obj) :
  o ∉ X → Z.of_nat (size ({[o]} ∪ X)) = Z.of_nat (size X) + 1.
Proof.
  intros Ho. rewrite size_union by set_solver. rewrite size_singleton. lia.
Qed.

Lemma size_remove (o : Obj) (X : gset Obj) :
  o ∈ X → Z.of_nat (size (X ∖ {[o]})) = Z.of_nat (size X) - 1.
Proof.
  intros Ho. rewrite size_difference by set_solver. rewrite size_singleton.
  assert (size X ≠ 0%nat) by (intros E; apply size_empty_inv in E; set_solver).
  lia.
Qed.

Lemma size_nonempty (o : Obj) (X : gset Obj) : o ∈ X → 1 ≤ Z.of_nat (size X).
Proof.
  intros Ho.
  assert (size X ≠ 0%nat) by (intros E; apply size_empty_inv in E; set_solver).
  lia.
Qed.

(** ** The interpreter's choices of the examples *)

Lemma std_iter_perm (X : gset Obj) : std_iter X ≡ₚ elements X.
Proof. reflexivity. Qed.

Lemma std_pop_elem (X : gset Obj) (o : Obj) : std_pop X = Some o → o ∈ X.
Proof.
  unfold std_pop. intros H. apply elem_of_elements.
  destruct (elements X) as [|x l]; simplify_eq/=. left.
Qed.

Lemma std_pop_None (X : gset Obj) : std_pop X = None → X = ∅.
Proof.
  unfold std_pop. intros H. apply leibniz_equiv, elements_empty_inv.
  destruct (elements X); simplify_eq/=. done.
Qed.

(** ** Loops *)

Lemma for_each_ind {S A} (P : list A → S → Prop) (Q : outcome unit → S → Prop)
    (body : A → ST S bool) :
  (∀ x l s, P (x :: l) s →
     match body x s with
     | (Done true, s') => Q (Done tt) s'
     | (Done false, s') => P l s'
     | (Raised e, s') => Q (Raised e) s'
     | (Blocked, s') => Q Blocked s'
     end) →
  (∀ s, P [] s → Q (Done tt) s) →
  ∀ l, hoare (P l) (for_each l body) Q.
Proof.
  intros Hbody Hnil l. induction l as [|x l IH]; intros s Hs; simpl.
  - by apply Hnil.
  - specialize (Hbody x l s Hs). unfold bind.
    destruct (body x s) as [[[]|e|] s']; simpl; auto.
Qed.

Lemma for_fold_ind {S A B} (P : list A → B → S → Prop)
    (Q : outcome B → S → Prop) (body : A → B → ST S B) :
  (∀ x l acc s, P (x :: l) acc s →
     match body x acc s with
     | (Done acc', s') => P l acc' s'
     | (Raised e, s') => Q (Raised e) s'
     | (Blocked, s') => Q Blocked s'
     end) →
  (∀ acc s, P [] acc s → Q (Done acc) s) →
  ∀ l acc, hoare (P l acc) (for_fold l acc body) Q.
Proof.
  intros Hbody Hnil l. induction l as [|x l IH]; intros acc s Hs; simpl.
  - by apply Hnil.
  - specialize (Hbody x l acc s Hs). unfold bind.
    destruct (body x acc s) as [[acc'|e|] s']; simpl; auto.
    by apply IH.
Qed.

(** ** The bookkeeping blocks preserve the invariant *)

Lemma grows_refl s : grows s s.
Proof. by split. Qed.

Lemma grows_trans s0 s1 s2 : grows s0 s1 → grows s1 s2 → grows s0 s2.
Proof.
  intros [] []. split; try congruence; [set_solver | lia].
Qed.

Section Preservation.

Variable cfg : Config.
Variable set_iter : gset Obj → list Obj.
Variable set_pop : gset Obj → option Obj.

Hypothesis fun_ok : fun_distinct cfg.
Hypothesis set_iter_perm : ∀ X, set_iter X ≡ₚ elements X.
Hypothesis set_pop_elem : ∀ X o, set_pop X = Some o → o ∈ X.
Hypothesis set_pop_None : ∀ X, set_pop X = None → X = ∅.

Lemma evolves_refl s : evolves cfg s s.
Proof.
  split; [lia|done| |done]. intros o i i' H1 H2. simplify_eq. lia.
Qed.

Lemma born_mono s s' o : ncreated s ≤ ncreated s' → born cfg s o → born cfg s' o.
Proof. intros Hle (n & k & Hn & Hf). exists n, k. split; [lia|done]. Qed.

Lemma Inv_keys_born k s o : Inv cfg k s → o ∈ dom (uses s) → born cfg s o.
Proof.
  intros HI Ho. apply (inv_born _ _ _ HI). rewrite (inv_dom _ _ _ HI) in Ho.
  set_solver.
Qed.

Lemma evolves_trans k s0 s1 s2 :
  Inv cfg k s0 → evolves cfg s0 s1 → evolves cfg s1 s2 → evolves cfg s0 s2.
Proof.
  intros HI [Hc1 Hd1 Hu1 Hx1] [Hc2 Hd2 Hu2 Hx2]. split.
  - lia.
  - intros o Hb Ho. apply Hd2; [by eapply born_mono|by apply Hd1].
  - intros o i i2 H0 H2.
    destruct (uses s1 !! o) as [i1|] eqn:H1.
    + specialize (Hu1 _ _ _ H0 H1). specialize (Hu2 _ _ _ H1 H2). lia.
    + exfalso. assert (Hb : born cfg s0 o).
      { eapply Inv_keys_born; [done|]. apply elem_of_dom. eauto. }
      eapply (Hd2 o); [by eapply born_mono| |].
      * by apply not_elem_of_dom.
      * apply elem_of_dom. eauto.
  - auto.
Qed.

Lemma Inv_ncreated_nonneg k s : Inv cfg k s → 0 ≤ ncreated s.
Proof.
  intros HI. rewrite (inv_ncreated _ _ _ HI), (inv_nobjs _ _ _ HI),
    (inv_destroyed _ _ _ HI). lia.
Qed.

(** An object the factory returns now is not yet known to the pool. *)
Lemma fresh_object k s j o :
  Inv cfg k s → fun_ cfg (ncreated s) j = Returns o → ¬ born cfg s o.
Proof.
  intros HI Hf (n & k' & Hn & Hf').
  pose proof (Inv_ncreated_nonneg _ _ HI).
  assert (n = ncreated s) by (eapply fun_ok; [| |done|done]; lia). lia.
Qed.

Lemma run_hook_eq hook report o s :
  ∃ l, run_hook hook report o s = (Done tt, upd_logged (λ l0, l0 ++ l) s).
Proof.
  unfold run_hook. destruct hook as [h|].
  - destruct (h o) as [[]|e].
    + exists []. unfold ret_. f_equal. destruct s; unfold upd_logged; simpl.
      by rewrite app_nil_r.
    + by exists [report e].
  - exists []. unfold ret_. f_equal. destruct s; unfold upd_logged; simpl.
    by rewrite app_nil_r.
Qed.

Lemma _new_spec k now s :
  Inv cfg k s →
  match _new cfg now s with
  | (Done o, s') =>
      Inv cfg k s' ∧ evolves cfg s s' ∧ grows s s' ∧
      o ∉ avail s ∪ using_ s ∪ todel s ∧
      avail s' = {[o]} ∪ avail s ∧ nobjs s' = nobjs s + 1 ∧
      uses s' = <[o := mkUseInfo 0 now now]> (uses s)
  | (Raised e, s') =>
      Inv cfg k s' ∧ evolves cfg s s' ∧ grows s s' ∧
      avail s' = avail s ∧ nobjs s' = nobjs s ∧
      fun_ cfg (ncreated s) (ncreating s + 1) = Raises e
  | (Blocked, _) => False
  end.
Proof.
  intros HI. unfold _new, _create, bind, modify, gets. simpl.
  destruct (fun_ cfg (ncreated s) (ncreating s + 1)) as [o|e] eqn:Hf; simpl.
  - destruct (run_hook_eq (opener cfg) LogOpenerException o
      (upd_uses (λ u, <[o:=mkUseInfo 0 now now]> u)
        (upd_nobjs (λ n, n + 1) (upd_ncreated (λ n, n + 1)
          (upd_ncreating (λ n, n + 1) s))))) as [l ->].
    simpl.
    pose proof (fresh_object _ _ _ _ HI Hf) as Hfresh.
    pose proof (Inv_ncreated_nonneg _ _ HI) as Hnn.
    assert (Ho : o ∉ avail s ∪ using_ s ∪ todel s).
    { intros Ho. apply Hfresh. by apply (inv_born _ _ _ HI). }
    destruct HI as [H1 H2 H3 H4 H5 H6 H7 H8 H9 H10].
    split_and!; [split| split | split | ..]; psimpl; try done.
    + set_solver.
    + set_solver.
    + rewrite dom_insert_L. set_solver.
    + rewrite size_add_fresh by set_solver. lia.
    + lia.
    + intros o' Ho'. destruct (decide (o' = o)) as [->|Hne].
      * exists (ncreated s), (ncreating s + 1). split; [|done]. psimpl. lia.
      * eapply born_mono; [|apply H7; set_solver]. psimpl. lia.
    + lia.
    + intros o' Hb Ho'. rewrite dom_insert_L.
      assert (o' ≠ o) by (by intros ->). set_solver.
    + intros o' i i' Hi Hi'. destruct (decide (o' = o)) as [->|Hne].
      * exfalso. apply Ho. assert (o ∈ dom (uses s)) by (apply elem_of_dom; eauto).
        set_solver.
      * rewrite lookup_insert_ne in Hi' by done. simplify_eq. lia.
    + set_solver.
    + lia.
  - destruct HI as [H1 H2 H3 H4 H5 H6 H7 H8 H9 H10].
    split_and!; [split| split | split | ..]; psimpl; try done.
    intros o i i' Hi Hi'. simplify_eq. lia.
Qed.

Lemma evolves_same s s' :
  ncreated s' = ncreated s → uses s' = uses s → destroyed s' = destroyed s →
  evolves cfg s s'.
Proof.
  intros H1 H2 H3. split; rewrite ?H1, ?H2, ?H3; [lia|done| |done].
  intros o i i' Hi Hi'. simplify_eq. lia.
Qed.

(** An object in use leaves the pool: its token passes to the running
    operation. *)
Lemma retire_using k s o :
  Inv cfg k s → o ∈ using_ s →
  ∃ s', retire o s = (Done tt, s') ∧
    Inv cfg (k + 1) s' ∧ evolves cfg s s' ∧
    using_ s' = using_ s ∖ {[o]} ∧ avail s' = avail s ∧
    todel s' = {[o]} ∪ todel s ∧ sem s' = sem s ∧
    nobjs s' = nobjs s - 1 ∧ destroyed s' = destroyed s ∧
    uses s' = delete o (uses s).
Proof.
  intros HI Ho. pose proof HI as [H1 H2 H3 H4 H5 H6 H7 H8 H9 H10].
  assert (Hu : is_Some (uses s !! o)).
  { apply elem_of_dom. rewrite H3. set_solver. }
  assert (Ha : o ∉ avail s) by set_solver.
  unfold retire, _out, bind, modify, gets, when, ret_. simpl.
  destruct (decide (is_Some (uses s !! o))) as [_|?]; [|done]. simpl.
  destruct (decide (o ∈ avail s)) as [?|_]; [done|]. simpl.
  destruct (decide (o ∈ using_ s)) as [_|?]; [|done]. simpl.
  eexists. split; [reflexivity|].
  split_and!; [split|split|..]; psimpl; try done.
  - set_solver.
  - set_solver.
  - rewrite dom_delete_L, H3. set_solver.
  - rewrite size_remove by done. lia.
  - rewrite size_add_fresh by set_solver. lia.
  - intros o' Ho'. eapply born_mono; [|apply H7; set_solver]. psimpl. lia.
  - unfold tokens_ok in *. psimpl. destruct (sem s) as [m|]; [|done].
    rewrite size_remove by done. lia.
  - intros o' _ Ho'. rewrite dom_delete_L. set_solver.
  - intros o' i i' Hi Hi'. apply lookup_delete_Some in Hi' as [_ Hi'].
    simplify_eq. lia.
Qed.

(** An available object leaves the pool. *)
Lemma retire_avail k s o :
  Inv cfg k s → o ∈ avail s →
  ∃ s', retire o s = (Done tt, s') ∧
    Inv cfg k s' ∧ evolves cfg s s' ∧
    using_ s' = using_ s ∧ avail s' = avail s ∖ {[o]} ∧
    todel s' = {[o]} ∪ todel s ∧ sem s' = sem s ∧
    nobjs s' = nobjs s - 1 ∧ destroyed s' = destroyed s ∧
    uses s' = delete o (uses s).
Proof.
  intros HI Ho. pose proof HI as [H1 H2 H3 H4 H5 H6 H7 H8 H9 H10].
  assert (Hu : is_Some (uses s !! o)).
  { apply elem_of_dom. rewrite H3. set_solver. }
  assert (Ha : o ∉ using_ s) by set_solver.
  unfold retire, _out, bind, modify, gets, when, ret_. simpl.
  destruct (decide (is_Some (uses s !! o))) as [_|?]; [|done]. simpl.
  destruct (decide (o ∈ avail s)) as [_|?]; [|done]. simpl.
  destruct (decide (o ∈ using_ s)) as [?|_]; [done|]. simpl.
  eexists. split; [reflexivity|].
  split_and!; [split|split|..]; psimpl; try done.
  - set_solver.
  - set_solver.
  - rewrite dom_delete_L, H3. set_solver.
  - rewrite size_remove by done. lia.
  - rewrite size_add_fresh by set_solver. lia.
  - intros o' Ho'. eapply born_mono; [|apply H7; set_solver]. psimpl. lia.
  - intros o' _ Ho'. rewrite dom_delete_L. set_solver.
  - intros o' i i' Hi Hi'. apply lookup_delete_Some in Hi' as [_ Hi'].
    simplify_eq. lia.
Qed.

Lemma bind_eq {S A B} (m : ST S A) (k : A → ST S B) s :
  bind m k s =
  match m s with
  | (Done a, s') => k a s'
  | (Raised e, s') => (Raised e, s')
  | (Blocked, s') => (Blocked, s')
  end.
Proof. reflexivity. Qed.

Lemma modify_eq {S} (f : S → S) s : modify f s = (Done tt, f s).
Proof. reflexivity. Qed.

Lemma gets_eq {S A} (f : S → A) s : gets f s = (Done (f s), s).
Proof. reflexivity. Qed.

Lemma ret_eq {S A} (a : A) (s : S) : ret_ a s = (Done a, s).
Proof. reflexivity. Qed.

Lemma raise_eq {S A} (e : exn) (s : S) : raise (A:=A) e s = (Raised e, s).
Proof. reflexivity. Qed.

Lemma log_eq r s : log r s = (Done tt, upd_logged (λ l, l ++ [r]) s).
Proof. reflexivity. Qed.

Lemma try_except_eq {S A} (m : ST S A) (h : exn → ST S A) s :
  try_except m h s =
  match m s with
  | (Raised e, s') => h e s'
  | r => r
  end.
Proof. reflexivity. Qed.

(** One step of symbolic execution of a computation applied to a state. *)
Ltac mstep :=
  repeat (first [ rewrite bind_eq | rewrite modify_eq | rewrite gets_eq
                | rewrite ret_eq | rewrite raise_eq | rewrite log_eq
                | rewrite try_except_eq | progress cbn [negb andb orb] ];
          cbv beta iota).

Lemma _destroy_eq o s :
  ∃ lg, _destroy cfg o s =
        (Done tt, upd_destroyed (λ d, d ++ [o]) (upd_logged (λ l0, l0 ++ lg) s)).
Proof.
  unfold _destroy. rewrite bind_eq.
  destruct (run_hook_eq (closer cfg) LogCloserException o s) as [lx ->].
  by exists lx.
Qed.

Lemma destroy_all l s :
  ∃ lg, for_each l (λ obj, _destroy cfg obj ;; ret_ false) s =
        (Done tt, upd_logged (λ l0, l0 ++ lg) (upd_destroyed (λ d, d ++ l) s)).
Proof.
  revert s. induction l as [|x l IH]; intros s.
  - exists []. simpl. unfold ret_. f_equal.
    unfold upd_logged, upd_destroyed. simpl. by rewrite !app_nil_r.
  - cbn [for_each]. rewrite !bind_eq.
    destruct (_destroy_eq x s) as [lx ->]. unfold ret_ at 1.
    destruct (IH (upd_destroyed (λ d, d ++ [x])
                    (upd_logged (λ l0, l0 ++ lx) s))) as [lg ->].
    exists (lx ++ lg). f_equal.
    unfold upd_logged, upd_destroyed. simpl.
    by rewrite <- !app_assoc.
Qed.

Lemma set_iter_length X : length (set_iter X) = size X.
Proof. by rewrite set_iter_perm. Qed.

Lemma set_iter_elem X o : o ∈ set_iter X ↔ o ∈ X.
Proof. rewrite set_iter_perm. apply elem_of_elements. Qed.

Lemma set_iter_NoDup X : NoDup (set_iter X).
Proof. rewrite set_iter_perm. apply NoDup_elements. Qed.

Lemma _empty_spec k s :
  Inv cfg k s →
  ∃ s', _empty cfg set_iter s = (Done tt, s') ∧
    Inv cfg k s' ∧ evolves cfg s s' ∧ todel s' = ∅ ∧
    avail s' = avail s ∧ using_ s' = using_ s ∧ sem s' = sem s ∧
    nobjs s' = nobjs s ∧ uses s' = uses s ∧
    (∀ o, o ∈ todel s → o ∈ destroyed s').
Proof.
  intros HI. pose proof HI as [H1 H2 H3 H4 H5 H6 H7 H8 H9 H10].
  unfold _empty. mstep.
  destruct (decide (todel s = ∅)) as [He|Hne]; mstep.
  - exists s. split_and!; try done.
    + apply evolves_refl.
    + intros o. rewrite He. set_solver.
  - edestruct destroy_all as [lg Hd].
    eexists. split; [exact Hd|]. clear Hd.
    split_and!; [split|split|..]; psimpl; try done.
    + rewrite H5, size_empty, set_iter_length. lia.
    + rewrite H6, length_app, set_iter_length. lia.
    + intros o Ho. eapply born_mono; [|apply H7; set_solver]. psimpl. lia.
    + intros o i i' Hi Hi'. simplify_eq. lia.
    + intros o Ho. apply elem_of_app. by left.
    + intros o Ho. apply elem_of_app. right. by apply set_iter_elem.
Qed.

(** Closing tactic for the frame conditions of the specifications. *)
Ltac fin :=
  lazymatch goal with
  | |- (_ ≤ _)%Z => lia
  | |- _ ⊆ _ => set_solver
  | |- _ ∉ _ => set_solver
  | |- _ ∈ _ => set_solver
  | |- @eq Z _ _ => first [done | congruence | lia]
  | |- @eq (gset _) _ _ => first [done | congruence | set_solver]
  | |- _ = _ => first [done | congruence]
  | |- evolves _ _ _ => first [done | by apply evolves_same | apply evolves_refl]
  | |- _ => done
  end.

(** *** The capacity gate *)

Lemma same_objs_refl s : same_objs s s.
Proof. by split. Qed.

Lemma same_objs_trans s0 s1 s2 : same_objs s0 s1 → same_objs s1 s2 → same_objs s0 s2.
Proof. intros [] []. split; congruence. Qed.

Lemma same_objs_evolves s s' : same_objs s s' → evolves cfg s s'.
Proof. intros []. by apply evolves_same. Qed.

Lemma Inv_same_objs k k' s s' :
  same_objs s s' → tokens_ok cfg k' s' → Inv cfg k s → Inv cfg k' s'.
Proof.
  intros [E1 E2 E3 E4 E5 E6 E7 E8 E9 E10] Ht [H1 H2 H3 H4 H5 H6 H7 H8 H9 H10].
  split; rewrite ?E1, ?E2, ?E3, ?E4, ?E5, ?E6, ?E7, ?E8, ?E9, ?E10; try done.
  intros o Ho. eapply born_mono; [|by apply H7]. lia.
Qed.

Lemma sem_inc_dec sm : sem_inc (sem_dec sm) = sm.
Proof.
  destruct sm as [[v i]|]; [|done]. unfold sem_inc, sem_dec. simpl.
  do 2 f_equal. lia.
Qed.

Lemma Inv_unbounded k k' s : sem s = None → Inv cfg k s → Inv cfg k' s.
Proof.
  intros Hs HI. eapply Inv_same_objs; [apply same_objs_refl| |done].
  pose proof (inv_tokens _ _ _ HI) as Ht. unfold tokens_ok in *.
  by rewrite Hs in *.
Qed.

(** Taking a token, when there is a gate. *)
Lemma sem_acquire_spec k t s :
  Inv cfg k s → is_Some (sem s) →
  match sem_acquire t s with
  | (Done true, s') =>
      same_objs s s' ∧ Inv cfg (k + 1) s' ∧ sem s' = sem_dec (sem s)
  | (Done false, s') => s' = s ∧ is_Some t
  | (Raised _, _) => False
  | (Blocked, s') => s' = s ∧ t = None
  end.
Proof.
  intros HI [m Hm]. unfold sem_acquire. rewrite Hm.
  destruct (decide (sem_value m = 0)) as [Hv|Hv].
  - destruct t; eauto.
  - assert (Hso : same_objs s
      (upd_sem (λ _, Some (mkSemaphore (sem_value m - 1) (sem_initial m))) s))
      by (by split).
    split_and!; [done| |done].
    eapply Inv_same_objs; [done| |done].
    pose proof (inv_tokens _ _ _ HI) as Ht. unfold tokens_ok in *. psimpl.
    rewrite Hm in Ht. lia.
Qed.

(** Giving back a token the running operation holds. *)
Lemma release_if_sem_spec k s :
  0 ≤ k → Inv cfg (k + 1) s →
  ∃ s', release_if_sem s = (Done tt, s') ∧
    same_objs s s' ∧ Inv cfg k s' ∧ sem s' = sem_inc (sem s).
Proof.
  intros Hk HI. unfold release_if_sem. mstep.
  pose proof (inv_tokens _ _ _ HI) as Ht. unfold tokens_ok in Ht.
  destruct (sem s) as [m|] eqn:Hm.
  - unfold sem_release. rewrite Hm.
    destruct (decide (sem_initial m ≤ sem_value m)) as [Hv|Hv]; [lia|].
    eexists. split; [reflexivity|].
    assert (Hso : same_objs s
      (upd_sem (λ _, Some (mkSemaphore (sem_value m + 1) (sem_initial m))) s))
      by (by split).
    split_and!; [done| |done].
    eapply Inv_same_objs; [done| |done].
    unfold tokens_ok. psimpl. lia.
  - mstep. exists s. split_and!; [done|apply same_objs_refl| |by rewrite Hm].
    by eapply Inv_unbounded.
Qed.

Lemma release_if_sem_None s : sem s = None → release_if_sem s = (Done tt, s).
Proof. intros H. unfold release_if_sem. mstep. by rewrite H. Qed.

(** *** Refilling *)

Lemma fill_one_spec now s :
  Inv cfg 0 s →
  ∃ brk s', fill_one cfg now s = (Done brk, s') ∧
    Inv cfg 0 s' ∧ evolves cfg s s' ∧ grows s s' ∧ nobjs s' ≤ nobjs s + 1.
Proof.
  intros HI. unfold fill_one. mstep.
  destruct (sem s) as [m|] eqn:Hm.
  - mstep. pose proof (sem_acquire_spec 0 (Some 0) s HI) as Ha.
    rewrite Hm in Ha. specialize (Ha (ltac:(eauto))).
    destruct (sem_acquire (Some 0) s) as [[[]|e|] s1]; try done; mstep.
    + (* a token was taken *)
      destruct Ha as (Hso & HI1 & Hs1). mstep.
      pose proof (_new_spec _ now _ HI1) as Hn.
      destruct (_new cfg now s1) as [[o|e|] s2]; [| |done]; mstep.
      * destruct Hn as (HI2 & He2 & Hg2 & Ho & Hav & Hno & Hus).
        destruct (release_if_sem_spec 0 s2) as (s3 & -> & Hso3 & HI3 & Hs3);
          [done|done|].
        mstep. exists false, s3. split_and!; try done.
        -- eapply evolves_trans; [done|by apply same_objs_evolves|].
           eapply evolves_trans; [done|done|by apply same_objs_evolves].
        -- destruct Hso as [so_avail so_using so_todel so_uses so_nobjs so_ncreated so_ndestroys so_destroyed so_min_size so_shutdown]. destruct Hg2 as [gr_using gr_todel gr_sem gr_destroyed gr_avail gr_nobjs]. destruct Hso3 as [so_avail_1 so_using_1 so_todel_1 so_uses_1 so_nobjs_1 so_ncreated_1 so_ndestroys_1 so_destroyed_1 so_min_size_1 so_shutdown_1].
           split; [congruence|congruence| |congruence|set_solver|lia].
           rewrite Hs3, gr_sem, Hs1, Hm. apply sem_inc_dec.
        -- destruct Hso as [so_avail so_using so_todel so_uses so_nobjs so_ncreated so_ndestroys so_destroyed so_min_size so_shutdown]. destruct Hso3 as [so_avail_1 so_using_1 so_todel_1 so_uses_1 so_nobjs_1 so_ncreated_1 so_ndestroys_1 so_destroyed_1 so_min_size_1 so_shutdown_1]. lia.
      * destruct Hn as (HI2 & He2 & Hg2 & Hav & Hno & Hfun).
        assert (HI2' : Inv cfg (0 + 1)
                         (upd_logged (λ l, l ++ [LogNewObjectFailed e]) s2)).
        { eapply Inv_same_objs; [|apply (inv_tokens _ _ _ HI2)|done]. by split. }
        destruct (release_if_sem_spec 0 _ (Z.le_refl 0) HI2')
          as (s3 & -> & Hso3 & HI3 & Hs3).
        mstep. exists false, s3. split_and!; try done.
        -- eapply evolves_trans; [done|by apply same_objs_evolves|].
           eapply evolves_trans; [done|done|].
           apply same_objs_evolves. destruct Hso3 as [so_avail so_using so_todel so_uses so_nobjs so_ncreated so_ndestroys so_destroyed so_min_size so_shutdown]. by split.
        -- destruct Hso as [so_avail so_using so_todel so_uses so_nobjs so_ncreated so_ndestroys so_destroyed so_min_size so_shutdown]. destruct Hg2 as [gr_using gr_todel gr_sem gr_destroyed gr_avail gr_nobjs]. destruct Hso3 as [so_avail_1 so_using_1 so_todel_1 so_uses_1 so_nobjs_1 so_ncreated_1 so_ndestroys_1 so_destroyed_1 so_min_size_1 so_shutdown_1]. psimpl.
           split; [congruence|congruence| |congruence|set_solver|lia].
           rewrite Hs3. psimpl. rewrite gr_sem, Hs1, Hm. apply sem_inc_dec.
        -- destruct Hso as [so_avail so_using so_todel so_uses so_nobjs so_ncreated so_ndestroys so_destroyed so_min_size so_shutdown]. destruct Hso3 as [so_avail_1 so_using_1 so_todel_1 so_uses_1 so_nobjs_1 so_ncreated_1 so_ndestroys_1 so_destroyed_1 so_min_size_1 so_shutdown_1]. psimpl. lia.
    + (* no token is free: the loop stops *)
      destruct Ha as [-> _]. mstep.
      exists true, s. split_and!;
        first [done|apply evolves_refl|apply grows_refl|lia].
    + by destruct Ha.
  - mstep.
    pose proof (_new_spec _ now _ HI) as Hn.
    destruct (_new cfg now s) as [[o|e|] s2]; [| |done]; mstep.
    + destruct Hn as (HI2 & He2 & Hg2 & Ho & Hav & Hno & Hus).
      rewrite release_if_sem_None by (by rewrite (gr_sem _ _ Hg2)).
      mstep. exists false, s2. split_and!; first [done|lia].
    + destruct Hn as (HI2 & He2 & Hg2 & Hav & Hno & Hfun).
      rewrite release_if_sem_None by (psimpl; by rewrite (gr_sem _ _ Hg2)).
      mstep. eexists false, _. split; [reflexivity|].
      assert (Hso : same_objs s2 (upd_logged (λ l, l ++ [LogNewObjectFailed e]) s2))
        by (by split).
      split_and!.
      * eapply Inv_same_objs; [done| |done]. apply (inv_tokens _ _ _ HI2).
      * eapply evolves_trans; [done|done|by apply same_objs_evolves].
      * destruct Hg2 as [gr_using gr_todel gr_sem gr_destroyed gr_avail gr_nobjs]. by split.
      * psimpl. lia.
Qed.

Lemma grows_evolves_trans s0 s1 s2 :
  Inv cfg 0 s0 →
  evolves cfg s0 s1 ∧ grows s0 s1 → evolves cfg s1 s2 ∧ grows s1 s2 →
  evolves cfg s0 s2 ∧ grows s0 s2.
Proof.
  intros HI [] []. split; [by eapply evolves_trans|by eapply grows_trans].
Qed.

Lemma _fill_spec now s :
  Inv cfg 0 s →
  ∃ s', _fill cfg now s = (Done tt, s') ∧
    Inv cfg 0 s' ∧ evolves cfg s s' ∧ grows s s' ∧
    nobjs s' ≤ Z.max (nobjs s) (min_size0 cfg).
Proof.
  intros HI. unfold _fill. mstep.
  destruct (decide (min_size s > nobjs s)) as [Hlt|Hge]; mstep.
  - pose proof (for_each_ind
      (λ l st, Inv cfg 0 st ∧ evolves cfg s st ∧ grows s st ∧
               nobjs st + Z.of_nat (length l) ≤ min_size0 cfg)
      (λ r st, r = Done tt ∧ Inv cfg 0 st ∧ evolves cfg s st ∧ grows s st ∧
               nobjs st ≤ min_size0 cfg)
      (λ _ : nat, fill_one cfg now)) as Hloop.
    lapply Hloop; [clear Hloop; intros Hloop; lapply Hloop; clear Hloop|].
    + intros Hloop.
      specialize (Hloop (seq 0 (Z.to_nat (min_size s - nobjs s))) s).
      destruct (for_each _ _ s) as [r s']. simpl in Hloop.
      destruct Hloop as (-> & HI' & He & Hg & Hn).
      * split_and!; [done|apply evolves_refl|apply grows_refl|].
        rewrite length_seq, <- (inv_min_size _ _ _ HI). lia.
      * exists s'. split_and!; first [done|lia].
    + intros st (HI' & He & Hg & Hn). split_and!; try done.
      simpl in Hn. lia.
    + intros x l st (HI' & He & Hg & Hn).
      destruct (fill_one_spec now st HI') as (brk & s' & -> & HI2 & He2 & Hg2 & Hn2).
      destruct (grows_evolves_trans s st s' HI (conj He Hg) (conj He2 Hg2)).
      simpl in Hn. destruct brk; split_and!; first [done|lia].
  - exists s. split_and!; first [done|apply evolves_refl|apply grows_refl|lia].
Qed.

(** *** Acquiring *)

(** An available object is handed out against a token the operation holds. *)
Lemma take_spec k s o :
  Inv cfg (k + 1) s → o ∈ avail s →
  ∃ i, uses s !! o = Some i ∧ ∀ l now,
    let s' :=
      upd_logged (λ l0, l0 ++ l)
        (upd_uses (λ u, <[o := mkUseInfo (uses_count i + 1) now (last_ret i)]> u)
           (upd_nuses (λ n, n + 1)
              (upd_using (λ u, {[o]} ∪ u)
                 (upd_avail (λ a, a ∖ {[o]}) s)))) in
    Inv cfg k s' ∧ evolves cfg s s'.
Proof.
  intros HI Ho. pose proof HI as [H1 H2 H3 H4 H5 H6 H7 H8 H9 H10].
  assert (Hu : is_Some (uses s !! o)).
  { apply elem_of_dom. rewrite H3. set_solver. }
  destruct Hu as [i Hi]. exists i. split; [done|]. intros l now.
  assert (Hnu : o ∉ using_ s) by set_solver.
  split; split; psimpl; try done.
  - set_solver.
  - set_solver.
  - rewrite dom_insert_L, H3. apply set_eq. intros x.
    destruct (decide (x = o)); set_solver.
  - rewrite size_remove, size_add_fresh by done. lia.
  - intros o' Ho'. eapply born_mono; [|apply H7]; [psimpl; lia|].
    destruct (decide (o' = o)); set_solver.
  - unfold tokens_ok in *. psimpl. destruct (sem s) as [m|]; [|done].
    rewrite size_add_fresh by done. lia.
  - intros o' _ Ho'. rewrite dom_insert_L. set_solver.
  - intros o' j j' Hj Hj'. destruct (decide (o' = o)) as [->|Hne].
    + rewrite lookup_insert_eq in Hj'. simplify_eq. simpl. lia.
    + rewrite lookup_insert_ne in Hj' by done. simplify_eq. lia.
Qed.

Lemma uses_of_eq o s :
  uses_of o s =
  match uses s !! o with
  | Some u => (Done u, s)
  | None => (Raised KeyError, s)
  end.
Proof. reflexivity. Qed.

Lemma get_locked_spec now s :
  Inv cfg 1 s →
  match get_locked cfg set_pop now s with
  | (Done o, s') =>
      Inv cfg 0 s' ∧ evolves cfg s s' ∧
      o ∉ using_ s ∧ using_ s' = {[o]} ∪ using_ s ∧
      todel s' = todel s ∧ sem s' = sem s ∧ destroyed s' = destroyed s ∧
      (nobjs s' = nobjs s ∨ avail s' = ∅) ∧
      (∃ i', uses s' !! o = Some i' ∧ last_get i' = now ∧
             uses_count i' = from_option uses_count 0 (uses s !! o) + 1)
  | (Raised e, s') =>
      Inv cfg 0 s' ∧ evolves cfg s s' ∧
      avail s' = avail s ∧ using_ s' = using_ s ∧ todel s' = todel s ∧
      nobjs s' = nobjs s ∧ sem s' = sem_inc (sem s) ∧
      destroyed s' = destroyed s ∧ avail s = ∅ ∧
      fun_ cfg (ncreated s) (ncreating s + 1) = Raises e
  | (Blocked, _) => False
  end.
Proof.
  intros HI. unfold get_locked. mstep.
  destruct (decide (avail s = ∅)) as [He|Hne]; mstep.
  - (* nothing is available: create *)
    pose proof (_new_spec _ now _ HI) as Hn.
    destruct (_new cfg now s) as [[o|e|] s2]; [| |done]; mstep.
    + destruct Hn as (HI2 & He2 & Hg2 & Ho & Hav & Hno & Hus).
      destruct (set_pop (avail s2)) as [o'|] eqn:Hpop.
      2:{ apply set_pop_None in Hpop. set_solver. }
      apply set_pop_elem in Hpop.
      assert (o' = o) as -> by set_solver.
      mstep. rewrite uses_of_eq. psimpl.
      edestruct (take_spec 0 s2 o) as (i & Hi & Ht); [done|done|].
      rewrite Hi. mstep.
      edestruct run_hook_eq as [l Hl]. rewrite Hl. clear Hl. mstep.
      specialize (Ht l now). cbv zeta in Ht. destruct Ht as [HI3 He3].
      destruct Hg2 as [gr_using gr_todel gr_sem gr_destroyed gr_avail gr_nobjs]. split_and!; psimpl; try done.
      * by eapply evolves_trans.
      * set_solver.
      * congruence.
      * right. set_solver.
      * eexists. rewrite lookup_insert_eq. split; [done|]. simpl. split; [done|].
        assert (Hnone : uses s !! o = None).
        { apply not_elem_of_dom. rewrite (inv_dom _ _ _ HI). set_solver. }
        rewrite Hnone. simpl. rewrite Hus, lookup_insert_eq in Hi.
        by simplify_eq.
    + destruct Hn as (HI2 & He2 & Hg2 & Hav & Hno & Hfun).
      assert (HI2' : Inv cfg (0 + 1)
                 (upd_logged (λ l, l ++ [LogObjectCreationFailed e]) s2)).
      { eapply Inv_same_objs; [|apply (inv_tokens _ _ _ HI2)|done]. by split. }
      destruct (release_if_sem_spec 0 _ (Z.le_refl 0) HI2')
        as (s3 & -> & Hso3 & HI3 & Hs3).
      mstep. destruct Hso3 as [so_avail so_using so_todel so_uses so_nobjs so_ncreated so_ndestroys so_destroyed so_min_size so_shutdown]. destruct Hg2 as [gr_using gr_todel gr_sem gr_destroyed gr_avail gr_nobjs]. psimpl. split_and!; try congruence.
      eapply evolves_trans; [done|done|]. by apply evolves_same.
  - destruct (set_pop (avail s)) as [o|] eqn:Hpop.
    2:{ by apply set_pop_None in Hpop. }
    apply set_pop_elem in Hpop.
    mstep. rewrite uses_of_eq. psimpl.
    edestruct (take_spec 0 s o) as (i & Hi & Ht); [done|done|].
    rewrite Hi. mstep.
    edestruct run_hook_eq as [l Hl]. rewrite Hl. clear Hl. mstep.
    specialize (Ht l now). cbv zeta in Ht. destruct Ht as [HI3 He3].
    split_and!; psimpl; try done.
    + pose proof (inv_disjoint _ _ _ HI). set_solver.
    + by left.
    + eexists. rewrite lookup_insert_eq. split; [done|]. simpl. split; [done|].
      by rewrite Hi.
Qed.

Lemma sem_dec_inc_None sm : sm = None → sem_dec sm = sm.
Proof. by intros ->. Qed.

Lemma get_spec t now s :
  Inv cfg 0 s →
  match get cfg set_pop t now s with
  | (Done o, s') =>
      Inv cfg 0 s' ∧ evolves cfg s s' ∧
      o ∉ using_ s ∧ using_ s' = {[o]} ∪ using_ s ∧
      todel s' = todel s ∧ sem s' = sem_dec (sem s) ∧
      destroyed s' = destroyed s ∧
      (nobjs s' = nobjs s ∨ avail s' = ∅) ∧
      (∃ i', uses s' !! o = Some i' ∧ last_get i' = now ∧
             uses_count i' = from_option uses_count 0 (uses s !! o) + 1)
  | (Raised e, s') =>
      Inv cfg 0 s' ∧ evolves cfg s s' ∧
      avail s' = avail s ∧ using_ s' = using_ s ∧ todel s' = todel s ∧
      nobjs s' = nobjs s ∧ sem s' = sem s ∧ destroyed s' = destroyed s ∧
      ((e = TimeOut ∧ s' = s ∧ ∃ m, sem s = Some m ∧ sem_value m = 0) ∨
       (avail s = ∅ ∧ ∃ k, fun_ cfg (ncreated s) k = Raises e))
  | (Blocked, s') =>
      s' = s ∧ py_or t (timeout_ cfg) = None ∧ is_Some (sem s)
  end.
Proof.
  intros HI. unfold get. mstep. rewrite (inv_alive _ _ _ HI). mstep.
  destruct (sem s) as [m|] eqn:Hm; mstep.
  - pose proof (sem_acquire_spec 0 (py_or t (timeout_ cfg)) s HI) as Ha.
    rewrite Hm in Ha. specialize (Ha (ltac:(eauto))).
    destruct (sem_acquire _ s) as [[[]|e|] s1] eqn:Hacq; try done; mstep.
    + destruct Ha as (Hso & HI1 & Hs1).
      pose proof (get_locked_spec now s1 HI1) as Hg.
      destruct (get_locked cfg set_pop now s1) as [[o|e|] s2]; [| |done].
      * destruct Hg as (HI2 & He2 & H1 & H2 & H3 & H4 & H5 & H6 & H7).
        destruct Hso as [so_avail so_using so_todel so_uses so_nobjs so_ncreated so_ndestroys so_destroyed so_min_size so_shutdown]. rewrite <- ?so_using, <- ?so_todel, <- ?so_destroyed,
          <- ?so_nobjs, <- ?so_uses, <- Hs1.
        split_and!; try done.
        eapply evolves_trans; [done| |done]. by apply evolves_same.
      * destruct Hg as (HI2 & He2 & H1 & H2 & H3 & H4 & H5 & H6 & H7 & H8).
        destruct Hso as [so_avail so_using so_todel so_uses so_nobjs so_ncreated so_ndestroys so_destroyed so_min_size so_shutdown]. rewrite <- ?so_using, <- ?so_todel, <- ?so_destroyed,
          <- ?so_nobjs, <- ?so_uses, <- ?so_avail, <- ?so_ncreated.
        split_and!; try done.
        -- eapply evolves_trans; [done| |done]. by apply evolves_same.
        -- rewrite H5, Hs1. apply sem_inc_dec.
        -- right. eauto.
    + destruct Ha as [-> _]. split_and!; try first [done|apply evolves_refl].
      left. split_and!; try done. exists m. split; [done|].
      unfold sem_acquire in Hacq. rewrite Hm in Hacq.
      by destruct (decide (sem_value m = 0)).
    + destruct Ha as [-> ?]. split_and!; eauto.
  - pose proof (Inv_unbounded 0 1 s Hm HI) as HI1.
    pose proof (get_locked_spec now s HI1) as Hg.
    destruct (get_locked cfg set_pop now s) as [[o|e|] s2]; [| |done].
    + destruct Hg as (HI2 & He2 & H1 & H2 & H3 & H4 & H5 & H6 & H7).
      split_and!; try done. by rewrite H4, Hm.
    + destruct Hg as (HI2 & He2 & H1 & H2 & H3 & H4 & H5 & H6 & H7 & H8).
      split_and!; try done; [by rewrite H5, Hm|]. right. eauto.
Qed.

(** *** Releasing *)

(** An object in use becomes available; the operation takes over its token. *)
Lemma put_back_spec k s o :
  Inv cfg k s → o ∈ using_ s →
  ∃ i, uses s !! o = Some i ∧ ∀ now,
    let s' :=
      upd_uses (λ u, <[o := mkUseInfo (uses_count i) (last_get i) now]> u)
        (upd_avail (λ a, {[o]} ∪ a) (upd_using (λ u, u ∖ {[o]}) s)) in
    Inv cfg (k + 1) s' ∧ evolves cfg s s'.
Proof.
  intros HI Ho. pose proof HI as [H1 H2 H3 H4 H5 H6 H7 H8 H9 H10].
  assert (Hu : is_Some (uses s !! o)).
  { apply elem_of_dom. rewrite H3. set_solver. }
  destruct Hu as [i Hi]. exists i. split; [done|]. intros now.
  assert (Hna : o ∉ avail s) by set_solver.
  split; split; psimpl; try done.
  - set_solver.
  - set_solver.
  - rewrite dom_insert_L, H3. apply set_eq. intros x.
    destruct (decide (x = o)); set_solver.
  - rewrite size_remove, size_add_fresh by done. lia.
  - intros o' Ho'. eapply born_mono; [|apply H7]; [psimpl; lia|].
    destruct (decide (o' = o)); set_solver.
  - unfold tokens_ok in *. psimpl. destruct (sem s) as [m|]; [|done].
    rewrite size_remove by done. lia.
  - intros o' _ Ho'. rewrite dom_insert_L. set_solver.
  - intros o' j j' Hj Hj'. destruct (decide (o' = o)) as [->|Hne].
    + rewrite lookup_insert_eq in Hj'. simplify_eq. simpl. lia.
    + rewrite lookup_insert_ne in Hj' by done. simplify_eq. lia.
Qed.

Lemma ret_locked_spec o now s :
  Inv cfg 0 s → o ∈ using_ s →
  ∃ s', ret_locked cfg o now s = (Done tt, s') ∧
    Inv cfg 0 s' ∧ evolves cfg s s' ∧
    using_ s' = using_ s ∖ {[o]} ∧ sem s' = sem_inc (sem s) ∧
    destroyed s' = destroyed s ∧
    ((worn_out cfg s o ∧ todel s' = {[o]} ∪ todel s ∧ avail s' = avail s ∧
      nobjs s' = nobjs s - 1 ∧ uses s' = delete o (uses s)) ∨
     (¬ worn_out cfg s o ∧ todel s' = todel s ∧ avail s' = {[o]} ∪ avail s ∧
      nobjs s' = nobjs s ∧
      ∃ i, uses s !! o = Some i ∧
           uses s' = <[o := mkUseInfo (uses_count i) (last_get i) now]> (uses s))).
Proof.
  intros HI Ho.
  assert (Hu : is_Some (uses s !! o)).
  { apply elem_of_dom. rewrite (inv_dom _ _ _ HI). set_solver. }
  destruct Hu as [i Hi].
  assert (Hworn : ∃ b : bool,
    (if truthy (max_use cfg)
     then i <- uses_of o ;; ret_ (bool_decide (max_use cfg ≤ uses_count i))
     else ret_ false) s = (Done b, s) ∧ (b = true ↔ worn_out cfg s o)).
  { unfold worn_out, truthy. case_bool_decide as Hmu; mstep.
    - rewrite uses_of_eq, Hi. mstep. eexists. split; [done|].
      case_bool_decide; split; try done.
      + intros _. eauto.
      + intros (_ & j & Hj & ?). by simplify_eq.
    - exists false. split; [done|]. split; [done|]. by intros []. }
  destruct Hworn as (b & Hb & Hbw).
  unfold ret_locked. rewrite bind_eq, Hb. cbv beta iota.
  destruct b; mstep.
  - (* worn out: retired *)
    assert (HI0 : Inv cfg 0 (upd_nwornout (λ n, n + 1) s)).
    { eapply Inv_same_objs; [|apply (inv_tokens _ _ _ HI)|done]. by split. }
    destruct (retire_using 0 _ o HI0 Ho)
      as (s1 & -> & HI1 & He1 & H1 & H2 & H3 & H4 & H5 & H6 & H7).
    mstep. psimpl.
    destruct (release_if_sem_spec 0 s1 (Z.le_refl 0) HI1)
      as (s2 & -> & Hso & HI2 & Hs2).
    exists s2. destruct Hso as [so_avail so_using so_todel so_uses so_nobjs so_ncreated so_ndestroys so_destroyed so_min_size so_shutdown]. split_and!; try done; try congruence.
    + eapply evolves_trans; [done| |by apply same_objs_evolves].
      eapply evolves_trans; [done| |done]. by apply evolves_same.
    + left. split_and!; try congruence. by apply Hbw.
  - (* back to the available objects *)
    rewrite uses_of_eq. psimpl. rewrite Hi. mstep.
    destruct (put_back_spec 0 s o HI Ho) as (i' & Hi' & Hp).
    simplify_eq. specialize (Hp now). cbv zeta in Hp. destruct Hp as [HI1 He1].
    destruct (release_if_sem_spec 0 _ (Z.le_refl 0) HI1)
      as (s2 & -> & Hso & HI2 & Hs2).
    exists s2. destruct Hso as [so_avail so_using so_todel so_uses so_nobjs so_ncreated so_ndestroys so_destroyed so_min_size so_shutdown]. psimpl. split_and!; try done; try congruence.
    + eapply evolves_trans; [done|done|by apply evolves_same].
    + right. split_and!; try congruence.
      * intros Hw. apply Hbw in Hw. done.
      * eauto.
Qed.

(** Releasing an object which is not in use changes nothing but the log. *)
Lemma ret_not_using o now s :
  o ∉ using_ s →
  ∃ l, ret cfg set_iter o now s = (Done tt, upd_logged (λ l0, l0 ++ l) s).
Proof.
  intros Ho. unfold ret. mstep.
  edestruct run_hook_eq as [l Hl]. rewrite Hl. clear Hl. mstep. psimpl.
  destruct (decide (o ∈ using_ s)) as [?|_]; [done|]. mstep. by exists l.
Qed.

Lemma Inv_logged k s f : Inv cfg k s → Inv cfg k (upd_logged f s).
Proof.
  intros HI. eapply Inv_same_objs; [|apply (inv_tokens _ _ _ HI)|done]. by split.
Qed.

Lemma ret_spec o now s :
  Inv cfg 0 s → o ∈ using_ s →
  ∃ s', ret cfg set_iter o now s = (Done tt, s') ∧
    Inv cfg 0 s' ∧ evolves cfg s s' ∧
    using_ s' = using_ s ∖ {[o]} ∧ sem s' = sem_inc (sem s) ∧
    todel s' = ∅ ∧ nobjs s' ≤ Z.max (nobjs s) (min_size0 cfg) ∧
    (∀ x, x ∈ todel s → x ∈ destroyed s') ∧
    (worn_out cfg s o → o ∈ destroyed s' ∧ o ∉ avail s' ∧ o ∉ dom (uses s')) ∧
    (¬ worn_out cfg s o → o ∈ avail s').
Proof.
  intros HI Ho. unfold ret. mstep.
  edestruct run_hook_eq as [l Hl]. rewrite Hl. clear Hl. mstep. psimpl.
  destruct (decide (o ∈ using_ s)) as [_|?]; [|done]. mstep.
  pose proof (Inv_logged 0 s (λ l0, l0 ++ l) HI) as HI0.
  destruct (ret_locked_spec o now _ HI0 Ho)
    as (s1 & -> & HI1 & He1 & Hu1 & Hs1 & Hd1 & Hcase).
  mstep. psimpl.
  destruct (_empty_spec 0 s1 HI1)
    as (s2 & -> & HI2 & He2 & Ht2 & Ha2 & Hu2 & Hs2 & Hn2 & Hus2 & Hd2).
  mstep.
  destruct (_fill_spec now s2 HI2) as (s3 & -> & HI3 & He3 & Hg3 & Hn3).
  exists s3. destruct Hg3 as [gr_using gr_todel gr_sem gr_destroyed gr_avail gr_nobjs].
  assert (He13 : evolves cfg s1 s3) by (by eapply evolves_trans).
  assert (Hb : born cfg s1 o).
  { eapply born_mono; [apply (ev_ncreated _ _ _ He1)|].
    apply (inv_born _ _ _ HI0). psimpl. set_solver. }
  split_and!; try congruence.
  - apply (evolves_trans 0 s (upd_logged (λ l0, l0 ++ l) s) s3);
      [done|by apply evolves_same|].
    by apply (evolves_trans 0 _ s1 s3).
  - destruct Hcase as [(_ & _ & _ & Hn & _)|(_ & _ & _ & Hn & _)]; psimpl; lia.
  - intros x Hx. rewrite gr_destroyed. apply Hd2.
    destruct Hcase as [(_ & Ht & _)|(_ & Ht & _)]; rewrite Ht; psimpl; set_solver.
  - intros Hw. destruct Hcase as [(_ & Ht & Ha & Hn & Hus)|(Hnw & _)]; [|done].
    assert (Hdead : o ∉ dom (uses s3)).
    { apply (ev_dead _ _ _ He13); [done|]. rewrite Hus, dom_delete_L. set_solver. }
    split_and!; [|rewrite (inv_dom _ _ _ HI3) in Hdead; set_solver|done].
    rewrite gr_destroyed. apply Hd2. rewrite Ht. set_solver.
  - intros Hnw. destruct Hcase as [(Hw & _)|(_ & Ht & Ha & _)]; [done|].
    apply gr_avail. rewrite Ha2, Ha. set_solver.
Qed.

(** *** Health checks *)

Lemma borrow_move k s o :
  Inv cfg (k + 1) s → o ∈ avail s →
  let s' := upd_nborrows (λ n, n + 1)
              (upd_using (λ u, {[o]} ∪ u) (upd_avail (λ a, a ∖ {[o]}) s)) in
  Inv cfg k s' ∧ evolves cfg s s'.
Proof.
  intros HI Ho. pose proof HI as [H1 H2 H3 H4 H5 H6 H7 H8 H9 H10].
  assert (Hnu : o ∉ using_ s) by set_solver.
  split; [split|by apply evolves_same]; psimpl; try done.
  - set_solver.
  - set_solver.
  - rewrite H3. apply set_eq. intros x. destruct (decide (x = o)); set_solver.
  - rewrite size_remove, size_add_fresh by done. lia.
  - intros o' Ho'. eapply born_mono; [|apply H7]; [psimpl; lia|].
    destruct (decide (o' = o)); set_solver.
  - unfold tokens_ok in *. psimpl. destruct (sem s) as [m|]; [|done].
    rewrite size_add_fresh by done. lia.
Qed.

Lemma return_move k s o :
  Inv cfg k s → o ∈ using_ s →
  let s' := upd_nreturns (λ n, n + 1)
              (upd_avail (λ a, {[o]} ∪ a) (upd_using (λ u, u ∖ {[o]}) s)) in
  Inv cfg (k + 1) s' ∧ evolves cfg s s'.
Proof.
  intros HI Ho. pose proof HI as [H1 H2 H3 H4 H5 H6 H7 H8 H9 H10].
  assert (Hna : o ∉ avail s) by set_solver.
  split; [split|by apply evolves_same]; psimpl; try done.
  - set_solver.
  - set_solver.
  - rewrite H3. apply set_eq. intros x. destruct (decide (x = o)); set_solver.
  - rewrite size_remove, size_add_fresh by done. lia.
  - intros o' Ho'. eapply born_mono; [|apply H7]; [psimpl; lia|].
    destruct (decide (o' = o)); set_solver.
  - unfold tokens_ok in *. psimpl. destruct (sem s) as [m|]; [|done].
    rewrite size_remove by done. lia.
Qed.

Lemma _borrow_spec o s :
  Inv cfg 0 s →
  match _borrow o s with
  | (Done (Some o'), s') =>
      o' = o ∧ o ∈ avail s ∧ Inv cfg 0 s' ∧ evolves cfg s s' ∧
      avail s' = avail s ∖ {[o]} ∧ using_ s' = {[o]} ∪ using_ s ∧
      todel s' = todel s ∧ sem s' = sem_dec (sem s) ∧ nobjs s' = nobjs s ∧
      destroyed s' = destroyed s
  | (Done None, s') => same_objs s s' ∧ sem s' = sem s ∧ Inv cfg 0 s'
  | _ => False
  end.
Proof.
  intros HI. unfold _borrow. mstep.
  assert (Hacq : ∃ (got : bool) s1,
    (if sem s is Some _ then sem_acquire (Some 0) else ret_ true) s = (Done got, s1) ∧
    if got then same_objs s s1 ∧ Inv cfg 1 s1 ∧ sem s1 = sem_dec (sem s)
    else s1 = s).
  { destruct (sem s) as [m|] eqn:Hm.
    - pose proof (sem_acquire_spec 0 (Some 0) s HI) as Ha.
      rewrite Hm in Ha. specialize (Ha (ltac:(eauto))).
      destruct (sem_acquire (Some 0) s) as [[[]|e|] s1]; try done.
      + by exists true, s1.
      + exists false, s1. by destruct Ha.
      + by destruct Ha.
    - exists true, s. mstep. split_and!; [done|apply same_objs_refl| |done].
      by apply (Inv_unbounded 0 1). }
  destruct Hacq as (got & s1 & -> & Hgot). cbv beta iota.
  destruct got; mstep.
  - destruct Hgot as (Hso & HI1 & Hs1). pose proof Hso as [so_avail so_using so_todel so_uses so_nobjs so_ncreated so_ndestroys so_destroyed so_min_size so_shutdown].
    destruct (decide (o ∈ avail s1)) as [Ho|Ho]; mstep.
    + destruct (borrow_move 0 s1 o HI1 Ho) as [HI2 He2].
      psimpl. split_and!; try congruence.
      eapply evolves_trans; [done|by apply same_objs_evolves|done].
    + destruct (release_if_sem_spec 0 s1 (Z.le_refl 0) HI1)
        as (s2 & -> & Hso2 & HI2 & Hs2).
      mstep. split_and!; [by eapply same_objs_trans| |done].
      rewrite Hs2, Hs1. apply sem_inc_dec.
  - subst s1. split_and!; [apply same_objs_refl|done|done].
Qed.

Lemma _return_spec o s :
  Inv cfg 0 s → o ∈ using_ s →
  ∃ s', _return o s = (Done tt, s') ∧
    Inv cfg 0 s' ∧ evolves cfg s s' ∧
    avail s' = {[o]} ∪ avail s ∧ using_ s' = using_ s ∖ {[o]} ∧
    todel s' = todel s ∧ sem s' = sem_inc (sem s) ∧ nobjs s' = nobjs s ∧
    destroyed s' = destroyed s.
Proof.
  intros HI Ho. unfold _return. mstep.
  destruct (decide (o ∈ using_ s)) as [_|?]; [|done]. mstep.
  destruct (return_move 0 s o HI Ho) as [HI1 He1].
  destruct (release_if_sem_spec 0 _ (Z.le_refl 0) HI1)
    as (s2 & -> & Hso2 & HI2 & Hs2).
  exists s2. destruct Hso2 as [so_avail so_using so_todel so_uses so_nobjs so_ncreated so_ndestroys so_destroyed so_min_size so_shutdown]. psimpl. split_and!; try congruence.
  eapply evolves_trans; [done|done|by apply evolves_same].
Qed.

Lemma try_finally_eq {S A} (m : ST S A) (fin : ST S unit) s :
  try_finally m fin s =
  match m s with
  | (Done a, s') => bind fin (λ _, ret_ a) s'
  | (Raised e, s') => bind fin (λ _, raise e) s'
  | (Blocked, s') => (Blocked, s')
  end.
Proof. reflexivity. Qed.

Lemma call_eq {A} (c : call A) s :
  call_ c s = match c with Returns a => (Done a, s) | Raises e => (Raised e, s) end.
Proof. by destruct c. Qed.

Lemma health_check_obj_spec h o s :
  Inv cfg 0 s →
  match health_check_obj cfg h o s with
  | (Blocked, _) => False
  | (_, s') =>
      Inv cfg 0 s' ∧ evolves cfg s s' ∧
      using_ s ⊆ using_ s' ∧ using_ s' ⊆ using_ s ∪ avail s ∧
      destroyed s' = destroyed s ∧
      avail s' ⊆ avail s ∧ nobjs s' ≤ nobjs s ∧ todel s ⊆ todel s'
  end.
Proof.
  intros HI. unfold health_check_obj. rewrite bind_eq.
  pose proof (_borrow_spec o s HI) as Hb.
  destruct (_borrow o s) as [[[o'|]|e|] s1]; try done; cbv beta iota.
  2:{ cbn [borrowed_truthy]. mstep. destruct Hb as ([] & Hs & HI1).
      split_and!; fin. }
  destruct Hb as (-> & Ho & HI1 & He1 & Ha1 & Hu1 & Ht1 & Hs1 & Hn1 & Hd1).
  cbn [borrowed_truthy]. destruct (obj_truthy cfg o) eqn:Htruthy.
  2:{ (* a borrowed object whose truth value is false stays in use *)
      mstep. split_and!; fin. }
  assert (Hin : ∃ (b : bool) sx,
    try_except (modify (upd_nhealth (λ n, n + 1)) ;; call_ (h o))
      (λ e, modify (upd_hc_errors (λ n, n + 1)) ;;
            log (LogHealthCheckError e) ;; ret_ true) s1 = (Done b, sx) ∧
    same_objs s1 sx ∧ sem sx = sem s1).
  { mstep. rewrite call_eq. destruct (h o) as [b|e]; mstep.
    - eexists _, _. split; [done|]. by split.
    - eexists _, _. split; [done|]. by split. }
  destruct Hin as (b & sx & Hin & Hso & Hsx).
  rewrite bind_eq, try_finally_eq, Hin. cbv beta iota.
  assert (HIx : Inv cfg 0 sx).
  { eapply Inv_same_objs; [done| |done].
    pose proof (inv_tokens _ _ _ HI1) as Ht. unfold tokens_ok in *.
    by rewrite Hsx, (so_using _ _ Hso). }
  destruct (_return_spec o sx HIx) as
    (s2 & Hr & HI2 & He2 & Ha2 & Hu2 & Ht2 & Hs2 & Hn2 & Hd2).
  { rewrite (so_using _ _ Hso), Hu1. set_solver. }
  rewrite bind_eq, Hr. mstep.
  pose proof (inv_disjoint _ _ _ HI) as Hdis.
  destruct Hso as [so_avail so_using so_todel so_uses so_nobjs so_ncreated so_ndestroys so_destroyed so_min_size so_shutdown].
  assert (Ha : avail s2 = avail s).
  { rewrite Ha2, so_avail, Ha1. apply set_eq. intros x.
    destruct (decide (x = o)); set_solver. }
  assert (Hu : using_ s2 = using_ s).
  { rewrite Hu2, so_using, Hu1. set_solver. }
  assert (Hs : sem s2 = sem s).
  { rewrite Hs2, Hsx, Hs1. apply sem_inc_dec. }
  assert (He : evolves cfg s s2).
  { eapply evolves_trans; [done|done|].
    eapply evolves_trans; [done|by apply evolves_same|done]. }
  destruct b; mstep.
  - split_and!; fin.
  - rewrite call_eq. destruct (trace_obj cfg o) as [d|e0]; mstep.
    + assert (HI3 : Inv cfg 0 (upd_bad_health (λ n, n + 1)
                       (upd_logged (λ l, l ++ [LogBadHealth d]) s2))).
      { eapply Inv_same_objs; [|apply (inv_tokens _ _ _ HI2)|done]. by split. }
      destruct (retire_avail 0 _ o HI3) as
        (s3 & -> & HI4 & He4 & Hu4 & Ha4 & Ht4 & Hs4 & Hn4 & Hd4 & Hus4).
      { psimpl. rewrite Ha. done. }
      psimpl. split_and!; [done| |fin..].
      apply (evolves_trans 0 s s2 s3); [done|done|].
      refine (evolves_trans 0 s2 _ s3 HI2 _ He4). by apply evolves_same.
    + split_and!; fin.
Qed.

Lemma _health_check_spec s :
  Inv cfg 0 s →
  match _health_check cfg set_iter s with
  | (Blocked, _) => False
  | (_, s') =>
      Inv cfg 0 s' ∧ evolves cfg s s' ∧
      using_ s ⊆ using_ s' ∧ using_ s' ⊆ using_ s ∪ avail s ∧
      destroyed s' = destroyed s ∧
      avail s' ⊆ avail s ∧ nobjs s' ≤ nobjs s ∧ todel s ⊆ todel s'
  end.
Proof.
  intros HI. unfold _health_check.
  destruct (health cfg) as [h|]; mstep.
  2:{ split_and!; fin. }
  set (s0 := upd_hc_rounds (λ n, n + 1) s).
  assert (HI0 : Inv cfg 0 s0).
  { eapply Inv_same_objs; [|apply (inv_tokens _ _ _ HI)|done]. by split. }
  set (Post := λ st : Pool,
      Inv cfg 0 st ∧ evolves cfg s st ∧
      using_ s ⊆ using_ st ∧ using_ st ⊆ using_ s ∪ avail s ∧
      destroyed st = destroyed s ∧
      avail st ⊆ avail s ∧ nobjs st ≤ nobjs s ∧ todel s ⊆ todel st).
  pose proof (for_each_ind (λ _ st, Post st)
    (λ r st, match r with Blocked => False | _ => Post st end)
    (λ obj, health_check_obj cfg h obj ;; ret_ false)) as Hloop.
  lapply Hloop; [clear Hloop; intros Hloop; lapply Hloop; clear Hloop|].
  - intros Hloop. specialize (Hloop (set_iter (avail s0)) s0).
    destruct (for_each _ _ s0) as [r s']. simpl in Hloop. apply Hloop.
    unfold Post, s0. psimpl. split_and!; fin.
  - done.
  - intros x l st (HI' & He & Hu & Hs & Hd & Ha & Hn & Ht).
    rewrite bind_eq. pose proof (health_check_obj_spec h x st HI') as Hh.
    assert (Hstep : ∀ s', Inv cfg 0 s' ∧ evolves cfg st s' ∧
      using_ st ⊆ using_ s' ∧ using_ s' ⊆ using_ st ∪ avail st ∧
      destroyed s' = destroyed st ∧
      avail s' ⊆ avail st ∧ nobjs s' ≤ nobjs st ∧ todel st ⊆ todel s' → Post s').
    { intros s' (? & ? & ? & ? & ? & ? & ? & ?). unfold Post.
      split_and!; [done|by eapply evolves_trans|fin..]. }
    destruct (health_check_obj cfg h x st) as [[[]|e|] s']; mstep; auto.
Qed.

(** *** The sweeps of a housekeeping round *)

Lemma kill_one_spec now o acc s :
  Inv cfg 0 s → o ∈ using_ s →
  ∃ acc' s', kill_one cfg now o acc s = (Done acc', s') ∧
    Inv cfg 0 s' ∧ evolves cfg s s' ∧
    avail s' = avail s ∧ destroyed s' = destroyed s ∧
    ((kill_due cfg now s o ∧ using_ s' = using_ s ∖ {[o]} ∧
      todel s' = {[o]} ∪ todel s ∧ nobjs s' = nobjs s - 1 ∧
      uses s' = delete o (uses s)) ∨
     (¬ kill_due cfg now s o ∧ s' = s)).
Proof.
  intros HI Ho. destruct acc as [[long_run long_kill] long_time].
  assert (Hu : is_Some (uses s !! o)).
  { apply elem_of_dom. rewrite (inv_dom _ _ _ HI). set_solver. }
  destruct Hu as [i Hi].
  unfold kill_one. rewrite bind_eq, uses_of_eq, Hi. cbv beta iota zeta.
  destruct (decide (now - last_get i >= max_using_delay_warn cfg)) as [Hw|Hw];
    cbv beta iota.
  all: unfold truthy; case_bool_decide as Hk; cbn [andb];
    [case_bool_decide as Hd; cbn [andb]|]; mstep.
  all: try (eexists _, s; split; [reflexivity|];
            split_and!; [done|apply evolves_refl|done|done|];
            right; split; [|done];
            intros (Hk' & j & Hj & Hd'); simplify_eq; done).
  all: assert (HI0 : Inv cfg 0 (upd_nkilled (λ n, n + 1) s))
         by (eapply Inv_same_objs; [|apply (inv_tokens _ _ _ HI)|done]; by split).
  all: destruct (retire_using 0 _ o HI0 Ho)
      as (s1 & -> & HI1 & He1 & H1 & H2 & H3 & H4 & H5 & H6 & H7).
  all: mstep;
    destruct (release_if_sem_spec 0 s1 (Z.le_refl 0) HI1)
      as (s2 & -> & Hso & HI2 & Hs2).
  all: mstep; eexists _, s2; split; [reflexivity|]; destruct Hso; psimpl.
  all: split_and!; [done| |congruence|congruence|].
  1,3: apply (evolves_trans 0 s (upd_nkilled (λ n, n + 1) s) s2);
    [done|by apply evolves_same|];
    apply (evolves_trans 0 _ s1 s2); [done|done|by apply evolves_same].
  all: left; split_and!; try congruence; split; [done|eauto].
Qed.

Lemma kill_due_same now s st o :
  uses st !! o = uses s !! o → kill_due cfg now st o ↔ kill_due cfg now s o.
Proof. intros Hu. unfold kill_due. by rewrite Hu. Qed.

Lemma borrow_age_sweep_spec now s :
  Inv cfg 0 s →
  ∃ s', borrow_age_sweep cfg set_iter now s = (Done tt, s') ∧
    Inv cfg 0 s' ∧ evolves cfg s s' ∧
    avail s' = avail s ∧ destroyed s' = destroyed s ∧
    using_ s' ⊆ using_ s ∧ todel s ⊆ todel s' ∧ nobjs s' ≤ nobjs s ∧
    (∀ o, o ∈ using_ s →
       (kill_due cfg now s o → o ∈ todel s' ∧ o ∉ using_ s') ∧
       (¬ kill_due cfg now s o → o ∈ using_ s')).
Proof.
  intros HI. unfold borrow_age_sweep.
  destruct (truthy (max_using_delay_warn cfg)) eqn:Hw; mstep.
  2:{ exists s. split_and!; try fin. intros o Ho. split; [|done].
      intros [Hk _]. unfold truthy, max_using_delay_warn in Hw.
      apply bool_decide_eq_false in Hw.
      destruct (decide (max_using_delay cfg = 0)); [|done].
      exfalso. apply Hk. apply dec_stable. done. }
  set (P := λ (l : list Obj) (_ : Z * Z * Z) (st : Pool),
    Inv cfg 0 st ∧ evolves cfg s st ∧
    avail st = avail s ∧ destroyed st = destroyed s ∧
    NoDup l ∧ (∀ x, x ∈ l → x ∈ using_ st ∧ uses st !! x = uses s !! x) ∧
    using_ st ⊆ using_ s ∧ todel s ⊆ todel st ∧ nobjs st ≤ nobjs s ∧
    (∀ o, o ∈ using_ s → o ∉ l →
       (kill_due cfg now s o → o ∈ todel st ∧ o ∉ using_ st) ∧
       (¬ kill_due cfg now s o → o ∈ using_ st))).
  pose proof (for_fold_ind P
    (λ r st, ∃ acc, r = Done acc ∧ P [] acc st) (kill_one cfg now)) as Hloop.
  lapply Hloop; [clear Hloop; intros Hloop; lapply Hloop; clear Hloop|].
  - intros Hloop. specialize (Hloop (set_iter (using_ s)) (0, 0, 0) s).
    destruct (for_fold _ _ _ s) as [r s']. simpl in Hloop.
    destruct Hloop as (acc & -> & HP).
    { unfold P. split_and!; try fin.
      - apply set_iter_NoDup.
      - intros x Hx. by apply set_iter_elem in Hx.
      - intros o Ho Hno. by apply set_iter_elem in Ho. }
    destruct HP as (HI' & He & Ha & Hd & _ & _ & Hu & Ht & Hn & Hk).
    destruct acc as [[long_run long_kill] long_time]. cbv beta iota.
    assert (Hlog : ∃ s'',
      when (truthy long_run || truthy long_kill)
        (log (LogLongRunning long_run long_time long_kill)) s' = (Done tt, s'') ∧
      same_objs s' s'' ∧ sem s'' = sem s').
    { destruct (truthy long_run || truthy long_kill); unfold when; mstep.
      - eexists. split; [done|]. by split.
      - exists s'. split; [done|]. split; [apply same_objs_refl|done]. }
    destruct Hlog as (s'' & -> & Hso & Hs).
    exists s''. pose proof Hso as [so_avail so_using so_todel so_uses so_nobjs so_ncreated so_ndestroys so_destroyed so_min_size so_shutdown].
    split; [done|].
    split_and!; [ | |congruence|congruence|fin|fin|fin| ].
    + eapply Inv_same_objs; [done| |done].
      pose proof (inv_tokens _ _ _ HI') as Htk. unfold tokens_ok in *.
      by rewrite Hs, so_using.
    + eapply evolves_trans; [done|done|by apply same_objs_evolves].
    + intros o Ho. rewrite so_using, so_todel. apply Hk; [done|]. set_solver.
  - intros acc st HP. eauto.
  - intros x l acc st (HI' & He & Ha & Hd & Hnd & Hl & Hu & Ht & Hn & Hk).
    apply NoDup_cons in Hnd as [Hx Hnd].
    destruct (Hl x) as [Hxu Hxs]; [left|].
    destruct (kill_one_spec now x acc st HI' Hxu)
      as (acc' & s' & -> & HI2 & He2 & Ha2 & Hd2 & Hcase).
    unfold P.
    destruct Hcase as [(Hdue & Hu2 & Ht2 & Hn2 & Hus2)|(Hndue & ->)].
    + split_and!; try congruence; try done.
      * by eapply evolves_trans.
      * intros y Hy. destruct (Hl y) as [Hyu Hys]; [by right|].
        assert (y ≠ x) by (intros ->; done).
        split; [set_solver|]. by rewrite Hus2, lookup_delete_ne.
      * set_solver.
      * set_solver.
      * lia.
      * intros o Ho Hno. destruct (decide (o = x)) as [->|Hne].
        -- split; [intros _; set_solver|].
           intros Hnk. exfalso. apply Hnk. by apply (kill_due_same now s st x).
        -- destruct (Hk o Ho) as [Hk1 Hk2]; [set_solver|].
           split; [intros Hd'; destruct (Hk1 Hd'); set_solver|].
           intros Hd'. specialize (Hk2 Hd'). set_solver.
    + split_and!; try done.
      * intros y Hy. apply Hl. by right.
      * intros o Ho Hno. destruct (decide (o = x)) as [->|Hne].
        -- split; [|done]. intros Hd'. exfalso. apply Hndue.
           by apply (kill_due_same now s st x).
        -- apply Hk; [done|]. set_solver.
Qed.

Lemma recycle_one_spec now o s :
  Inv cfg 0 s → o ∈ avail s →
  ∃ brk s', recycle_one cfg now o s = (Done brk, s') ∧
    Inv cfg 0 s' ∧ evolves cfg s s' ∧
    using_ s' = using_ s ∧ sem s' = sem s ∧ destroyed s' = destroyed s ∧
    ((idle_due cfg now s o ∧ avail s' = avail s ∖ {[o]} ∧
      todel s' = {[o]} ∪ todel s ∧ nobjs s' = nobjs s - 1 ∧
      uses s' = delete o (uses s) ∧
      brk = bool_decide (nobjs s' ≤ min_size s)) ∨
     (¬ idle_due cfg now s o ∧ s' = s ∧ brk = false)).
Proof.
  intros HI Ho.
  assert (Hu : is_Some (uses s !! o)).
  { apply elem_of_dom. rewrite (inv_dom _ _ _ HI). set_solver. }
  destruct Hu as [i Hi].
  unfold recycle_one. rewrite bind_eq, uses_of_eq, Hi. cbv beta iota.
  destruct (decide (now - last_ret i >= max_avail_delay cfg)) as [Hd|Hd]; mstep.
  - assert (HI0 : Inv cfg 0 (upd_nrecycled (λ n, n + 1) s)).
    { eapply Inv_same_objs; [|apply (inv_tokens _ _ _ HI)|done]. by split. }
    destruct (retire_avail 0 _ o HI0 Ho)
      as (s1 & -> & HI1 & He1 & H1 & H2 & H3 & H4 & H5 & H6 & H7).
    mstep. psimpl. eexists _, s1. split; [reflexivity|].
    split_and!; [done| |done..|].
    + apply (evolves_trans 0 s (upd_nrecycled (λ n, n + 1) s) s1);
        [done|by apply evolves_same|done].
    + left. split_and!; try done; [by exists i|].
      f_equal. pose proof (inv_min_size _ _ _ HI1) as Hm1.
      by rewrite Hm1, (inv_min_size _ _ _ HI).
  - exists false, s. split; [done|].
    split_and!; [done|apply evolves_refl|done..|].
    right. split_and!; try done. intros (j & Hj & ?). by simplify_eq.
Qed.

Lemma idle_due_same now s st o :
  uses st !! o = uses s !! o → idle_due cfg now st o ↔ idle_due cfg now s o.
Proof. intros Hu. unfold idle_due. by rewrite Hu. Qed.

Lemma idle_sweep_spec now s :
  Inv cfg 0 s →
  ∃ s', idle_sweep cfg set_iter now s = (Done tt, s') ∧
    Inv cfg 0 s' ∧ evolves cfg s s' ∧
    using_ s' = using_ s ∧ sem s' = sem s ∧ destroyed s' = destroyed s ∧
    avail s' ⊆ avail s ∧ todel s ⊆ todel s' ∧
    Z.min (nobjs s) (min_size s) ≤ nobjs s' ∧ nobjs s' ≤ nobjs s ∧
    (∀ o, o ∈ todel s' → o ∉ todel s → o ∈ avail s ∧ idle_due cfg now s o) ∧
    (max_avail_delay cfg ≠ 0 → min_size s < nobjs s' →
     ∀ o, o ∈ avail s' → ¬ idle_due cfg now s o) ∧
    todel s' = todel s ∪ (avail s ∖ avail s').
Proof.
  intros HI. unfold idle_sweep. mstep.
  destruct (truthy (max_avail_delay cfg)) eqn:Hmad; cbn [andb].
  2:{ mstep. exists s. split_and!; try fin. intros Hne.
      unfold truthy in Hmad. by apply bool_decide_eq_false in Hmad. }
  case_bool_decide as Hgt; mstep.
  2:{ exists s. split_and!; try fin. lia. }
  set (P := λ (l : list Obj) (st : Pool),
    Inv cfg 0 st ∧ evolves cfg s st ∧
    using_ st = using_ s ∧ sem st = sem s ∧ destroyed st = destroyed s ∧
    NoDup l ∧ (∀ x, x ∈ l → x ∈ avail st ∧ uses st !! x = uses s !! x) ∧
    avail st ⊆ avail s ∧ todel s ⊆ todel st ∧
    min_size s < nobjs st ∧ nobjs st ≤ nobjs s ∧
    (∀ o, o ∈ todel st → o ∉ todel s → o ∈ avail s ∧ idle_due cfg now s o) ∧
    (∀ o, o ∈ avail st → o ∉ l → ¬ idle_due cfg now s o) ∧
    todel st = todel s ∪ (avail s ∖ avail st)).
  set (Q := λ (st : Pool),
    Inv cfg 0 st ∧ evolves cfg s st ∧
    using_ st = using_ s ∧ sem st = sem s ∧ destroyed st = destroyed s ∧
    avail st ⊆ avail s ∧ todel s ⊆ todel st ∧
    Z.min (nobjs s) (min_size s) ≤ nobjs st ∧ nobjs st ≤ nobjs s ∧
    (∀ o, o ∈ todel st → o ∉ todel s → o ∈ avail s ∧ idle_due cfg now s o) ∧
    (max_avail_delay cfg ≠ 0 → min_size s < nobjs st →
     ∀ o, o ∈ avail st → ¬ idle_due cfg now s o) ∧
    todel st = todel s ∪ (avail s ∖ avail st)).
  pose proof (for_each_ind P (λ r st, r = Done tt ∧ Q st)
    (recycle_one cfg now)) as Hloop.
  lapply Hloop; [clear Hloop; intros Hloop; lapply Hloop; clear Hloop|].
  - intros Hloop. specialize (Hloop (set_iter (avail s)) s).
    destruct (for_each _ _ s) as [r s']. simpl in Hloop.
    destruct Hloop as (-> & HQ); [|by exists s'].
    unfold P. split_and!; try fin.
    + apply set_iter_NoDup.
    + intros x Hx. by apply set_iter_elem in Hx.
    + lia.
    + intros o Ho Hno. by apply set_iter_elem in Ho.
  - intros st (HI' & He & Hu & Hs & Hd & _ & _ & Ha & Ht & Hn1 & Hn2 & Hk1 & Hk2
               & Hmv).
    split; [done|]. unfold Q. split_and!; try done; [lia|].
    intros _ _ o Ho. apply Hk2; [done|]. set_solver.
  - intros x l st (HI' & He & Hu & Hs & Hd & Hnd & Hl & Ha & Ht & Hn1 & Hn2 & Hk1
                   & Hk2 & Hmv).
    apply NoDup_cons in Hnd as [Hx Hnd].
    destruct (Hl x) as [Hxa Hxs]; [left|].
    destruct (recycle_one_spec now x st HI' Hxa)
      as (brk & s' & -> & HI2 & He2 & Hu2 & Hs2 & Hd2 & Hcase).
    pose proof (inv_min_size _ _ _ HI) as Hms.
    pose proof (inv_min_size _ _ _ HI') as Hms'.
    destruct Hcase as [(Hdue & Ha2 & Ht2 & Hn & Hus2 & ->)|(Hndue & -> & ->)].
    + assert (Hev : evolves cfg s s') by (by eapply evolves_trans).
      assert (Hdue' : idle_due cfg now s x) by (by apply (idle_due_same now s st x)).
      assert (Hdel : ∀ o, o ∈ todel s' → o ∉ todel s →
                          o ∈ avail s ∧ idle_due cfg now s o).
      { intros o Ho Hno. rewrite Ht2 in Ho.
        destruct (decide (o = x)) as [->|Hne].
        - split; [set_solver|done].
        - apply Hk1; [set_solver|done]. }
      assert (Hmv' : todel s' = todel s ∪ (avail s ∖ avail s')).
      { rewrite Ht2, Ha2, Hmv. apply set_eq. intros y.
        destruct (decide (y = x)) as [->|]; set_solver. }
      case_bool_decide as Hbrk.
      * split; [done|]. unfold Q. split_and!; try congruence; try fin.
        lia.
      * unfold P. split_and!; try congruence; try fin.
        -- intros y Hy. destruct (Hl y) as [Hya Hys]; [by right|].
           assert (y ≠ x) by (intros ->; done).
           split; [set_solver|]. by rewrite Hus2, lookup_delete_ne.
        -- lia.
        -- intros o Ho Hno. apply Hk2; [set_solver|].
           rewrite Ha2 in Ho. set_solver.
    + unfold P. split_and!; try done.
      * intros y Hy. apply Hl. by right.
      * intros o Ho Hno. destruct (decide (o = x)) as [->|Hne].
        -- intros Hd'. apply Hndue. by apply (idle_due_same now s st x).
        -- apply Hk2; [done|]. set_solver.
Qed.

Lemma _hkRound_spec now s :
  Inv cfg 0 s →
  ∃ s', _hkRound cfg set_iter now s = (Done tt, s') ∧
    Inv cfg 0 s' ∧ evolves cfg s s' ∧ destroyed s' = destroyed s ∧
    avail s' ⊆ avail s ∧ using_ s' ⊆ using_ s ∧ todel s ⊆ todel s' ∧
    nobjs s' ≤ nobjs s ∧
    (∀ o, o ∈ using_ s →
       (kill_due cfg now s o → o ∈ todel s' ∧ o ∉ using_ s' ∧ o ∉ avail s') ∧
       (¬ kill_due cfg now s o → o ∈ using_ s')).
Proof.
  intros HI. unfold _hkRound. mstep.
  assert (HI0 : Inv cfg 0 (upd_hk_rounds (λ n, n + 1) s)).
  { eapply Inv_same_objs; [|apply (inv_tokens _ _ _ HI)|done]. by split. }
  destruct (borrow_age_sweep_spec now _ HI0)
    as (s1 & -> & HI1 & He1 & Ha1 & Hd1 & Hu1 & Ht1 & Hn1 & Hk1).
  mstep. psimpl.
  destruct (idle_sweep_spec now s1 HI1)
    as (s2 & -> & HI2 & He2 & Hu2 & Hs2 & Hd2 & Ha2 & Ht2 & _ & Hn2 & _).
  exists s2. split; [done|].
  split_and!; [done| |congruence|fin|fin|fin|fin|].
  - apply (evolves_trans 0 s (upd_hk_rounds (λ n, n + 1) s) s2);
      [done|by apply evolves_same|].
    by apply (evolves_trans 0 _ s1 s2).
  - intros o Ho. destruct (Hk1 o Ho) as [Hkd Hkn]. split.
    + intros Hdue. destruct (Hkd Hdue) as [Hot Hou].
      pose proof (inv_todel _ _ _ HI2). split_and!; set_solver.
    + intros Hndue. rewrite Hu2. by apply Hkn.
Qed.

Lemma Bound_step s s' :
  Inv cfg 0 s' → Bound cfg s →
  nobjs s' ≤ Z.max (nobjs s) (min_size0 cfg) ∨ avail s' = ∅ →
  Bound cfg s'.
Proof.
  intros HI HB [Hn|Ha] Hmax.
  - specialize (HB Hmax). lia.
  - pose proof (inv_tokens _ _ _ HI) as Ht. unfold tokens_ok in Ht.
    destruct (sem s') as [m|]; [|done].
    rewrite (inv_nobjs _ _ _ HI), Ha, size_empty. lia.
Qed.

Lemma _houseKeeping_spec now s :
  Inv cfg 0 s →
  match _houseKeeping cfg set_iter now s with
  | (Blocked, _) => False
  | (_, s') =>
      Inv cfg 0 s' ∧ evolves cfg s s' ∧ using_ s' ⊆ using_ s ∪ avail s ∧
      nobjs s' ≤ Z.max (nobjs s) (min_size0 cfg)
  end.
Proof.
  intros HI. unfold _houseKeeping. rewrite bind_eq, try_except_eq.
  destruct (_hkRound_spec now s HI)
    as (s1 & -> & HI1 & He1 & Hd1 & Ha1 & Hu1 & Ht1 & Hn1 & _).
  mstep.
  assert (Hhc : match
      match health cfg with
      | Some _ =>
          if decide (health_freq cfg = 0) then raise ZeroDivisionError
          else when (bool_decide (hk_rounds s1 `mod` health_freq cfg = 0))
                 (_health_check cfg set_iter)
      | None => ret_ tt
      end s1 with
    | (Blocked, _) => False
    | (_, s') =>
        Inv cfg 0 s' ∧ evolves cfg s1 s' ∧ using_ s' ⊆ using_ s1 ∪ avail s1 ∧
        nobjs s' ≤ nobjs s1
    end).
  { destruct (health cfg) as [h|]; mstep.
    2:{ split_and!; fin. }
    destruct (decide (health_freq cfg = 0)); mstep.
    { split_and!; fin. }
    case_bool_decide; unfold when; mstep.
    2:{ split_and!; fin. }
    pose proof (_health_check_spec s1 HI1) as Hh.
    destruct (_health_check cfg set_iter s1) as [[[]|e|] s2]; [| |done].
    all: destruct Hh as (? & ? & ? & ? & ? & ? & ? & ?); split_and!; fin. }
  match type of Hhc with
  | match ?m s1 with _ => _ end => destruct (m s1) as [[[]|e|] s2]
  end; [| |done]; cbv beta iota.
  2:{ destruct Hhc as (HI2 & He2 & Hu2 & Hn2).
      split_and!; [done|by eapply evolves_trans|set_solver|lia]. }
  destruct Hhc as (HI2 & He2 & Hu2 & Hn2).
  mstep.
  destruct (_empty_spec 0 s2 HI2)
    as (s3 & -> & HI3 & He3 & Ht3 & Ha3 & Hu3 & Hs3 & Hn3 & Hus3 & Hdd3).
  mstep.
  destruct (_fill_spec now s3 HI3) as (s4 & -> & HI4 & He4 & Hg4 & Hn4).
  destruct Hg4 as [gr_using gr_todel gr_sem gr_destroyed gr_avail gr_nobjs].
  split_and!; [done| |set_solver|lia].
  apply (evolves_trans 0 s s1 s4); [done|done|].
  apply (evolves_trans 0 s1 s2 s4); [done|done|].
  by apply (evolves_trans 0 s2 s3 s4).
Qed.

(** *** Every operation keeps the invariant *)

Lemma exec_spec o now s :
  Inv cfg 0 s →
  Inv cfg 0 (step cfg set_iter set_pop s (o, now)) ∧
  evolves cfg s (step cfg set_iter set_pop s (o, now)) ∧
  (Bound cfg s → Bound cfg (step cfg set_iter set_pop s (o, now))).
Proof.
  intros HI. unfold step. cbn [fst snd].
  destruct o as [t|obj| | | | |]; cbn [exec].
  - (* Get *)
    rewrite bind_eq. pose proof (get_spec t now s HI) as Hg.
    destruct (get cfg set_pop t now s) as [[o|e|] s']; mstep; cbn [snd].
    + destruct Hg as (HI' & He & _ & _ & _ & _ & _ & Hn & _).
      split_and!; [done|done|]. intros HB. eapply Bound_step; [done|done|].
      destruct Hn as [->|?]; [left; lia|by right].
    + destruct Hg as (HI' & He & _ & _ & _ & Hn & _).
      split_and!; [done|done|]. intros HB. eapply Bound_step; [done|done|].
      left. lia.
    + destruct Hg as (-> & _). split_and!; [done|apply evolves_refl|done].
  - (* Ret *)
    destruct (decide (obj ∈ using_ s)) as [Ho|Ho].
    + destruct (ret_spec obj now s HI Ho) as (s' & -> & HI' & He & _ & _ & _ & Hn & _).
      cbn [snd]. split_and!; [done|done|]. intros HB.
      eapply Bound_step; [done|done|by left].
    + destruct (ret_not_using obj now s Ho) as (l & ->). cbn [snd].
      split_and!; [by apply Inv_logged|by apply evolves_same|].
      intros HB Hmax. specialize (HB Hmax). by psimpl.
  - (* HkRound *)
    destruct (_hkRound_spec now s HI) as (s' & -> & HI' & He & _ & _ & _ & _ & Hn & _).
    cbn [snd]. split_and!; [done|done|]. intros HB.
    eapply Bound_step; [done|done|left; lia].
  - (* HealthCheck *)
    pose proof (_health_check_spec s HI) as Hh.
    destruct (_health_check cfg set_iter s) as [[[]|e|] s']; [| |done]; cbn [snd].
    all: destruct Hh as (HI' & He & _ & _ & _ & _ & Hn & _).
    all: split_and!; [done|done|]; intros HB.
    all: eapply Bound_step; [done|done|left; lia].
  - (* Empty *)
    destruct (_empty_spec 0 s HI) as (s' & -> & HI' & He & _ & _ & _ & _ & Hn & _).
    cbn [snd]. split_and!; [done|done|]. intros HB.
    eapply Bound_step; [done|done|left; lia].
  - (* Fill *)
    destruct (_fill_spec now s HI) as (s' & -> & HI' & He & _ & Hn).
    cbn [snd]. split_and!; [done|done|]. intros HB.
    eapply Bound_step; [done|done|by left].
  - (* HouseKeeping *)
    pose proof (_houseKeeping_spec now s HI) as Hh.
    destruct (_houseKeeping cfg set_iter now s) as [[[]|e|] s']; [| |done]; cbn [snd].
    all: destruct Hh as (HI' & He & _ & Hn).
    all: split_and!; [done|done|]; intros HB.
    all: eapply Bound_step; [done|done|by left].
Qed.

Lemma run_spec ops s :
  Inv cfg 0 s →
  Inv cfg 0 (run cfg set_iter set_pop ops s) ∧
  evolves cfg s (run cfg set_iter set_pop ops s) ∧
  (Bound cfg s → Bound cfg (run cfg set_iter set_pop ops s)).
Proof.
  revert s. induction ops as [|[o now] ops IH]; intros s HI.
  - split_and!; [done|apply evolves_refl|done].
  - destruct (exec_spec o now s HI) as (HI1 & He1 & HB1).
    destruct (IH _ HI1) as (HI2 & He2 & HB2).
    unfold run in *. cbn [foldl]. split_and!; [done| |by auto].
    by eapply evolves_trans.
Qed.

Lemma new_pool_Inv sm :
  match sm with
  | Some m => sem_value m = max_size cfg ∧ sem_initial m = max_size cfg ∧
              0 < max_size cfg
  | None => max_size cfg = 0
  end →
  Inv cfg 0 (new_pool cfg sm).
Proof.
  intros Hsm. split; unfold new_pool; psimpl; try done.
  unfold tokens_ok. psimpl. destruct sm as [m|]; [|done].
  rewrite size_empty. lia.
Qed.

Lemma Pool_init_spec now :
  (Pool_init cfg now).1 = Done tt →
  Inv cfg 0 (Pool_init cfg now).2 ∧ Bound cfg (Pool_init cfg now).2.
Proof.
  assert (Hfirst : ∀ s0, Inv cfg 0 s0 → nobjs s0 = 0 →
    ∃ s', first_fill cfg now s0 = (Done tt, s') ∧ Inv cfg 0 s' ∧
          nobjs s' ≤ Z.max 0 (min_size0 cfg)).
  { intros s0 HI0 Hn0. unfold first_fill. destruct (skip_thread cfg).
    - exists s0. mstep. split_and!; [done|done|lia].
    - destruct (_fill_spec now _ HI0) as (s' & -> & HI' & _ & _ & Hn).
      exists s'. split_and!; [done|done|lia]. }
  unfold Pool_init, truthy. case_bool_decide as Hmax.
  - destruct (decide (max_size cfg < 0)) as [Hneg|Hpos]; [done|]. intros _.
    assert (HI : Inv cfg 0
      (new_pool cfg (Some (mkSemaphore (max_size cfg) (max_size cfg))))).
    { apply new_pool_Inv. cbn. lia. }
    destruct (Hfirst _ HI eq_refl) as (s' & -> & HI' & Hn).
    cbn [snd]. split; [done|]. intros _. lia.
  - intros _.
    assert (HI : Inv cfg 0 (new_pool cfg None)) by (by apply new_pool_Inv).
    destruct (Hfirst _ HI eq_refl) as (s' & -> & HI' & Hn).
    cbn [snd]. split; [done|]. by intros [].
Qed.

Lemma reachable_Inv s :
  reachable cfg set_iter set_pop s → Inv cfg 0 s ∧ Bound cfg s.
Proof.
  intros (now0 & ops & Hinit & ->).
  destruct (Pool_init_spec now0 Hinit) as [HI HB].
  destruct (run_spec ops _ HI) as (HI' & _ & HB'). auto.
Qed.

(** *** Failures of user code *)

(** A failure of the factory leaves [get] as it was raised. *)
Lemma get_creation_fails t now s e :
  Inv cfg 0 s → avail s = ∅ →
  (∀ m, sem s = Some m → sem_value m ≠ 0) →
  fun_ cfg (ncreated s) (ncreating s + 1) = Raises e →
  (get cfg set_pop t now s).1 = Raised e.
Proof.
  intros HI Ha Hfree Hf.
  assert (Hnew : ∀ s1, ncreated s1 = ncreated s → ncreating s1 = ncreating s →
    ∃ s2, _new cfg now s1 = (Raised e, s2) ∧ sem s2 = sem s1 ∧
          upd_sem (λ _, sem s1) s2 = s2).
  { intros s1 H1 H2. unfold _new, _create. mstep. psimpl. rewrite H1, H2, Hf.
    mstep. eexists. split; [done|]. split; [done|]. by destruct s1. }
  unfold get. mstep. rewrite (inv_alive _ _ _ HI). mstep.
  destruct (sem s) as [m|] eqn:Hm; mstep.
  - pose proof (sem_acquire_spec 0 (py_or t (timeout_ cfg)) s HI) as Has.
    rewrite Hm in Has. specialize (Has (ltac:(eauto))).
    unfold sem_acquire in *. rewrite Hm in *.
    destruct (decide (sem_value m = 0)) as [Hv|Hv]; [by apply Hfree in Hv|].
    mstep. destruct Has as (Hso & HI1 & Hs1).
    unfold get_locked. mstep. psimpl. rewrite Ha.
    destruct (decide (∅ = ∅)) as [_|?]; [|done]. mstep.
    pose proof (_new_spec _ now _ HI1) as Hn.
    destruct (Hnew (upd_sem (λ _, Some (mkSemaphore (sem_value m - 1)
                                (sem_initial m))) s)) as (s2 & Hn2 & _);
      [done|done|].
    rewrite Hn2 in *. mstep. destruct Hn as (HI2 & _).
    assert (HI2' : Inv cfg (0 + 1)
               (upd_logged (λ l, l ++ [LogObjectCreationFailed e]) s2))
      by (by apply Inv_logged).
    destruct (release_if_sem_spec 0 _ (Z.le_refl 0) HI2') as (s3 & -> & _).
    by mstep.
  - unfold get_locked. mstep. rewrite Ha.
    destruct (decide (∅ = ∅)) as [_|?]; [|done]. mstep.
    destruct (Hnew s) as (s2 & -> & Hs2 & _); [done|done|]. mstep.
    rewrite release_if_sem_None by (psimpl; by rewrite Hs2, Hm). by mstep.
Qed.

(** [stats] hands on the exception of the hook which describes objects. *)
Lemma stats_data_raises f o now s e :
  describe cfg = Some f → f o = Raises e →
  __stats_data cfg o now s = (Raised e, s).
Proof.
  unfold describe, __stats_data. intros Hd Hf.
  destruct (stats_hook cfg) as [g|]; [|destruct (tracer cfg) as [g|]];
    simplify_eq; mstep; rewrite call_eq, Hf; by mstep.
Qed.

Lemma stats_data_plain o now s :
  describe cfg = None → ∃ d, __stats_data cfg o now s = (Done d, s).
Proof.
  unfold describe, __stats_data. intros Hd.
  destruct (stats_hook cfg) as [g|]; [done|]. rewrite Hd. mstep. psimpl.
  destruct (uses s !! o); mstep; eauto.
Qed.

Lemma for_map_plain (l : list Obj) now s :
  describe cfg = None →
  ∃ ds, for_map l (λ o, __stats_data cfg o now) s = (Done ds, s) ∧
        length ds = length l.
Proof.
  intros Hd. induction l as [|o l (ds & IH & Hlen)]; cbn [for_map]; mstep.
  - by exists [].
  - destruct (stats_data_plain o now s Hd) as [d ->]. mstep.
    rewrite IH. mstep. exists (d :: ds). split; [done|]. cbn. by rewrite Hlen.
Qed.

Lemma set_iter_empty : set_iter ∅ = [].
Proof.
  apply Permutation_nil_r. by rewrite set_iter_perm, elements_empty.
Qed.

Lemma set_iter_nonempty X : X ≠ ∅ → ∃ o l, set_iter X = o :: l.
Proof.
  intros HX. destruct (set_iter X) as [|o l] eqn:E; [|eauto].
  exfalso. apply HX. apply set_eq. intros x. rewrite <- set_iter_elem, E.
  set_solver.
Qed.

Lemma stats_raises f now s e :
  describe cfg = Some f → (∀ o, f o = Raises e) →
  avail s ∪ using_ s ≠ ∅ →
  stats cfg set_iter now s = (Raised e, s).
Proof.
  intros Hd Hf Hne. unfold stats. mstep. cbn [id].
  destruct (decide (avail s = ∅)) as [Ha|Ha].
  - rewrite Ha, set_iter_empty. cbn [for_map]. mstep.
    destruct (set_iter_nonempty (using_ s)) as (o & l & ->); [set_solver|].
    cbn [for_map]. mstep. rewrite (stats_data_raises f o now s e) by done.
    by mstep.
  - destruct (set_iter_nonempty (avail s) Ha) as (o & l & ->).
    cbn [for_map]. mstep. rewrite (stats_data_raises f o now s e) by done.
    by mstep.
Qed.

Lemma stats_plain now s :
  describe cfg = None →
  ∃ snap, stats cfg set_iter now s = (Done snap, s) ∧
    st_navail snap = size (avail s) ∧ st_nusing snap = size (using_ s) ∧
    st_ntodel snap = size (todel s) ∧ st_nobjs snap = nobjs s ∧
    length (st_avail snap) = size (avail s) ∧
    length (st_using snap) = size (using_ s).
Proof.
  intros Hd. unfold stats. mstep. cbn [id].
  destruct (for_map_plain (set_iter (avail s)) now s Hd) as (da & -> & Hla).
  mstep.
  destruct (for_map_plain (set_iter (using_ s)) now s Hd) as (du & -> & Hlu).
  mstep. eexists. split; [done|]. cbn.
  by rewrite Hla, Hlu, !set_iter_length.
Qed.


(** * The claims *)

Lemma Inv_conserved k s : Inv cfg k s → conserved s.
Proof.
  intros [H1 H2 H3 H4 H5 H6 H7 H8 H9 H10]. unfold conserved.
  split_and!; [done|done|lia|lia|done].
Qed.

(** X21: in a pool constructed with [max_size > 0], between the
    operations of any serial run of [get], [ret] and housekeeping phases,
    the free tokens of the gate plus the objects in use make up [max_size],
    hence at most [max_size] objects are in use; the live objects
    (available or in use) number at most [max (max_size, min_size)], and at
    most [max_size] when [min_size <= max_size]. *)
Theorem capacity_gate_serial s :
  reachable cfg set_iter set_pop s → 0 < max_size cfg →
  (∃ m, sem s = Some m ∧ 0 ≤ sem_value m ∧
        sem_value m + Z.of_nat (size (using_ s)) = max_size cfg) ∧
  Z.of_nat (size (using_ s)) ≤ max_size cfg ∧
  Z.of_nat (size (avail s)) + Z.of_nat (size (using_ s))
    ≤ Z.max (max_size cfg) (min_size0 cfg) ∧
  (min_size0 cfg ≤ max_size cfg →
   Z.of_nat (size (avail s)) + Z.of_nat (size (using_ s)) ≤ max_size cfg).
Proof.
  intros Hr Hmax. destruct (reachable_Inv s Hr) as [HI HB].
  pose proof (inv_tokens _ _ _ HI) as Ht. unfold tokens_ok in Ht.
  pose proof (inv_nobjs _ _ _ HI) as Hn.
  assert (Hne : max_size cfg ≠ 0) by lia. specialize (HB Hne).
  destruct (sem s) as [m|]; [|lia].
  split_and!; [exists m; split_and!; [done|lia|lia]|lia|lia|lia].
Qed.

(** C3 (amended): the idle sweep moves available objects which have been
    idle for [max_avail_delay] or longer to the objects pending destruction,
    and does nothing else: the objects pending destruction afterwards are
    those pending before and the objects which left the available set, each
    of which was idle for that long.  The sweep stops as soon as the number
    of live objects (available and in use together) is down to [min_size],
    so it never takes the live count below [min_size]; while the live count
    stays above [min_size], no available object idle for that long is
    left. *)
Theorem C3_idle_sweep_floor now s :
  reachable cfg set_iter set_pop s →
  ∃ s', idle_sweep cfg set_iter now s = (Done tt, s') ∧
    using_ s' = using_ s ∧ avail s' ⊆ avail s ∧
    todel s' = todel s ∪ (avail s ∖ avail s') ∧
    (∀ o, o ∈ avail s → o ∉ avail s' →
          o ∈ todel s' ∧ idle_due cfg now s o) ∧
    (∀ o, o ∈ todel s' → o ∉ todel s →
          o ∈ avail s ∧ o ∉ avail s' ∧ idle_due cfg now s o) ∧
    Z.min (Z.of_nat (size (avail s)) + Z.of_nat (size (using_ s)))
          (min_size0 cfg)
      ≤ Z.of_nat (size (avail s')) + Z.of_nat (size (using_ s')) ∧
    (max_avail_delay cfg ≠ 0 →
     min_size0 cfg < Z.of_nat (size (avail s')) + Z.of_nat (size (using_ s')) →
     ∀ o, o ∈ avail s' → ¬ idle_due cfg now s o).
Proof.
  intros Hr. destruct (reachable_Inv s Hr) as [HI _].
  destruct (idle_sweep_spec now s HI)
    as (s' & -> & HI' & He & Hu & Hs & Hd & Ha & Ht & Hmin & Hle & Hdel & Hall
        & Hmv).
  exists s'. split; [done|].
  rewrite <- (inv_nobjs _ _ _ HI), <- (inv_nobjs _ _ _ HI'),
    <- (inv_min_size _ _ _ HI).
  split_and!; try done.
  - intros o Ho Hno.
    assert (Hot : o ∈ todel s') by (rewrite Hmv; set_solver).
    split; [done|]. apply Hdel; [done|].
    pose proof (inv_todel _ _ _ HI). set_solver.
  - intros o Ho Hno. destruct (Hdel o Ho Hno) as [Hoa Hidle].
    pose proof (inv_todel _ _ _ HI'). split_and!; [done|set_solver|done].
Qed.


(** C5 (amended): [ret] of an object which is not in use (a double release)
    returns normally and changes nothing but the log: the sets, the counters
    and the gate stay as they are, no token is released.  [ret] of an object
    in use takes it out of the in-use set and releases exactly one token. *)
Theorem C5_release_token o now s :
  reachable cfg set_iter set_pop s →
  (o ∉ using_ s →
   ∃ l, ret cfg set_iter o now s = (Done tt, upd_logged (λ l0, l0 ++ l) s)) ∧
  (o ∈ using_ s →
   ∃ s', ret cfg set_iter o now s = (Done tt, s') ∧
         using_ s' = using_ s ∖ {[o]} ∧ sem s' = sem_inc (sem s)).
Proof.
  intros Hr. destruct (reachable_Inv s Hr) as [HI _]. split.
  - intros Ho. by apply ret_not_using.
  - intros Ho.
    destruct (ret_spec o now s HI Ho) as (s' & -> & _ & _ & Hu & Hs & _).
    by exists s'.
Qed.

(** C6 (amended): an exception of the opener, getter, retter or closer hook
    is caught where the hook is called: the call completes, the exception
    is logged and nothing but the log changes.  So [ret] and the sweep,
    drain and refill phases always complete, and [get] raises nothing but
    [TimeOut] or the exception of the factory, which it hands on to its
    caller.  The hook describing objects is called unprotected: [stats]
    raises what that hook raises. *)
Theorem C6_hook_isolation s :
  reachable cfg set_iter set_pop s →
  (∀ hook report o s0,
     ∃ l, run_hook hook report o s0 = (Done tt, upd_logged (λ l0, l0 ++ l) s0) ∧
          ∀ h e, hook = Some h → h o = Raises e → l = [report e]) ∧
  (∀ o now, (ret cfg set_iter o now s).1 = Done tt) ∧
  (∀ now, (_hkRound cfg set_iter now s).1 = Done tt ∧
          (_empty cfg set_iter s).1 = Done tt ∧
          (_fill cfg now s).1 = Done tt) ∧
  (∀ t now e s', get cfg set_pop t now s = (Raised e, s') →
     e = TimeOut ∨ ∃ k, fun_ cfg (ncreated s) k = Raises e) ∧
  (∀ t now e, avail s = ∅ → (∀ m, sem s = Some m → sem_value m ≠ 0) →
     fun_ cfg (ncreated s) (ncreating s + 1) = Raises e →
     (get cfg set_pop t now s).1 = Raised e) ∧
  (∀ f now e, describe cfg = Some f → (∀ o, f o = Raises e) →
     avail s ∪ using_ s ≠ ∅ → stats cfg set_iter now s = (Raised e, s)).
Proof.
  intros Hr. destruct (reachable_Inv s Hr) as [HI _]. split_and!.
  - intros hook report o s0. unfold run_hook.
    destruct hook as [h|]; [destruct (h o) as [[]|e] eqn:Hh|].
    + exists []. split; [|intros h0 e0 ? ?; simplify_eq; congruence].
      unfold ret_. f_equal. unfold upd_logged. destruct s0; cbn.
      by rewrite app_nil_r.
    + exists [report e]. split; [done|].
      intros h0 e0 ? ?; simplify_eq; congruence.
    + exists []. split; [|by intros h0 e0 ? ?].
      unfold ret_. f_equal. unfold upd_logged. destruct s0; cbn.
      by rewrite app_nil_r.
  - intros o now. destruct (decide (o ∈ using_ s)) as [Ho|Ho].
    + by destruct (ret_spec o now s HI Ho) as (s' & -> & _).
    + by destruct (ret_not_using o now s Ho) as (l & ->).
  - intros now. split_and!.
    + by destruct (_hkRound_spec now s HI) as (s' & -> & _).
    + by destruct (_empty_spec 0 s HI) as (s' & -> & _).
    + by destruct (_fill_spec now s HI) as (s' & -> & _).
  - intros t now e s' Hg. pose proof (get_spec t now s HI) as Hs.
    rewrite Hg in Hs. destruct Hs as (_ & _ & _ & _ & _ & _ & _ & _ & Hc).
    destruct Hc as [(-> & _)|(_ & Hf)]; [by left|by right].
  - intros t now e Ha Hfree Hf. by apply get_creation_fails.
  - intros f now e Hd Hf Hne. by eapply stats_raises.
Qed.

Lemma dead_stays_out ops s o :
  Inv cfg 0 s → born cfg s o → o ∉ dom (uses s) →
  o ∉ avail (run cfg set_iter set_pop ops s) ∧
  o ∉ using_ (run cfg set_iter set_pop ops s).
Proof.
  intros HI Hb Ho. destruct (run_spec ops s HI) as (HI' & He & _).
  pose proof (ev_dead _ _ _ He o Hb Ho) as Hd.
  rewrite (inv_dom _ _ _ HI') in Hd. set_solver.
Qed.

(** C7: with [max_use > 0], no operation lowers the use count of an object
    of the pool, every successful [get] raises the count of the object it
    returns by one, and the [ret] of an object whose count has reached
    [max_use] destroys it: the object is handed to [_destroy], and it is
    neither available nor in use then or after any later run. *)
Theorem C7_wear_out s :
  reachable cfg set_iter set_pop s → 0 < max_use cfg →
  (∀ o now obj i i',
     uses s !! obj = Some i →
     uses (step cfg set_iter set_pop s (o, now)) !! obj = Some i' →
     uses_count i ≤ uses_count i') ∧
  (∀ t now obj s',
     get cfg set_pop t now s = (Done obj, s') →
     ∃ i', uses s' !! obj = Some i' ∧
           uses_count i' = from_option uses_count 0 (uses s !! obj) + 1) ∧
  (∀ obj now i,
     obj ∈ using_ s → uses s !! obj = Some i → max_use cfg ≤ uses_count i →
     ∃ s', ret cfg set_iter obj now s = (Done tt, s') ∧
           obj ∈ destroyed s' ∧ obj ∉ todel s' ∧
           ∀ ops, obj ∉ avail (run cfg set_iter set_pop ops s') ∧
                  obj ∉ using_ (run cfg set_iter set_pop ops s')).
Proof.
  intros Hr Hmu. destruct (reachable_Inv s Hr) as [HI _]. split_and!.
  - intros o now obj i i' Hi Hi'.
    destruct (exec_spec o now s HI) as (_ & He & _).
    by apply (ev_uses _ _ _ He obj).
  - intros t now obj s' Hg. pose proof (get_spec t now s HI) as Hs.
    rewrite Hg in Hs.
    destruct Hs as (_ & _ & _ & _ & _ & _ & _ & _ & i' & Hi' & _ & Hc).
    by exists i'.
  - intros obj now i Ho Hi Hw.
    destruct (ret_spec obj now s HI Ho)
      as (s' & -> & HI' & He & _ & _ & Ht & _ & _ & Hworn & _).
    destruct Hworn as (Hd & Ha & Hu).
    { split; [lia|]. by exists i. }
    exists s'. split_and!; [done|done|rewrite Ht; set_solver|].
    intros ops. apply dead_stays_out; [done| |done].
    eapply born_mono; [apply (ev_ncreated _ _ _ He)|].
    apply (inv_born _ _ _ HI). set_solver.
Qed.

(** C8: when an object in use has been held longer than
    [max_using_delay_kill], the housekeeping round moves it to the objects
    pending destruction although it was never released, and frees its
    token; the accounting of objects and tokens stays exact.  Whenever its
    borrower releases it afterwards, [ret] returns normally and changes
    nothing but the log. *)
Theorem C8_forced_reclaim now s obj i :
  reachable cfg set_iter set_pop s →
  obj ∈ using_ s → uses s !! obj = Some i →
  0 < max_using_delay_kill cfg →
  max_using_delay_kill cfg < now - last_get i →
  ∃ s1, _hkRound cfg set_iter now s = (Done tt, s1) ∧
    obj ∈ todel s1 ∧ obj ∉ using_ s1 ∧ obj ∉ avail s1 ∧
    conserved s1 ∧ tokens_ok cfg 0 s1 ∧
    (∀ m m1, sem s = Some m → sem s1 = Some m1 →
       sem_value m < sem_value m1 ∧
       sem_value m1 - sem_value m
         = Z.of_nat (size (using_ s)) - Z.of_nat (size (using_ s1))) ∧
    ∀ ops now',
      ∃ l, ret cfg set_iter obj now' (run cfg set_iter set_pop ops s1) =
           (Done tt, upd_logged (λ l0, l0 ++ l)
                       (run cfg set_iter set_pop ops s1)).
Proof.
  intros Hr Ho Hi Hk Hheld. destruct (reachable_Inv s Hr) as [HI _].
  destruct (_hkRound_spec now s HI)
    as (s1 & -> & HI1 & He1 & Hd1 & Ha1 & Hu1 & Ht1 & Hn1 & Hkill).
  destruct (Hkill obj Ho) as [Hdue _].
  destruct Hdue as (Hot & Hou & Hoa).
  { split; [lia|]. exists i. split; [done|lia]. }
  exists s1. split_and!; try done.
  - by eapply Inv_conserved.
  - apply (inv_tokens _ _ _ HI1).
  - intros m m1 Hm Hm1.
    pose proof (inv_tokens _ _ _ HI) as T. pose proof (inv_tokens _ _ _ HI1) as T1.
    unfold tokens_ok in *. rewrite Hm in T. rewrite Hm1 in T1.
    assert (Hsz : Z.of_nat (size (using_ s1)) ≤ Z.of_nat (size (using_ s)) - 1).
    { rewrite <- (size_remove obj) by done.
      apply inj_le, subseteq_size. set_solver. }
    lia.
  - intros ops now'. apply ret_not_using.
    apply dead_stays_out; [done| |].
    + eapply born_mono; [apply (ev_ncreated _ _ _ He1)|].
      apply (inv_born _ _ _ HI). set_solver.
    + rewrite (inv_dom _ _ _ HI1). set_solver.
Qed.


(** C10: a pool constructed with [max_size = 0] has no gate; whatever the
    timeout argument and the configured timeout, [get] does not wait and
    does not raise [TimeOut] (the factory not raising it itself), and its
    result does not depend on the timeout. *)
Theorem C10_unbounded_no_timeout t now s :
  reachable cfg set_iter set_pop s → max_size cfg = 0 →
  (∀ n k, fun_ cfg n k ≠ Raises TimeOut) →
  sem s = None ∧
  (get cfg set_pop t now s).1 ≠ Raised TimeOut ∧
  (get cfg set_pop t now s).1 ≠ Blocked ∧
  get cfg set_pop t now s = get cfg set_pop None now s.
Proof.
  intros Hr Hmax Hfun. destruct (reachable_Inv s Hr) as [HI _].
  assert (Hsem : sem s = None).
  { pose proof (inv_tokens _ _ _ HI) as T. unfold tokens_ok in T.
    destruct (sem s) as [m|]; [lia|done]. }
  pose proof (get_spec t now s HI) as Hg.
  split_and!; [done| | |].
  - intros Hto. destruct (get cfg set_pop t now s) as [r s'].
    cbn in Hto. subst r.
    destruct Hg as (_ & _ & _ & _ & _ & _ & _ & _ & Hc).
    destruct Hc as [(_ & _ & m & Hm & _)|(_ & k & Hk)]; [congruence|].
    by apply Hfun in Hk.
  - intros Hb. destruct (get cfg set_pop t now s) as [r s'].
    cbn in Hb. subst r. destruct Hg as (_ & _ & [m Hm]). congruence.
  - unfold get. mstep. destruct (shutdown_ s); [done|]. mstep.
    by rewrite Hsem.
Qed.

(** * Further properties of the pool *)

(** A [get] followed by the [ret] of its object restores the gate and the
    objects in use. *)
Lemma get_ret_restores t now now' s o s1 :
  Inv cfg 0 s → get cfg set_pop t now s = (Done o, s1) →
  ∃ s2, ret cfg set_iter o now' s1 = (Done tt, s2) ∧ Inv cfg 0 s2 ∧
        sem s2 = sem s ∧ using_ s2 = using_ s ∧ todel s2 = ∅.
Proof.
  intros HI Hg.
  pose proof (get_spec t now s HI) as Hs. rewrite Hg in Hs.
  destruct Hs as (HI1 & _ & Ho & Hu & _ & Hsem & _).
  destruct (ret_spec o now' s1 HI1)
    as (s2 & -> & HI2 & _ & Hu2 & Hs2 & Ht2 & _).
  { rewrite Hu. set_solver. }
  exists s2. split_and!; [done|done| |set_solver|done].
  rewrite Hs2, Hsem. apply sem_inc_dec.
Qed.

(** X1: a [get] followed by the [ret] of the object it returned gives the
    token back and leaves the same objects in use as before the [get]; no
    object is left pending destruction.  So does the context manager [obj]
    around a body which returns normally. *)
Theorem get_ret_round_trip t now now' s o s1 :
  reachable cfg set_iter set_pop s →
  get cfg set_pop t now s = (Done o, s1) →
  ∃ s2, ret cfg set_iter o now' s1 = (Done tt, s2) ∧
        sem s2 = sem s ∧ using_ s2 = using_ s ∧ todel s2 = ∅ ∧
        ∀ A (body : Obj → M A) a,
          body o s1 = (Done a, s1) →
          obj cfg set_iter set_pop t now body now' s = (Done a, s2).
Proof.
  intros Hr Hg. destruct (reachable_Inv s Hr) as [HI _].
  destruct (get_ret_restores t now now' s o s1 HI Hg)
    as (s2 & Hret & _ & Hs & Hu & Ht).
  exists s2. split_and!; try done.
  intros A body a Hb. unfold obj. rewrite bind_eq, Hg, Hb.
  rewrite bind_eq, Hret. by mstep.
Qed.

(** X2: on a bounded pool all of whose tokens are taken, [get] changes
    nothing: it raises [TimeOut] when a deadline applies and waits forever
    when none does.  The deadline is the timeout argument unless that is
    absent or zero, in which case it is the configured timeout. *)
Theorem get_exhausted t now s m :
  reachable cfg set_iter set_pop s → sem s = Some m → sem_value m = 0 →
  get cfg set_pop t now s =
    (match py_or t (timeout_ cfg) with
     | Some _ => Raised TimeOut
     | None => Blocked
     end, s) ∧
  py_or (Some 0) (timeout_ cfg) = timeout_ cfg ∧
  py_or None (timeout_ cfg) = timeout_ cfg.
Proof.
  intros Hr Hm Hv. destruct (reachable_Inv s Hr) as [HI _].
  split; [|done]. unfold get. mstep. rewrite (inv_alive _ _ _ HI). mstep.
  rewrite Hm. mstep. unfold sem_acquire. rewrite Hm.
  destruct (decide (sem_value m = 0)) as [_|?]; [|done].
  destruct (py_or t (timeout_ cfg)); by mstep.
Qed.

(** X3: a [get] which raises, be it [TimeOut] or the exception of the
    factory, leaves the gate, the sets and the live count as they were: a
    failed [get] holds no token. *)
Theorem get_failure_keeps_state t now s e s' :
  reachable cfg set_iter set_pop s →
  get cfg set_pop t now s = (Raised e, s') →
  sem s' = sem s ∧ avail s' = avail s ∧ using_ s' = using_ s ∧
  todel s' = todel s ∧ nobjs s' = nobjs s.
Proof.
  intros Hr Hg. destruct (reachable_Inv s Hr) as [HI _].
  pose proof (get_spec t now s HI) as Hs. rewrite Hg in Hs.
  by destruct Hs as (_ & _ & Ha & Hu & Ht & Hn & Hsem & _).
Qed.

(** X4: while an object is available, [get] hands out an available object
    and does not call the factory. *)
Theorem get_reuses_available t now s o s' :
  reachable cfg set_iter set_pop s → avail s ≠ ∅ →
  get cfg set_pop t now s = (Done o, s') →
  o ∈ avail s ∧ avail s' = avail s ∖ {[o]} ∧
  ncreating s' = ncreating s ∧ ncreated s' = ncreated s ∧
  nobjs s' = nobjs s.
Proof.
  intros Hr Hne Hg. destruct (reachable_Inv s Hr) as [HI _].
  assert (Hlocked : ∀ s1 r,
    avail s1 = avail s → ncreating s1 = ncreating s →
    ncreated s1 = ncreated s → nobjs s1 = nobjs s →
    get_locked cfg set_pop now s1 = (Done o, r) →
    o ∈ avail s ∧ avail r = avail s ∖ {[o]} ∧
    ncreating r = ncreating s ∧ ncreated r = ncreated s ∧ nobjs r = nobjs s).
  { intros s1 r Ha H1 H2 H3. unfold get_locked. mstep. rewrite Ha.
    destruct (decide (avail s = ∅)) as [?|_]; [done|]. mstep. rewrite Ha.
    destruct (set_pop (avail s)) as [o'|] eqn:Hpop; mstep; [|done].
    rewrite uses_of_eq. psimpl.
    destruct (uses s1 !! o') as [i|]; mstep; [|done].
    edestruct run_hook_eq as [l Hl]. rewrite Hl. clear Hl. mstep.
    intros Heq. simplify_eq. psimpl.
    apply set_pop_elem in Hpop. by rewrite Ha. }
  revert Hg. unfold get. mstep. rewrite (inv_alive _ _ _ HI). mstep.
  destruct (sem s) as [m|] eqn:Hm; mstep.
  - unfold sem_acquire. rewrite Hm.
    destruct (decide (sem_value m = 0)).
    + destruct (py_or t (timeout_ cfg)); by mstep.
    + mstep. by apply Hlocked.
  - by apply Hlocked.
Qed.

(** X8: [_empty] hands exactly the objects pending destruction to
    [_destroy], each once, counts them in [_ndestroys] and leaves none
    pending; the live objects and the gate are untouched. *)
Theorem empty_drains s :
  ∃ l s', _empty cfg set_iter s = (Done tt, s') ∧
    todel s' = ∅ ∧ l ≡ₚ elements (todel s) ∧
    destroyed s' = destroyed s ++ l ∧
    ndestroys s' = ndestroys s + Z.of_nat (size (todel s)) ∧
    avail s' = avail s ∧ using_ s' = using_ s ∧ uses s' = uses s ∧
    sem s' = sem s ∧ nobjs s' = nobjs s.
Proof.
  unfold _empty. mstep.
  destruct (decide (todel s = ∅)) as [He|Hne]; mstep.
  - exists [], s. rewrite He, elements_empty, size_empty, app_nil_r.
    split_and!; first [done|lia].
  - edestruct destroy_all as [lg Hd]. eexists (set_iter (todel s)), _.
    split; [exact Hd|]. psimpl.
    split_and!; try done. by rewrite set_iter_length.
Qed.

(** X9: a housekeeping round never reclaims an object which has been held
    for less than [max_using_delay_kill]; with [max_using_delay_kill = 0]
    no object in use is ever reclaimed. *)
Theorem hkRound_spares_recent now s o i :
  reachable cfg set_iter set_pop s →
  o ∈ using_ s → uses s !! o = Some i →
  max_using_delay_kill cfg = 0 ∨ now - last_get i < max_using_delay_kill cfg →
  ∃ s', _hkRound cfg set_iter now s = (Done tt, s') ∧
        o ∈ using_ s' ∧ o ∉ todel s'.
Proof.
  intros Hr Ho Hi Hrecent. destruct (reachable_Inv s Hr) as [HI _].
  destruct (_hkRound_spec now s HI)
    as (s' & -> & HI' & _ & _ & _ & _ & _ & _ & Hk).
  destruct (Hk o Ho) as [_ Hkeep]. exists s'.
  assert (Hou : o ∈ using_ s').
  { apply Hkeep. intros (Hne & j & Hj & Hd). simplify_eq.
    destruct Hrecent; [done|lia]. }
  split_and!; [done|done|].
  pose proof (inv_todel _ _ _ HI'). set_solver.
Qed.

(** *** Refilling *)

(** With a free token and a factory which succeeds, one iteration of the
    loop of [_fill] adds exactly one object. *)
Lemma fill_one_creates now s :
  (∀ n k, ∃ o, fun_ cfg n k = Returns o) →
  Inv cfg 0 s → (∀ m, sem s = Some m → sem_value m ≠ 0) →
  ∃ s', fill_one cfg now s = (Done false, s') ∧ Inv cfg 0 s' ∧
    nobjs s' = nobjs s + 1 ∧ sem s' = sem s ∧
    using_ s' = using_ s ∧ todel s' = todel s ∧
    avail s ⊆ avail s' ∧ destroyed s' = destroyed s.
Proof.
  intros Hfun HI Hfree.
  assert (Hok : ∀ k s1, Inv cfg k s1 →
    ∃ o s2, _new cfg now s1 = (Done o, s2) ∧ Inv cfg k s2 ∧ grows s1 s2 ∧
            nobjs s2 = nobjs s1 + 1).
  { intros k s1 HI1. pose proof (_new_spec k now s1 HI1) as Hn.
    destruct (_new cfg now s1) as [[o|e|] s2]; [| |done].
    - destruct Hn as (? & _ & ? & _ & _ & ? & _). by exists o, s2.
    - destruct Hn as (_ & _ & _ & _ & _ & Hf).
      destruct (Hfun (ncreated s1) (ncreating s1 + 1)) as [o Ho]. congruence. }
  unfold fill_one. mstep.
  destruct (sem s) as [m|] eqn:Hm; mstep.
  - pose proof (sem_acquire_spec 0 (Some 0) s HI) as Ha.
    rewrite Hm in Ha. specialize (Ha (ltac:(eauto))).
    unfold sem_acquire in *. rewrite Hm in *.
    destruct (decide (sem_value m = 0)) as [Hv|Hv]; [by apply Hfree in Hv|].
    destruct Ha as (Hso & HI1 & Hs1). mstep.
    destruct (Hok _ _ HI1) as (o & s2 & -> & HI2 & Hg2 & Hn2). mstep.
    destruct (release_if_sem_spec 0 s2) as (s3 & -> & Hso3 & HI3 & Hs3);
      [done|done|].
    mstep. exists s3.
    destruct Hso as [a1 a2 a3 a4 a5 a6 a7 a8 a9 a10].
    destruct Hg2 as [g1 g2 g3 g4 g5 g6].
    destruct Hso3 as [b1 b2 b3 b4 b5 b6 b7 b8 b9 b10]. psimpl.
    split_and!; [done|done|lia| |congruence|congruence| |congruence].
    + rewrite Hs3, g3, Hs1. apply sem_inc_dec.
    + rewrite b1. exact g5.
  - destruct (Hok _ _ HI) as (o & s2 & -> & HI2 & Hg2 & Hn2). mstep.
    destruct Hg2 as [g1 g2 g3 g4 g5 g6].
    rewrite release_if_sem_None by congruence. mstep.
    exists s2. split_and!; first [done|congruence].
Qed.

Lemma fill_loop_creates {A} now (l : list A) s :
  (∀ n k, ∃ o, fun_ cfg n k = Returns o) →
  Inv cfg 0 s → (∀ m, sem s = Some m → sem_value m ≠ 0) →
  ∃ s', for_each l (λ _, fill_one cfg now) s = (Done tt, s') ∧ Inv cfg 0 s' ∧
    nobjs s' = nobjs s + Z.of_nat (length l) ∧ sem s' = sem s ∧
    using_ s' = using_ s ∧ todel s' = todel s ∧
    avail s ⊆ avail s' ∧ destroyed s' = destroyed s.
Proof.
  intros Hfun. revert s. induction l as [|x l IH]; intros s HI Hfree.
  - cbn [for_each]. mstep. exists s. cbn [length].
    split_and!; first [done|lia].
  - cbn [for_each]. mstep.
    destruct (fill_one_creates now s Hfun HI Hfree)
      as (s1 & -> & HI1 & Hn1 & Hs1 & Hu1 & Ht1 & Ha1 & Hd1).
    mstep.
    destruct (IH s1 HI1) as (s2 & -> & HI2 & Hn2 & Hs2 & Hu2 & Ht2 & Ha2 & Hd2).
    { by rewrite Hs1. }
    exists s2. cbn [length].
    split_and!; [done|done|lia|congruence|congruence|congruence| |congruence].
    by transitivity (avail s1).
Qed.

Lemma _fill_creates now s :
  (∀ n k, ∃ o, fun_ cfg n k = Returns o) →
  Inv cfg 0 s → (∀ m, sem s = Some m → sem_value m ≠ 0) →
  ∃ s', _fill cfg now s = (Done tt, s') ∧ Inv cfg 0 s' ∧
    nobjs s' = Z.max (nobjs s) (min_size0 cfg) ∧ sem s' = sem s ∧
    using_ s' = using_ s ∧ todel s' = todel s ∧
    avail s ⊆ avail s' ∧ destroyed s' = destroyed s.
Proof.
  intros Hfun HI Hfree. unfold _fill. mstep.
  rewrite (inv_min_size _ _ _ HI).
  destruct (decide (min_size0 cfg > nobjs s)) as [Hlt|Hge].
  - destruct (fill_loop_creates now
                (seq 0 (Z.to_nat (min_size0 cfg - nobjs s))) s Hfun HI Hfree)
      as (s' & -> & HI' & Hn & Hrest).
    exists s'. rewrite length_seq in Hn. split; [done|]. split; [done|]. split; [lia|]. apply Hrest.
  - mstep. exists s. split_and!; first [done|lia].
Qed.

(** X6: with a free token (or no bound) and a factory which does not fail,
    [_fill] brings the number of live objects up to [min_size], and leaves
    it alone when it is already there; the gate, the objects in use and the
    objects pending destruction are untouched. *)
Theorem fill_reaches_min_size now s :
  (∀ n k, ∃ o, fun_ cfg n k = Returns o) →
  reachable cfg set_iter set_pop s →
  (∀ m, sem s = Some m → sem_value m ≠ 0) →
  ∃ s', _fill cfg now s = (Done tt, s') ∧
    nobjs s' = Z.max (nobjs s) (min_size0 cfg) ∧
    Z.of_nat (size (avail s')) =
      Z.max (nobjs s) (min_size0 cfg) - Z.of_nat (size (using_ s)) ∧
    sem s' = sem s ∧ using_ s' = using_ s ∧ todel s' = todel s.
Proof.
  intros Hfun Hr Hfree. destruct (reachable_Inv s Hr) as [HI _].
  destruct (_fill_creates now s Hfun HI Hfree)
    as (s' & -> & HI' & Hn & Hs & Hu & Ht & _).
  exists s'. split_and!; try done.
  pose proof (inv_nobjs _ _ _ HI') as Hc. rewrite Hu in Hc. lia.
Qed.

(** X7: constructing a pool raises [ValueError] exactly when [max_size] is
    negative.  Otherwise it succeeds whatever the factory does; nothing is
    in use or pending, every token of a bounded pool is free, and at most
    [min_size] objects are available: none when the environment asks to
    skip the first [_fill], exactly [min_size] of them when it does not and
    the factory does not fail. *)
Theorem Pool_init_outcome now :
  (max_size cfg < 0 → (Pool_init cfg now).1 = Raised ValueError) ∧
  (0 ≤ max_size cfg →
     let s := (Pool_init cfg now).2 in
     (Pool_init cfg now).1 = Done tt ∧
     using_ s = ∅ ∧ todel s = ∅ ∧
     sem s = (if decide (max_size cfg = 0) then None
              else Some (mkSemaphore (max_size cfg) (max_size cfg))) ∧
     nobjs s = Z.of_nat (size (avail s)) ∧
     nobjs s ≤ Z.max 0 (min_size0 cfg) ∧
     (skip_thread cfg = true → nobjs s = 0) ∧
     (skip_thread cfg = false →
      (∀ n k, ∃ o, fun_ cfg n k = Returns o) →
      nobjs s = Z.max 0 (min_size0 cfg))).
Proof.
  assert (Hfirst : ∀ sm,
    match sm with
    | Some m => sem_value m = max_size cfg ∧ sem_initial m = max_size cfg ∧
                0 < max_size cfg
    | None => max_size cfg = 0
    end →
    let s0 := new_pool cfg sm in
    ∃ s', first_fill cfg now s0 = (Done tt, s') ∧
      using_ s' = ∅ ∧ todel s' = ∅ ∧ sem s' = sm ∧
      nobjs s' = Z.of_nat (size (avail s')) ∧
      nobjs s' ≤ Z.max 0 (min_size0 cfg) ∧
      (skip_thread cfg = true → nobjs s' = 0) ∧
      (skip_thread cfg = false →
       (∀ n k, ∃ o, fun_ cfg n k = Returns o) →
       nobjs s' = Z.max 0 (min_size0 cfg))).
  { intros sm Hsm s0.
    assert (HI : Inv cfg 0 s0) by (by apply new_pool_Inv).
    unfold first_fill. destruct (skip_thread cfg) eqn:Hskip.
    - exists s0. mstep. change (avail s0) with (∅ : gset Obj).
      rewrite size_empty. split_and!; try done. cbn. lia.
    - destruct (_fill_spec now _ HI) as (s' & Hf & HI' & _ & Hg & Hn).
      exists s'. destruct Hg as [g1 g2 g3 g4 g5 g6].
      pose proof (inv_nobjs _ _ _ HI') as Hc. rewrite g1 in Hc.
      change (using_ s0) with (∅ : gset Obj) in *. rewrite size_empty in Hc.
      split_and!; [done|done|done|done|lia|exact Hn|done|].
      intros _ Hfun.
      destruct (_fill_creates now s0 Hfun HI) as (s2 & Hf2 & _ & Hn2 & _).
      { intros m Hm. change (sem s0) with sm in Hm. subst sm. lia. }
      rewrite Hf in Hf2. by simplify_eq. }
  unfold Pool_init, truthy. split.
  - intros Hneg. case_bool_decide; [|lia].
    by destruct (decide (max_size cfg < 0)).
  - intros Hpos. case_bool_decide as Hmax.
    + destruct (decide (max_size cfg < 0)) as [?|_]; [lia|].
      destruct (decide (max_size cfg = 0)) as [?|_]; [done|].
      destruct (Hfirst (Some (mkSemaphore (max_size cfg) (max_size cfg))))
        as (s' & -> & Hrest); [cbn; lia|].
      cbn [fst snd]. split; [done|]. exact Hrest.
    + destruct (decide (max_size cfg = 0)) as [_|?]; [|done].
      destruct (Hfirst None) as (s' & -> & Hrest); [done|].
      cbn [fst snd]. split; [done|]. exact Hrest.
Qed.

(** *** The health check *)

Lemma upd_sem_ext f g s : f (sem s) = g (sem s) → upd_sem f s = upd_sem g s.
Proof. unfold upd_sem. by intros ->. Qed.

Lemma upd_sem_None f s : sem s = None → f None = None → upd_sem f s = s.
Proof.
  intros Hs Hf. unfold upd_sem. rewrite Hs, Hf. by rewrite <- Hs at 1.
Qed.

(** [_borrow] of an available object succeeds when a token is free. *)
Lemma _borrow_free o s :
  o ∈ avail s → token_free s →
  _borrow o s =
    (Done (Some o), upd_nborrows (λ n, n + 1)
                  (upd_using (λ u, {[o]} ∪ u)
                     (upd_avail (λ a, a ∖ {[o]}) (upd_sem sem_dec s)))).
Proof.
  intros Ho Hfree. unfold _borrow. mstep.
  destruct (sem s) as [m|] eqn:Hm; mstep.
  - rewrite (upd_sem_ext sem_dec
               (λ _, Some (mkSemaphore (sem_value m - 1) (sem_initial m))) s)
      by (by rewrite Hm).
    unfold sem_acquire. rewrite Hm.
    destruct (decide (sem_value m = 0)) as [Hv|Hv]; [by apply Hfree in Hv|].
    mstep. psimpl.
    destruct (decide (o ∈ avail s)) as [_|?]; [|done]. by mstep.
  - destruct (decide (o ∈ avail s)) as [_|?]; [|done]. mstep.
    by rewrite (upd_sem_None sem_dec s).
Qed.

(** [_borrow] fails without a trace when no token is free. *)
Lemma _borrow_exhausted o s m :
  sem s = Some m → sem_value m = 0 → _borrow o s = (Done None, s).
Proof.
  intros Hm Hv. unfold _borrow. mstep. rewrite Hm. mstep.
  unfold sem_acquire. rewrite Hm.
  destruct (decide (sem_value m = 0)); [|done]. by mstep.
Qed.

(** [_return] of an object in use, while a token is taken. *)
Lemma _return_exact o s :
  o ∈ using_ s → (∀ m, sem s = Some m → sem_value m < sem_initial m) →
  _return o s =
    (Done tt, upd_sem sem_inc
                (upd_nreturns (λ n, n + 1)
                   (upd_avail (λ a, {[o]} ∪ a)
                      (upd_using (λ u, u ∖ {[o]}) s)))).
Proof.
  intros Ho Hlt. unfold _return. mstep.
  destruct (decide (o ∈ using_ s)) as [_|?]; [|done]. mstep.
  unfold release_if_sem. mstep. psimpl.
  destruct (sem s) as [m|] eqn:Hm; mstep.
  - unfold sem_release. psimpl. rewrite Hm.
    destruct (decide (sem_initial m ≤ sem_value m)) as [Hle|_].
    { specialize (Hlt m eq_refl). lia. }
    f_equal. symmetry. apply upd_sem_ext. psimpl. by rewrite Hm.
  - f_equal. symmetry. apply upd_sem_None; [by psimpl|done].
Qed.

(** The check of one available object whose truth value is true, by the
    outcome of the hook: the object is removed exactly when the hook
    answers [False]. *)
Lemma health_check_obj_exact h o s :
  Inv cfg 0 s → o ∈ avail s → token_free s → obj_truthy cfg o = true →
  (unhealthy h o → ∃ d, trace_obj cfg o = Returns d) →
  ∃ s', health_check_obj cfg h o s = (Done tt, s') ∧ Inv cfg 0 s' ∧
    using_ s' = using_ s ∧ sem s' = sem s ∧ destroyed s' = destroyed s ∧
    avail s' = (if unhealthy h o then avail s ∖ {[o]} else avail s) ∧
    todel s' = (if unhealthy h o then {[o]} ∪ todel s else todel s) ∧
    nobjs s' = (if unhealthy h o then nobjs s - 1 else nobjs s) ∧
    bad_health s' =
      (if unhealthy h o then bad_health s + 1 else bad_health s).
Proof.
  intros HI Ho Hfree Htruthy Htr.
  pose proof (health_check_obj_spec h o s HI) as Hspec.
  pose proof (inv_disjoint _ _ _ HI) as Hdis.
  pose proof (inv_tokens _ _ _ HI) as Htok. unfold tokens_ok in Htok.
  assert (Ha : {[o]} ∪ avail s ∖ {[o]} = avail s).
  { apply set_eq. intros x. destruct (decide (x = o)); set_solver. }
  assert (Hu : ({[o]} ∪ using_ s) ∖ {[o]} = using_ s) by set_solver.
  assert (Hsem : sem_inc (sem_dec (sem s)) = sem s) by apply sem_inc_dec.
  assert (Hret : ∀ s1, using_ s1 = {[o]} ∪ using_ s → sem s1 = sem_dec (sem s) →
    _return o s1 =
      (Done tt, upd_sem sem_inc (upd_nreturns (λ n, n + 1)
         (upd_avail (λ a, {[o]} ∪ a) (upd_using (λ u, u ∖ {[o]}) s1))))).
  { intros s1 H1 H2. apply _return_exact; [rewrite H1; set_solver|].
    intros m Hm. rewrite H2 in Hm. destruct (sem s) as [m0|]; [|done].
    cbn in Hm. simplify_eq. cbn. lia. }
  revert Hspec. unfold health_check_obj. mstep.
  rewrite _borrow_free by done. mstep. cbn [borrowed_truthy].
  rewrite Htruthy. mstep. rewrite try_finally_eq. mstep.
  rewrite call_eq. unfold unhealthy in *.
  destruct (h o) as [[]|e]; mstep.
  - (* healthy *)
    rewrite Hret by done. mstep.
    intros (HI' & _). eexists. split; [reflexivity|]. psimpl.
    rewrite Ha, Hu, Hsem. by split_and!.
  - (* unhealthy *)
    rewrite Hret by done. mstep. rewrite call_eq.
    destruct (Htr I) as [d ->]. mstep.
    unfold retire, _out. mstep. psimpl.
    destruct (decide (is_Some (uses s !! o))) as [_|Hn].
    2:{ exfalso. apply Hn. apply elem_of_dom. rewrite (inv_dom _ _ _ HI).
        set_solver. }
    mstep. psimpl. rewrite Ha.
    destruct (decide (o ∈ avail s)) as [_|?]; [|done]. mstep. psimpl.
    rewrite Hu.
    destruct (decide (o ∈ using_ s)) as [?|_]; [set_solver|]. mstep.
    unfold when. mstep.
    intros (HI' & _). eexists. split; [reflexivity|]. psimpl.
    rewrite ?Ha, ?Hu, ?Hsem. by split_and!.
  - (* the hook raised: the object counts as healthy *)
    rewrite Hret by done. mstep.
    intros (HI' & _). eexists. split; [reflexivity|]. psimpl.
    rewrite Ha, Hu, Hsem. by split_and!.
Qed.

Lemma health_check_loop h l : ∀ s,
  Inv cfg 0 s → token_free s → NoDup l → (∀ o, o ∈ l → o ∈ avail s) →
  (∀ o, o ∈ l → obj_truthy cfg o = true) →
  (∀ o, o ∈ l → unhealthy h o → ∃ d, trace_obj cfg o = Returns d) →
  ∃ s', for_each l (λ o, health_check_obj cfg h o ;; ret_ false) s
          = (Done tt, s') ∧ Inv cfg 0 s' ∧
    using_ s' = using_ s ∧ sem s' = sem s ∧ destroyed s' = destroyed s ∧
    avail s' = avail s ∖ list_to_set (filter (λ o, unhealthy h o) l) ∧
    todel s' = list_to_set (filter (λ o, unhealthy h o) l) ∪ todel s ∧
    nobjs s' =
      nobjs s - Z.of_nat (length (filter (λ o, unhealthy h o) l)).
Proof.
  induction l as [|x l IH]; intros s HI Hfree Hnd Hin Hty Htr.
  - cbn [for_each]. mstep. exists s. rewrite filter_nil. cbn [length].
    split_and!; first [done|set_solver|lia].
  - cbn [for_each]. mstep.
    apply NoDup_cons in Hnd as [Hx Hnd].
    destruct (health_check_obj_exact h x s HI) as
      (s1 & -> & HI1 & Hu1 & Hs1 & Hd1 & Ha1 & Ht1 & Hn1 & _).
    { apply Hin. set_solver. } { done. } { apply Hty. set_solver. }
    { apply Htr. set_solver. }
    mstep.
    destruct (IH s1 HI1) as (s2 & -> & HI2 & Hu2 & Hs2 & Hd2 & Ha2 & Ht2 & Hn2).
    { intros m Hm. rewrite Hs1 in Hm. by apply Hfree in Hm. }
    { done. }
    { intros o Ho. rewrite Ha1.
      assert (o ≠ x) by (intros ->; done).
      assert (o ∈ avail s) by (apply Hin; set_solver).
      destruct (unhealthy h x); set_solver. }
    { intros o Ho. apply Hty. set_solver. }
    { intros o Ho. apply Htr. set_solver. }
    exists s2. rewrite filter_cons.
    split; [done|]. split; [done|].
    split; [congruence|]. split; [congruence|]. split; [congruence|].
    rewrite Ha2, Ht2, Hn2, Ha1, Ht1, Hn1.
    destruct (decide (unhealthy h x)) as [Hb|Hb].
    + destruct (unhealthy h x); [|done]. cbn [length list_to_set].
      split_and!; [set_solver|set_solver|lia].
    + destruct (unhealthy h x); [by destruct Hb|].
      split_and!; [set_solver|set_solver|lia].
Qed.

(** X10: a health check run with a free token, over available objects whose
    truth value is true, removes from the available objects exactly those
    for which the hook answers [False], and puts them aside for
    destruction; an object whose check answers [True] or raises stays
    available.  The objects in use and the gate are untouched. *)
Theorem health_check_sorts h s :
  reachable cfg set_iter set_pop s → health cfg = Some h →
  token_free s →
  (∀ o, o ∈ avail s → obj_truthy cfg o = true) →
  (∀ o, o ∈ avail s → unhealthy h o → ∃ d, trace_obj cfg o = Returns d) →
  ∃ s', _health_check cfg set_iter s = (Done tt, s') ∧
    avail s' = filter (λ o, ¬ unhealthy h o) (avail s) ∧
    todel s' = filter (λ o, unhealthy h o) (avail s) ∪ todel s ∧
    using_ s' = using_ s ∧ sem s' = sem s ∧
    nobjs s' =
      nobjs s - Z.of_nat (size (filter (λ o, unhealthy h o) (avail s))).
Proof.
  intros Hr Hh Hfree Hty Htr. destruct (reachable_Inv s Hr) as [HI _].
  unfold _health_check. rewrite Hh. mstep.
  set (s0 := upd_hc_rounds (λ n, n + 1) s).
  assert (HI0 : Inv cfg 0 s0).
  { eapply Inv_same_objs; [|apply (inv_tokens _ _ _ HI)|done]. by split. }
  destruct (health_check_loop h (set_iter (avail s)) s0 HI0)
    as (s' & Hrun & _ & Hu & Hs & _ & Ha & Ht & Hn).
  { done. } { apply set_iter_NoDup. }
  { intros o Ho. by apply set_iter_elem. }
  { intros o Ho. apply Hty. by apply set_iter_elem. }
  { intros o Ho. apply Htr. by apply set_iter_elem. }
  change (avail s0) with (avail s).
  exists s'. split; [exact Hrun|].
  assert (Hbad : list_to_set (filter (λ o, unhealthy h o) (set_iter (avail s)))
                 = filter (λ o : Obj, unhealthy h o) (avail s)).
  { apply set_eq. intros x.
    rewrite elem_of_list_to_set, elem_of_filter, list_elem_of_filter.
    by rewrite set_iter_elem. }
  rewrite Hbad in Ha, Ht.
  split_and!; [| done | done | done |].
  - rewrite Ha. apply set_eq. intros x. rewrite elem_of_difference.
    rewrite !elem_of_filter. change (avail s0) with (avail s). tauto.
  - rewrite Hn. change (nobjs s0) with (nobjs s). f_equal. f_equal.
    rewrite <- Hbad. rewrite size_list_to_set.
    2:{ apply NoDup_filter, set_iter_NoDup. } done.
Qed.

(** X11: while every token of a bounded pool is taken, a health check
    checks nothing: the available objects are skipped, and only the round
    is counted. *)
Theorem health_check_skips_when_exhausted h s m :
  health cfg = Some h → sem s = Some m → sem_value m = 0 →
  _health_check cfg set_iter s = (Done tt, upd_hc_rounds (λ n, n + 1) s).
Proof.
  intros Hh Hm Hv. unfold _health_check. rewrite Hh. mstep. psimpl.
  generalize (set_iter (avail s)). intros l.
  induction l as [|x l IH]; cbn [for_each]; mstep; [done|].
  unfold health_check_obj at 1. mstep.
  rewrite (_borrow_exhausted x _ m) by done. by mstep.
Qed.

(** X12: the health check of an available object whose truth value is
    false, with a free token, borrows the object and stops there: the test
    [if self._borrow(obj)] fails on the object returned, so the hook is not
    called and the object is not returned.  It is left in use, its token
    taken, with no borrower to release it. *)
Theorem health_check_falsy_object_stays_borrowed h o s :
  o ∈ avail s → token_free s → obj_truthy cfg o = false →
  ∃ s', health_check_obj cfg h o s = (Done tt, s') ∧
    avail s' = avail s ∖ {[o]} ∧ using_ s' = {[o]} ∪ using_ s ∧
    sem s' = sem_dec (sem s) ∧ todel s' = todel s ∧
    nhealth s' = nhealth s ∧ nborrows s' = nborrows s + 1 ∧
    nreturns s' = nreturns s ∧ logged s' = logged s.
Proof.
  intros Ho Hfree Hfalsy. unfold health_check_obj. mstep.
  rewrite _borrow_free by done. mstep. cbn [borrowed_truthy].
  rewrite Hfalsy. mstep. eexists. split; [reflexivity|]. psimpl.
  by split_and!.
Qed.

(** *** The housekeeping cycle *)

(** X13: with a health hook and [health_freq = 0], the housekeeping cycle
    raises [ZeroDivisionError] right after its round: the objects the round
    put aside are not destroyed and the pool is not refilled. *)
Theorem houseKeeping_zero_health_freq now s h :
  reachable cfg set_iter set_pop s →
  health cfg = Some h → health_freq cfg = 0 →
  ∃ s', _hkRound cfg set_iter now s = (Done tt, s') ∧
        _houseKeeping cfg set_iter now s = (Raised ZeroDivisionError, s').
Proof.
  intros Hr Hh Hz. destruct (reachable_Inv s Hr) as [HI _].
  destruct (_hkRound_spec now s HI) as (s' & Hk & _).
  exists s'. split; [done|]. unfold _houseKeeping. mstep. rewrite Hk. mstep.
  rewrite Hh. destruct (decide (health_freq cfg = 0)); [|done]. by mstep.
Qed.

(** X14: after a housekeeping cycle which completes, no object is pending
    destruction: the objects which were pending, and the objects in use
    which were due to be killed, have been handed to [_destroy]. *)
Theorem houseKeeping_drains now s s' :
  reachable cfg set_iter set_pop s →
  _houseKeeping cfg set_iter now s = (Done tt, s') →
  todel s' = ∅ ∧
  (∀ o, o ∈ todel s → o ∈ destroyed s') ∧
  (∀ o, o ∈ using_ s → kill_due cfg now s o →
        o ∈ destroyed s' ∧ o ∉ using_ s').
Proof.
  intros Hr. destruct (reachable_Inv s Hr) as [HI _].
  destruct (_hkRound_spec now s HI)
    as (s1 & Hk & HI1 & _ & _ & _ & Hu1 & Ht1 & _ & Hkill).
  assert (Htail : ∀ s2, Inv cfg 0 s2 → using_ s2 ⊆ using_ s1 ∪ avail s1 →
    todel s1 ⊆ todel s2 →
    (_empty cfg set_iter ;; _fill cfg now) s2 = (Done tt, s') →
    todel s' = ∅ ∧ (∀ o, o ∈ todel s → o ∈ destroyed s') ∧
    (∀ o, o ∈ using_ s → kill_due cfg now s o →
          o ∈ destroyed s' ∧ o ∉ using_ s')).
  { intros s2 HI2 Hu2 Ht2. rewrite bind_eq.
    destruct (_empty_spec 0 s2 HI2)
      as (s3 & -> & HI3 & _ & Ht3 & _ & Hu3 & _ & _ & _ & Hd3).
    destruct (_fill_spec now s3 HI3) as (s4 & -> & _ & _ & Hg & _).
    intros [= <-]. destruct Hg as [g1 g2 g3 g4 g5 g6].
    split_and!.
    - congruence.
    - intros o Ho. rewrite g4. apply Hd3. set_solver.
    - intros o Ho Hkd. destruct (Hkill o Ho) as [Hyes _].
      destruct (Hyes Hkd) as (Hin & Hnu & Hna). split.
      + rewrite g4. apply Hd3. set_solver.
      + rewrite g1, Hu3. set_solver. }
  unfold _houseKeeping. mstep. rewrite Hk. mstep.
  destruct (health cfg) as [h|] eqn:Hh.
  - destruct (decide (health_freq cfg = 0)); [by mstep|].
    unfold when. destruct (bool_decide _).
    + pose proof (_health_check_spec s1 HI1) as Hc.
      destruct (_health_check cfg set_iter s1) as [[[]|e|] s2]; mstep;
        [|done|done].
      destruct Hc as (HI2 & _ & _ & Hu2 & _ & _ & _ & Ht2).
      apply Htail; [done|done|done].
    + mstep. apply Htail; [done|set_solver|done].
  - mstep. apply Htail; [done|set_solver|done].
Qed.

(** *** Shutting down *)

(** [_out] takes the object out of the three structures, and counts it out
    when it was in one of them. *)
Lemma _out_exact o s :
  ∃ s', _out o s = (Done tt, s') ∧
    uses s' = delete o (uses s) ∧ avail s' = avail s ∖ {[o]} ∧
    using_ s' = using_ s ∖ {[o]} ∧
    nobjs s' = (if decide (o ∈ tracked s) then nobjs s - 1 else nobjs s) ∧
    todel s' = todel s ∧ sem s' = sem s ∧ destroyed s' = destroyed s ∧
    ndestroys s' = ndestroys s ∧ shutdown_ s' = shutdown_ s ∧
    min_size s' = min_size s.
Proof.
  unfold _out, tracked. mstep.
  destruct (decide (is_Some (uses s !! o))) as [H1|H1];
    rewrite <- elem_of_dom in H1; mstep; psimpl;
  (destruct (decide (o ∈ avail s)) as [H2|H2]; mstep; psimpl;
   (destruct (decide (o ∈ using_ s)) as [H3|H3]; mstep; unfold when; mstep;
    eexists; (split; [reflexivity|]); psimpl;
    first [ rewrite decide_True by (clear -H1 H2 H3; set_solver)
          | rewrite decide_False by (clear -H1 H2 H3; set_solver) ];
    split_and!;
    lazymatch goal with
    | |- ?x = ?x => reflexivity
    | |- _ = delete _ _ => symmetry; apply delete_id; by apply not_elem_of_dom
    | |- _ = _ ∖ _ =>
        symmetry; by apply difference_disjoint_L, disjoint_singleton_r
    end)).
Qed.

Lemma tracked_out o s s' :
  uses s' = delete o (uses s) → avail s' = avail s ∖ {[o]} →
  using_ s' = using_ s ∖ {[o]} → tracked s' = tracked s ∖ {[o]}.
Proof.
  intros H1 H2 H3. unfold tracked. rewrite H1, H2, H3, dom_delete_L.
  set_solver.
Qed.

(** The loops of [__delete__]. *)
Lemma del_all l : ∀ s,
  ∃ s', for_each l (λ o, _del cfg o ;; ret_ false) s = (Done tt, s') ∧
    tracked s' = tracked s ∖ list_to_set l ∧
    dom (uses s') = dom (uses s) ∖ list_to_set l ∧
    avail s' = avail s ∖ list_to_set l ∧
    using_ s' = using_ s ∖ list_to_set l ∧
    nobjs s' - Z.of_nat (size (tracked s'))
      = nobjs s - Z.of_nat (size (tracked s)) ∧
    destroyed s' = destroyed s ++ l ∧
    todel s' = todel s ∧ sem s' = sem s ∧ ndestroys s' = ndestroys s ∧
    shutdown_ s' = shutdown_ s ∧ min_size s' = min_size s.
Proof.
  induction l as [|x l IH]; intros s.
  - cbn [for_each]. mstep. exists s. rewrite app_nil_r.
    split_and!; first [done|set_solver].
  - cbn [for_each]. unfold _del at 1. mstep.
    destruct (_out_exact x s)
      as (s1 & -> & Hu & Ha & Hg & Hn & Ht & Hs & Hd & Hnd & Hsh & Hms).
    destruct (_destroy_eq x s1) as [lg ->]. mstep.
    set (s2 := upd_destroyed (λ d, d ++ [x]) (upd_logged (λ l0, l0 ++ lg) s1)).
    destruct (IH s2)
      as (s3 & -> & Htr3 & Hu3 & Ha3 & Hg3 & Hn3 & Hd3 & Ht3 & Hs3 & Hnd3
          & Hsh3 & Hms3).
    pose proof (tracked_out x s s1 Hu Ha Hg) as Htr.
    change (tracked s2) with (tracked s1) in *.
    change (uses s2) with (uses s1) in *. change (avail s2) with (avail s1) in *.
    change (using_ s2) with (using_ s1) in *.
    change (nobjs s2) with (nobjs s1) in *.
    change (destroyed s2) with (destroyed s1 ++ [x]) in *.
    change (todel s2) with (todel s1) in *. change (sem s2) with (sem s1) in *.
    change (ndestroys s2) with (ndestroys s1) in *.
    change (shutdown_ s2) with (shutdown_ s1) in *.
    change (min_size s2) with (min_size s1) in *.
    exists s3. cbn [list_to_set].
    split_and!; [done| | | | | | |congruence|congruence|congruence
                |congruence|congruence].
    + rewrite Htr3, Htr. set_solver.
    + rewrite Hu3, Hu, dom_delete_L. set_solver.
    + rewrite Ha3, Ha. set_solver.
    + rewrite Hg3, Hg. set_solver.
    + rewrite Hn3, Hn, Htr.
      destruct (decide (x ∈ tracked s)) as [Hx|Hx].
      * rewrite size_remove by done. lia.
      * replace (tracked s ∖ {[x]}) with (tracked s) by set_solver. lia.
    + rewrite Hd3, Hd. by rewrite <- app_assoc.
Qed.

(** The first part of [__delete__]: the objects in use. *)
Lemma delete_in_use s :
  ∃ s1,
    (if decide (using_ s = ∅) then ret_ tt
     else log (LogDeletingInUse (size (using_ s))) ;;
          for_each (set_iter (using_ s)) (λ obj, _del cfg obj ;; ret_ false) ;;
          modify (upd_using (λ _, ∅))) s = (Done tt, s1) ∧
    tracked s1 = tracked s ∖ using_ s ∧
    dom (uses s1) = dom (uses s) ∖ using_ s ∧
    avail s1 = avail s ∖ using_ s ∧ using_ s1 = ∅ ∧
    nobjs s1 - Z.of_nat (size (tracked s1))
      = nobjs s - Z.of_nat (size (tracked s)) ∧
    destroyed s1 = destroyed s ++ set_iter (using_ s) ∧
    todel s1 = todel s ∧ sem s1 = sem s ∧ ndestroys s1 = ndestroys s ∧
    shutdown_ s1 = shutdown_ s ∧ min_size s1 = min_size s.
Proof.
  destruct (decide (using_ s = ∅)) as [He|Hne]; mstep.
  - exists s. rewrite He, set_iter_empty, app_nil_r.
    split; [done|].
    split; [symmetry; apply difference_disjoint_L; set_solver|].
    split; [symmetry; apply difference_disjoint_L; set_solver|].
    split; [symmetry; apply difference_disjoint_L; set_solver|].
    by split_and!.
  - destruct (del_all (set_iter (using_ s))
                (upd_logged (λ l, l ++ [LogDeletingInUse (size (using_ s))]) s))
      as (s1 & -> & Htr1 & Hu1 & Ha1 & Hg1 & Hn1 & Hd1 & Ht1 & Hs1 & Hnd1
          & Hsh1 & Hms1).
    mstep. eexists. split; [reflexivity|].
    assert (HL : list_to_set (set_iter (using_ s)) = using_ s).
    { apply set_eq. intros x. by rewrite elem_of_list_to_set, set_iter_elem. }
    rewrite HL in *.
    change (tracked (upd_logged _ s)) with (tracked s) in *. psimpl.
    assert (Hg1' : using_ s1 = ∅) by (rewrite Hg1; set_solver).
    assert (Htr : tracked (upd_using (λ _, ∅) s1) = tracked s1).
    { unfold tracked. psimpl. rewrite Hg1'. done. }
    rewrite Htr. by split_and!.
Qed.

(** X15: [shutdown] marks the pool as shut down and hands every object of
    the pool, the ones in use first, to [_destroy]; the pool is left empty
    with a live count of zero.  The tokens of the objects in use are not
    given back, objects pending destruction stay pending and [_ndestroys]
    is not updated.  Afterwards [get] raises [PoolException] and [ret]
    changes nothing but the log. *)
Theorem shutdown_closes_all s :
  reachable cfg set_iter set_pop s →
  ∃ s', shutdown cfg set_iter s = (Done tt, s') ∧
    shutdown_ s' = true ∧ min_size s' = 0 ∧
    avail s' = ∅ ∧ using_ s' = ∅ ∧ uses s' = ∅ ∧ nobjs s' = 0 ∧
    destroyed s' = destroyed s ++ set_iter (using_ s) ++ set_iter (avail s) ∧
    sem s' = sem s ∧ todel s' = todel s ∧ ndestroys s' = ndestroys s ∧
    (∀ t now, get cfg set_pop t now s' = (Raised PoolException, s')) ∧
    (∀ o now, ∃ l, ret cfg set_iter o now s' =
                     (Done tt, upd_logged (λ l0, l0 ++ l) s')).
Proof.
  intros Hr. destruct (reachable_Inv s Hr) as [HI _].
  pose proof (inv_disjoint _ _ _ HI) as Hdis.
  pose proof (inv_dom _ _ _ HI) as Hdom.
  pose proof (inv_nobjs _ _ _ HI) as Hn.
  assert (Htr : tracked s = avail s ∪ using_ s).
  { unfold tracked. rewrite Hdom. set_solver. }
  assert (Hsz : Z.of_nat (size (tracked s)) = nobjs s).
  { rewrite Htr, size_union by done. lia. }
  assert (Hav : avail s ∖ using_ s = avail s).
  { apply difference_disjoint_L. done. }
  destruct (delete_in_use (upd_min_size (λ _, 0) (upd_shutdown (λ _, true) s)))
    as (s1 & Hf1 & Htr1 & Hu1 & Ha1 & Hg1 & Hn1 & Hd1 & Ht1 & Hs1 & Hnd1
        & Hsh1 & Hms1).
  unfold shutdown. rewrite bind_eq, modify_eq. cbv beta iota.
  rewrite bind_eq, modify_eq. cbv beta iota.
  unfold __delete__. rewrite bind_eq, gets_eq. cbv beta iota.
  rewrite bind_eq, Hf1. clear Hf1.
  change (tracked (upd_min_size _ _)) with (tracked s) in *. psimpl.
  mstep. rewrite Ha1, Hav.
  destruct (del_all (set_iter (avail s)) s1)
    as (s2 & -> & Htr2 & Hu2 & Ha2 & Hg2 & Hn2 & Hd2 & Ht2 & Hs2 & Hnd2
        & Hsh2 & Hms2).
  mstep. eexists. split; [reflexivity|]. psimpl.
  assert (HL : list_to_set (set_iter (avail s)) = avail s).
  { apply set_eq. intros x. by rewrite elem_of_list_to_set, set_iter_elem. }
  rewrite HL in *.
  assert (Htr2' : tracked s2 = ∅).
  { rewrite Htr2, Htr1, Htr. set_solver. }
  rewrite Htr2', size_empty in Hn2.
  split_and!; try congruence.
  - rewrite Hg2, Hg1. set_solver.
  - lia.
  - rewrite Hd2, Hd1. by rewrite <- app_assoc.
  - intros t now. unfold get. mstep. psimpl. rewrite Hsh2, Hsh1. by mstep.
  - intros o now. apply ret_not_using. psimpl. set_solver.
Qed.

(** *** Statistics *)

Lemma stats_data_ro o now s :
  (__stats_data cfg o now s).2 = s ∧ (__stats_data cfg o now s).1 ≠ Blocked.
Proof.
  unfold __stats_data.
  destruct (stats_hook cfg) as [f|]; [|destruct (tracer cfg) as [f|]]; mstep;
    rewrite ?call_eq; try destruct (f o); mstep; psimpl;
    destruct (uses s !! o); by mstep.
Qed.

Lemma for_map_ro l now s :
  (for_map l (λ o, __stats_data cfg o now) s).2 = s ∧
  ∀ ds, (for_map l (λ o, __stats_data cfg o now) s).1 = Done ds →
        length ds = length l.
Proof.
  induction l as [|x l [IH1 IH2]]; cbn [for_map]; mstep.
  - split; [done|]. by intros ds [= <-].
  - destruct (stats_data_ro x now s) as [H1 H2].
    destruct (__stats_data cfg x now s) as [[d|e|] s1]; cbn in H1; subst s1;
      mstep; [|done|done].
    destruct (for_map l (λ o, __stats_data cfg o now) s) as [[ds|e|] s1];
      cbn in IH1; subst s1; mstep; [|done|done].
    split; [done|]. intros ds' [= <-]. cbn. f_equal. by apply IH2.
Qed.

(** X16: [stats] only reads: whatever its outcome, the pool is as before.
    The snapshot it returns has one descriptor for each available object
    and one for each object in use, and its live count is the sum of its
    counts of available objects and of objects in use. *)
Theorem stats_read_only now s :
  reachable cfg set_iter set_pop s →
  (stats cfg set_iter now s).2 = s ∧
  ∀ snap, (stats cfg set_iter now s).1 = Done snap →
    st_navail snap = size (avail s) ∧ st_nusing snap = size (using_ s) ∧
    st_ntodel snap = size (todel s) ∧ st_sem snap = sem s ∧
    length (st_avail snap) = st_navail snap ∧
    length (st_using snap) = st_nusing snap ∧
    st_nobjs snap = Z.of_nat (st_navail snap) + Z.of_nat (st_nusing snap).
Proof.
  intros Hr. destruct (reachable_Inv s Hr) as [HI _].
  pose proof (inv_nobjs _ _ _ HI) as Hn.
  unfold stats. mstep. cbn [id].
  destruct (for_map_ro (set_iter (avail s)) now s) as [Ha1 Ha2].
  destruct (for_map (set_iter (avail s)) (λ o, __stats_data cfg o now) s)
    as [[da|e|] s1]; cbn in Ha1; subst s1; mstep; [|done|done].
  destruct (for_map_ro (set_iter (using_ s)) now s) as [Hu1 Hu2].
  destruct (for_map (set_iter (using_ s)) (λ o, __stats_data cfg o now) s)
    as [[du|e|] s1]; cbn in Hu1; subst s1; mstep; [|done|done].
  split; [done|]. intros snap [= <-]. cbn.
  rewrite (Ha2 da eq_refl), (Hu2 du eq_refl), !set_iter_length.
  by split_and!.
Qed.

(** *** The proxy *)

Ltac pstep :=
  repeat (first [ progress mstep
                | progress cbn [id p_has_fun p_pool p_local p_nobjs p_calls
                                andb from_option]
                | rewrite bool_decide_eq_true_2 by done
                | rewrite bool_decide_eq_false_2 by done ]).





(** X19: on a proxy without a pool, [_get_obj] calls the factory with the
    number of objects created so far, binds the object and counts it;
    every later [_get_obj] returns the bound object without calling the
    factory, and [_ret_obj] does nothing: the object stays bound. *)
Theorem proxy_without_pool t now p o :
  p_has_fun p = true → p_pool p = None → p_local p = None →
  fun_ cfg (p_nobjs p) (p_calls p + 1) = Returns o →
  let p1 := mkProxy true None (Some (Some o)) (p_nobjs p + 1) (p_calls p + 1) in
  _get_obj cfg set_pop t now p = (Done (Some o), p1) ∧
  (∀ t' now', _get_obj cfg set_pop t' now' p1 = (Done (Some o), p1)) ∧
  (∀ now', _ret_obj cfg set_iter now' p1 = (Done tt, p1)).
Proof.
  destruct p as [hf pl lc n c].
  cbn [p_has_fun p_pool p_local p_nobjs p_calls]. intros -> -> -> Hfun.
  split_and!.
  - unfold _get_obj, set_local. pstep. rewrite Hfun. by pstep.
  - intros t' now'. unfold _get_obj. by pstep.
  - intros now'. unfold _ret_obj. by pstep.
Qed.

(** *** Creating on demand *)

(** X5: when no object is available and a token is free, [get] calls the
    factory once, with the number of objects created so far, and hands out
    the object the factory returns, with its first use counted. *)
Theorem get_creates_on_demand t now s o :
  reachable cfg set_iter set_pop s → avail s = ∅ → token_free s →
  fun_ cfg (ncreated s) (ncreating s + 1) = Returns o →
  ∃ s', get cfg set_pop t now s = (Done o, s') ∧
    o ∉ using_ s ∧ using_ s' = {[o]} ∪ using_ s ∧ avail s' = ∅ ∧
    nobjs s' = nobjs s + 1 ∧ ncreated s' = ncreated s + 1 ∧
    uses s' !! o = Some (mkUseInfo 1 now now) ∧ sem s' = sem_dec (sem s).
Proof.
  intros Hr Ha Hfree Hf. destruct (reachable_Inv s Hr) as [HI _].
  assert (Hpop : set_pop ({[o]} ∪ ∅) = Some o).
  { destruct (set_pop ({[o]} ∪ ∅)) as [x|] eqn:E.
    - apply set_pop_elem in E. f_equal. set_solver.
    - apply set_pop_None in E. set_solver. }
  assert (Hlocked : ∀ s1, avail s1 = ∅ → ncreated s1 = ncreated s →
    ncreating s1 = ncreating s →
    ∃ s', get_locked cfg set_pop now s1 = (Done o, s') ∧
      using_ s' = {[o]} ∪ using_ s1 ∧ avail s' = ∅ ∧
      nobjs s' = nobjs s1 + 1 ∧ ncreated s' = ncreated s1 + 1 ∧
      uses s' !! o = Some (mkUseInfo 1 now now) ∧ sem s' = sem s1).
  { intros s1 H1 H2 H3. unfold get_locked. mstep. rewrite H1.
    destruct (decide (∅ = ∅)) as [_|?]; [|done]. mstep.
    unfold _new, _create. mstep. psimpl. rewrite H2, H3, Hf. mstep.
    edestruct run_hook_eq as [l Hl]. rewrite Hl. clear Hl. mstep. psimpl.
    rewrite H1, Hpop. mstep. rewrite uses_of_eq. psimpl.
    rewrite lookup_insert_eq. mstep.
    edestruct run_hook_eq as [l' Hl]. rewrite Hl. clear Hl. mstep.
    eexists. split; [reflexivity|]. psimpl. rewrite lookup_insert_eq, H1.
    split_and!; try done; [set_solver|lia]. }
  assert (Hget : ∃ s', get cfg set_pop t now s = (Done o, s') ∧
      using_ s' = {[o]} ∪ using_ s ∧ avail s' = ∅ ∧
      nobjs s' = nobjs s + 1 ∧ ncreated s' = ncreated s + 1 ∧
      uses s' !! o = Some (mkUseInfo 1 now now) ∧ sem s' = sem_dec (sem s)).
  { unfold get. mstep. rewrite (inv_alive _ _ _ HI). mstep.
    destruct (sem s) as [m|] eqn:Hm; mstep.
    - unfold sem_acquire. rewrite Hm.
      destruct (decide (sem_value m = 0)) as [Hv|Hv]; [by apply Hfree in Hv|].
      mstep.
      destruct (Hlocked (upd_sem (λ _, Some (mkSemaphore (sem_value m - 1)
                                               (sem_initial m))) s))
        as (s' & -> & Hrest); [done|done|done|].
      exists s'. split; [done|]. psimpl. exact Hrest.
    - destruct (Hlocked s) as (s' & -> & H1 & H2 & H3 & H4 & H5 & H6);
        [done|done|done|].
      exists s'. split_and!; try done. by rewrite H6, Hm. }
  destruct Hget as (s' & Hg & Hrest). exists s'. split; [done|].
  split; [|exact Hrest].
  pose proof (get_spec t now s HI) as Hs. rewrite Hg in Hs.
  by destruct Hs as (_ & _ & Ho & _).
Qed.

(** *** The use limit *)

Lemma nuc_refl s : no_use_counted s s.
Proof. intros o i Hi. right. eauto. Qed.

Lemma nuc_trans s1 s2 s3 :
  no_use_counted s1 s2 → no_use_counted s2 s3 → no_use_counted s1 s3.
Proof.
  intros H12 H23 o i3 Hi3.
  destruct (H23 o i3 Hi3) as [?|(i2 & Hi2 & E2)]; [by left|].
  destruct (H12 o i2 Hi2) as [?|(i1 & Hi1 & E1)]; [left; lia|].
  right. exists i1. split; [done|lia].
Qed.

Lemma nuc_same s s' : uses s' = uses s → no_use_counted s s'.
Proof. intros E o i Hi. right. exists i. by rewrite <- E. Qed.

Lemma stable_ret {A} (a : A) : stable (ret_ a).
Proof. intros s. apply nuc_refl. Qed.

Lemma stable_raise {A} e : stable (raise (A:=A) e).
Proof. intros s. apply nuc_refl. Qed.

Lemma stable_gets {A} (f : Pool → A) : stable (gets f).
Proof. intros s. apply nuc_refl. Qed.

Lemma stable_modify f : (∀ s, uses (f s) = uses s) → stable (modify f).
Proof. intros Hf s. rewrite modify_eq. cbn [snd]. apply nuc_same, Hf. Qed.

Lemma stable_log r : stable (log r).
Proof. intros s. by apply nuc_same. Qed.

Lemma stable_bind {A B} (m : M A) (k : A → M B) :
  stable m → (∀ a, stable (k a)) → stable (bind m k).
Proof.
  intros Hm Hk s. rewrite bind_eq. specialize (Hm s).
  destruct (m s) as [[a|e|] s1]; cbn [snd] in *; [|done|done].
  eapply nuc_trans; [done|apply Hk].
Qed.

Lemma stable_try_except {A} (m : M A) h :
  stable m → (∀ e, stable (h e)) → stable (try_except m h).
Proof.
  intros Hm Hh s. rewrite try_except_eq. specialize (Hm s).
  destruct (m s) as [[a|e|] s1]; cbn [snd] in *; [done| |done].
  eapply nuc_trans; [done|apply Hh].
Qed.

Lemma stable_try_finally {A} (m : M A) fin :
  stable m → stable fin → stable (try_finally m fin).
Proof.
  intros Hm Hf s. rewrite try_finally_eq. specialize (Hm s).
  destruct (m s) as [[a|e|] s1]; cbn [snd] in *; [| |done].
  - eapply nuc_trans; [done|]. apply stable_bind; [done|]. intros. apply stable_ret.
  - eapply nuc_trans; [done|]. apply stable_bind; [done|]. intros. apply stable_raise.
Qed.

Lemma stable_for_each {A} (l : list A) body :
  (∀ x, stable (body x)) → stable (for_each l body).
Proof.
  intros Hb. induction l as [|x l IH]; cbn [for_each]; [apply stable_ret|].
  apply stable_bind; [done|]. intros []; [apply stable_ret|done].
Qed.

Lemma stable_for_fold {A B} (l : list A) (body : A → B → M B) :
  (∀ x acc, stable (body x acc)) → ∀ acc, stable (for_fold l acc body).
Proof.
  intros Hb. induction l as [|x l IH]; intros acc; cbn [for_fold];
    [apply stable_ret|].
  apply stable_bind; [done|]. intros acc'. apply IH.
Qed.

Lemma stable_when b m : stable m → stable (when b m).
Proof. intros Hm. destruct b; [done|apply stable_ret]. Qed.

Lemma stable_insert_zero o a b :
  stable (modify (upd_uses (λ u, <[o := mkUseInfo 0 a b]> u))).
Proof.
  intros s o' i'. rewrite modify_eq. psimpl. intros Hi'.
  destruct (decide (o' = o)) as [->|Hne].
  - rewrite lookup_insert_eq in Hi'. simplify_eq. by left.
  - rewrite lookup_insert_ne in Hi' by done. right. eauto.
Qed.

Lemma stable_delete o : stable (modify (upd_uses (delete o))).
Proof.
  intros s o' i'. rewrite modify_eq. psimpl. intros Hi'.
  apply lookup_delete_Some in Hi' as [_ Hi']. right. eauto.
Qed.

Lemma stable_sem_acquire t : stable (sem_acquire t).
Proof.
  intros s. unfold sem_acquire. destruct (sem s) as [m|]; [|apply nuc_refl].
  destruct (decide (sem_value m = 0)); [destruct t; apply nuc_refl|].
  by apply nuc_same.
Qed.

Lemma stable_release_if_sem : stable release_if_sem.
Proof.
  intros s. unfold release_if_sem. rewrite bind_eq, gets_eq.
  destruct (sem s) as [m|] eqn:Hm; [|apply nuc_refl].
  unfold sem_release. rewrite Hm.
  destruct (decide (sem_initial m ≤ sem_value m)); [apply nuc_refl|].
  by apply nuc_same.
Qed.

Lemma stable_uses_of o : stable (uses_of o).
Proof. intros s. rewrite uses_of_eq. destruct (uses s !! o); apply nuc_refl. Qed.

Lemma stable_call {A} (c : call A) : stable (call_ c).
Proof. intros s. rewrite call_eq. destruct c; apply nuc_refl. Qed.

Lemma stable_run_hook hook report o : stable (run_hook hook report o).
Proof.
  intros s. destruct (run_hook_eq hook report o s) as [l ->]. by apply nuc_same.
Qed.

Create HintDb stab discriminated.
Hint Resolve stable_sem_acquire stable_release_if_sem stable_uses_of
  stable_call stable_run_hook stable_insert_zero stable_delete : stab.

(** Stability, by the structure of the computation. *)
Ltac stab :=
  repeat (intros; cbv beta;
    lazymatch goal with
    | |- stable (bind _ _) => apply stable_bind
    | |- stable (ret_ _) => apply stable_ret
    | |- stable (raise _) => apply stable_raise
    | |- stable (gets _) => apply stable_gets
    | |- stable (log _) => apply stable_log
    | |- stable (try_except _ _) => apply stable_try_except
    | |- stable (try_finally _ _) => apply stable_try_finally
    | |- stable (for_each _ _) => apply stable_for_each
    | |- stable (for_fold _ _ _) => apply stable_for_fold
    | |- stable (when _ _) => apply stable_when
    | |- stable (modify (upd_uses _)) => solve [auto with stab]
    | |- stable (modify _) => apply stable_modify; intros ?; reflexivity
    | |- stable (match ?x with _ => _ end) => destruct x
    | |- stable _ => solve [auto with stab]
    end).

Lemma stable__new now : stable (_new cfg now).
Proof. unfold _new, _create. stab. Qed.

Lemma stable_retire o : stable (retire o).
Proof. unfold retire, _out. stab. Qed.

Lemma stable__destroy o : stable (_destroy cfg o).
Proof. unfold _destroy. stab. Qed.

Hint Resolve stable__new stable_retire stable__destroy : stab.

Lemma stable__empty : stable (_empty cfg set_iter).
Proof. unfold _empty. stab. Qed.

Lemma stable__fill now : stable (_fill cfg now).
Proof. unfold _fill, fill_one. stab. Qed.

Lemma stable__hkRound now : stable (_hkRound cfg set_iter now).
Proof.
  unfold _hkRound, borrow_age_sweep, idle_sweep, kill_one, recycle_one. stab.
Qed.

Lemma stable__health_check : stable (_health_check cfg set_iter).
Proof. unfold _health_check, health_check_obj, _borrow, _return. stab. Qed.

Lemma U_keeps s s' :
  0 < max_use cfg → dom (uses s) = avail s ∪ using_ s →
  within_max_use cfg s → no_use_counted s s' → using_ s ## avail s' →
  within_max_use cfg s'.
Proof.
  intros Hmu Hdom HU Hk Hdis o i' Hi'.
  destruct (Hk o i' Hi') as [Hz|(i & Hi & E)].
  - rewrite Hz. split; [lia|intros _; lia].
  - destruct (HU o i Hi) as [Hle Hav]. split; [lia|]. intros Ho.
    rewrite E. apply Hav.
    assert (Hd : o ∈ dom (uses s)) by (apply elem_of_dom; eauto).
    rewrite Hdom in Hd. set_solver.
Qed.

Lemma U_shrink s s' :
  uses s' = uses s → avail s' ⊆ avail s →
  within_max_use cfg s → within_max_use cfg s'.
Proof.
  intros Eu Ha HU o i Hi. rewrite Eu in Hi. destruct (HU o i Hi) as [H1 H2].
  split; [done|]. intros Ho. apply H2. set_solver.
Qed.

Lemma U_take s s' o i a b :
  within_max_use cfg s → uses s !! o = Some i → o ∈ avail s →
  uses s' = <[o := mkUseInfo (uses_count i + 1) a b]> (uses s) →
  avail s' = avail s ∖ {[o]} → within_max_use cfg s'.
Proof.
  intros HU Hi Ho Eu Ea o' i' Hi'. rewrite Eu in Hi'. rewrite Ea.
  destruct (decide (o' = o)) as [->|Hne].
  - rewrite lookup_insert_eq in Hi'. simplify_eq. cbn.
    destruct (HU o i Hi) as [? Hlt]. specialize (Hlt Ho).
    split; [lia|]. set_solver.
  - rewrite lookup_insert_ne in Hi' by done.
    destruct (HU o' i' Hi') as [H1 H2]. split; [done|]. intros Hin.
    apply H2. set_solver.
Qed.

Lemma U_put_back s s' o i a b :
  within_max_use cfg s → uses s !! o = Some i →
  uses_count i < max_use cfg →
  uses s' = <[o := mkUseInfo (uses_count i) a b]> (uses s) →
  avail s' = {[o]} ∪ avail s → within_max_use cfg s'.
Proof.
  intros HU Hi Hlt Eu Ea o' i' Hi'. rewrite Eu in Hi'. rewrite Ea.
  destruct (decide (o' = o)) as [->|Hne].
  - rewrite lookup_insert_eq in Hi'. simplify_eq. cbn.
    destruct (HU o i Hi) as [? _]. split; [lia|done].
  - rewrite lookup_insert_ne in Hi' by done.
    destruct (HU o' i' Hi') as [H1 H2]. split; [done|]. intros Hin.
    apply H2. set_solver.
Qed.

Lemma U_retire s s' o :
  within_max_use cfg s → uses s' = delete o (uses s) → avail s' ⊆ avail s →
  within_max_use cfg s'.
Proof.
  intros HU Eu Ea o' i' Hi'. rewrite Eu in Hi'.
  apply lookup_delete_Some in Hi' as [_ Hi'].
  destruct (HU o' i' Hi') as [H1 H2]. split; [done|]. intros Hin.
  apply H2. set_solver.
Qed.

Section UseLimit.

Hypothesis max_use_pos : 0 < max_use cfg.

Lemma _hkRound_U now s :
  Inv cfg 0 s → within_max_use cfg s →
  within_max_use cfg (_hkRound cfg set_iter now s).2.
Proof.
  intros HI HU. pose proof (stable__hkRound now s) as Hst.
  destruct (_hkRound_spec now s HI) as (s' & E & _ & _ & _ & Ha & _).
  rewrite E in *. cbn [snd] in *.
  apply (U_keeps s s'); [done|apply (inv_dom _ _ _ HI)|done|done|].
  pose proof (inv_disjoint _ _ _ HI). set_solver.
Qed.

Lemma _health_check_U s :
  Inv cfg 0 s → within_max_use cfg s →
  within_max_use cfg (_health_check cfg set_iter s).2.
Proof.
  intros HI HU. pose proof (stable__health_check s) as Hst.
  pose proof (_health_check_spec s HI) as Hs.
  destruct (_health_check cfg set_iter s) as [[[]|e|] s']; [| |done];
    cbn [snd] in *; destruct Hs as (_ & _ & _ & _ & _ & Ha & _);
    (apply (U_keeps s s'); [done|apply (inv_dom _ _ _ HI)|done|done|]);
    pose proof (inv_disjoint _ _ _ HI); set_solver.
Qed.

Lemma _empty_U k s :
  Inv cfg k s → within_max_use cfg s →
  within_max_use cfg (_empty cfg set_iter s).2.
Proof.
  intros HI HU.
  destruct (_empty_spec k s HI) as (s' & -> & _ & _ & _ & Ha & _ & _ & _ & Hu & _).
  cbn [snd]. apply (U_shrink s s'); [done|by rewrite Ha|done].
Qed.

Lemma _fill_U now s :
  Inv cfg 0 s → within_max_use cfg s →
  within_max_use cfg (_fill cfg now s).2.
Proof.
  intros HI HU. pose proof (stable__fill now s) as Hst.
  destruct (_fill_spec now s HI) as (s' & E & HI' & _ & Hg & _).
  rewrite E in *. cbn [snd] in *.
  apply (U_keeps s s'); [done|apply (inv_dom _ _ _ HI)|done|done|].
  pose proof (inv_disjoint _ _ _ HI'). rewrite <- (gr_using _ _ Hg).
  set_solver.
Qed.

Lemma _houseKeeping_U now s :
  Inv cfg 0 s → within_max_use cfg s →
  within_max_use cfg (_houseKeeping cfg set_iter now s).2.
Proof.
  intros HI HU. pose proof (_hkRound_U now s HI HU) as HU1.
  destruct (_hkRound_spec now s HI) as (s1 & Hk & HI1 & _).
  rewrite Hk in HU1. cbn [snd] in HU1.
  assert (Htail : ∀ s2, Inv cfg 0 s2 → within_max_use cfg s2 →
    within_max_use cfg ((_empty cfg set_iter ;; _fill cfg now) s2).2).
  { intros s2 HI2 HU2. rewrite bind_eq.
    pose proof (_empty_U 0 s2 HI2 HU2) as HU3.
    destruct (_empty_spec 0 s2 HI2) as (s3 & E3 & HI3 & _).
    rewrite E3 in *. cbn [snd] in HU3. by apply _fill_U. }
  unfold _houseKeeping. mstep. rewrite Hk. mstep.
  destruct (health cfg) as [h|] eqn:Hh.
  - destruct (decide (health_freq cfg = 0)); [by mstep|].
    unfold when. destruct (bool_decide _).
    + pose proof (_health_check_spec s1 HI1) as Hc.
      pose proof (_health_check_U s1 HI1 HU1) as HU2.
      destruct (_health_check cfg set_iter s1) as [[[]|e|] s2]; mstep;
        [|done|done].
      destruct Hc as (HI2 & _). by apply Htail.
    + mstep. by apply Htail.
  - mstep. by apply Htail.
Qed.

Lemma get_locked_U now s :
  Inv cfg 1 s → within_max_use cfg s →
  within_max_use cfg (get_locked cfg set_pop now s).2.
Proof.
  intros HI HU.
  assert (Htake : ∀ s2, within_max_use cfg s2 →
    within_max_use cfg
      ((a <- gets (λ s, avail s) ;;
        match set_pop a with
        | None => raise KeyError
        | Some obj =>
            modify (upd_avail (λ a, a ∖ {[obj]})) ;;
            modify (upd_using (λ u, {[obj]} ∪ u)) ;;
            modify (upd_nuses (λ n, n + 1)) ;;
            i <- uses_of obj ;;
            modify (upd_uses (λ u,
              <[obj := mkUseInfo (uses_count i + 1) now (last_ret i)]> u)) ;;
            run_hook (getter cfg) LogGetterException obj ;;
            ret_ obj
        end) s2).2).
  { intros s2 HU2. mstep.
    destruct (set_pop (avail s2)) as [o|] eqn:Hpop; mstep; [|done].
    apply set_pop_elem in Hpop. rewrite uses_of_eq. psimpl.
    destruct (uses s2 !! o) as [i|] eqn:Hi; mstep.
    - edestruct run_hook_eq as [l Hl]. rewrite Hl. clear Hl. mstep.
      cbn [snd]. by eapply (U_take s2 _ o i).
    - cbn [snd]. apply (U_shrink s2); [done|psimpl; set_solver|done]. }
  unfold get_locked. rewrite bind_eq, gets_eq. cbv beta iota.
  destruct (decide (avail s = ∅)) as [He|Hne].
  - rewrite bind_eq, try_except_eq, bind_eq.
    pose proof (_new_spec _ now _ HI) as Hn.
    pose proof (stable__new now s) as Hst.
    destruct (_new cfg now s) as [[o|e|] s2]; [| |done]; cbn [snd] in Hst.
    + mstep. apply Htake.
      destruct Hn as (HI2 & _ & Hg2 & Ho & Hav & _).
      apply (U_keeps s s2); [done|apply (inv_dom _ _ _ HI)|done|done|].
      pose proof (inv_disjoint _ _ _ HI). rewrite Hav. set_solver.
    + mstep. destruct Hn as (HI2 & _ & Hg2 & Hav & _).
      assert (HU2 : within_max_use cfg s2).
      { apply (U_keeps s s2); [done|apply (inv_dom _ _ _ HI)|done|done|].
        pose proof (inv_disjoint _ _ _ HI). rewrite Hav. set_solver. }
      pose proof (stable_release_if_sem
                    (upd_logged (λ l, l ++ [LogObjectCreationFailed e]) s2))
        as Hrel.
      assert (HI2' : Inv cfg (0 + 1)
                 (upd_logged (λ l, l ++ [LogObjectCreationFailed e]) s2))
        by (by apply Inv_logged).
      destruct (release_if_sem_spec 0 _ (Z.le_refl 0) HI2')
        as (s3 & -> & Hso & _).
      mstep. cbn [snd].
      apply (U_shrink s2); [by rewrite (so_uses _ _ Hso)
                           |by rewrite (so_avail _ _ Hso)|done].
  - rewrite bind_eq, ret_eq. cbv beta iota. by apply Htake.
Qed.

Lemma get_U t now s :
  Inv cfg 0 s → within_max_use cfg s →
  within_max_use cfg (get cfg set_pop t now s).2.
Proof.
  intros HI HU. unfold get. mstep. rewrite (inv_alive _ _ _ HI). mstep.
  destruct (sem s) as [m|] eqn:Hm; mstep.
  - pose proof (sem_acquire_spec 0 (py_or t (timeout_ cfg)) s HI) as Ha.
    rewrite Hm in Ha. specialize (Ha (ltac:(eauto))).
    destruct (sem_acquire _ s) as [[[]|e|] s1]; try done; mstep.
    + destruct Ha as (Hso & HI1 & _). apply get_locked_U; [done|].
      apply (U_shrink s); [by rewrite (so_uses _ _ Hso)
                          |by rewrite (so_avail _ _ Hso)|done].
    + by destruct Ha as [-> _].
    + by destruct Ha as [-> _].
  - apply get_locked_U; [|done]. by apply (Inv_unbounded 0 1).
Qed.

Lemma ret_U o now s :
  Inv cfg 0 s → within_max_use cfg s →
  within_max_use cfg (ret cfg set_iter o now s).2.
Proof.
  intros HI HU.
  destruct (decide (o ∈ using_ s)) as [Ho|Ho].
  2:{ destruct (ret_not_using o now s Ho) as (l & ->). cbn [snd].
      by apply (U_shrink s). }
  unfold ret. rewrite bind_eq.
  destruct (run_hook_eq (retter cfg) LogRetterException o s) as [l ->].
  mstep. psimpl. destruct (decide (o ∈ using_ s)) as [_|?]; [|done]. mstep.
  set (s0 := upd_logged (λ l0, l0 ++ l) s).
  assert (HI0 : Inv cfg 0 s0) by (by apply Inv_logged).
  assert (HU0 : within_max_use cfg s0) by (by apply (U_shrink s)).
  destruct (ret_locked_spec o now s0 HI0 Ho)
    as (s1 & -> & HI1 & _ & _ & _ & _ & Hcase).
  mstep.
  assert (HU1 : within_max_use cfg s1).
  { destruct Hcase as [(_ & _ & Ha & _ & Hu)|(Hnw & _ & Ha & _ & i & Hi & Hu)].
    - apply (U_retire s0 s1 o); [done|done|by rewrite Ha].
    - apply (U_put_back s0 s1 o i (last_get i) now); try done.
      destruct (decide (uses_count i < max_use cfg)) as [?|Hge]; [done|].
      exfalso. apply Hnw. split; [lia|]. exists i. split; [done|lia]. }
  pose proof (_empty_U 0 s1 HI1 HU1) as HU2.
  destruct (_empty_spec 0 s1 HI1) as (s2 & E2 & HI2 & _).
  rewrite E2 in *. cbn [snd] in HU2. by apply _fill_U.
Qed.

Lemma step_U op now s :
  Inv cfg 0 s → within_max_use cfg s →
  within_max_use cfg (step cfg set_iter set_pop s (op, now)).
Proof.
  intros HI HU. unfold step. cbn [fst snd].
  destruct op as [t|obj| | | | |]; cbn [exec].
  - rewrite bind_eq. pose proof (get_U t now s HI HU) as Hg.
    by destruct (get cfg set_pop t now s) as [[o|e|] s'].
  - by apply ret_U.
  - by apply _hkRound_U.
  - by apply _health_check_U.
  - by apply (_empty_U 0).
  - by apply _fill_U.
  - by apply _houseKeeping_U.
Qed.

Lemma run_U ops : ∀ s,
  Inv cfg 0 s → within_max_use cfg s →
  within_max_use cfg (run cfg set_iter set_pop ops s).
Proof.
  induction ops as [|[op now] ops IH]; intros s HI HU; [done|].
  unfold run in *. cbn [foldl]. apply IH.
  - by destruct (exec_spec op now s HI).
  - by apply step_U.
Qed.

Lemma new_pool_U sm : within_max_use cfg (new_pool cfg sm).
Proof. intros o i Hi. cbn in Hi. by rewrite lookup_empty in Hi. Qed.

Lemma reachable_U s :
  reachable cfg set_iter set_pop s → within_max_use cfg s.
Proof.
  intros (now0 & ops & Hinit & ->).
  destruct (Pool_init_spec now0 Hinit) as [HI _].
  apply run_U; [done|].
  clear HI.
  assert (Hfirst : ∀ sm, Inv cfg 0 (new_pool cfg sm) →
    within_max_use cfg (first_fill cfg now0 (new_pool cfg sm)).2).
  { intros sm HI. unfold first_fill. destruct (skip_thread cfg).
    - apply new_pool_U.
    - apply _fill_U; [done|apply new_pool_U]. }
  revert Hinit. unfold Pool_init, truthy. case_bool_decide as Hmax.
  - destruct (decide (max_size cfg < 0)); [done|]. intros _.
    apply Hfirst. apply new_pool_Inv. cbn. lia.
  - intros _. apply Hfirst. by apply new_pool_Inv.
Qed.

End UseLimit.

(** X20: with [max_use > 0], no object of the pool is ever used more than
    [max_use] times: in every state a run can reach, the use count of each
    tracked object is at most [max_use], and below it for the available
    ones; so the object [get] hands out has been used between one and
    [max_use] times, this use included. *)
Theorem use_limit_respected s :
  reachable cfg set_iter set_pop s → 0 < max_use cfg →
  within_max_use cfg s ∧
  ∀ t now o s', get cfg set_pop t now s = (Done o, s') →
    ∃ i, uses s' !! o = Some i ∧ 1 ≤ uses_count i ≤ max_use cfg.
Proof.
  intros Hr Hmu. destruct (reachable_Inv s Hr) as [HI _].
  pose proof (reachable_U Hmu s Hr) as HU. split; [done|].
  intros t now o s' Hg.
  pose proof (get_U Hmu t now s HI HU) as HU'.
  pose proof (get_spec t now s HI) as Hs. rewrite Hg in *. cbn [snd] in HU'.
  destruct Hs as (_ & He & _ & _ & _ & _ & _ & _ & i' & Hi' & _ & Hc).
  exists i'. split; [done|]. destruct (HU' o i' Hi') as [Hle _].
  split; [|lia]. rewrite Hc.
  destruct (uses s !! o) as [i|] eqn:Hi; cbn; [|lia].
  destruct (HU o i Hi) as [? _]. lia.
Qed.

End Preservation.

(** * The claims on example pools *)

Lemma example_fun_distinct mx mn mu idle kill hook hl st :
  fun_distinct (example_cfg mx mn mu idle kill hook hl st).
Proof.
  intros n k n' k' o Hn Hn' H1 H2. cbn in H1, H2. simplify_eq. lia.
Qed.

(** Decide a closed decidable proposition by evaluation. *)
Ltac by_compute := refine (bool_decide_unpack _ _); vm_compute; exact I.

(** C1, the code at the failing input: a pool constructed with
    [max_size = 1] and [min_size = 2] holds two live objects right after
    construction, both available, and its one token is free.  The first
    [_fill] took a token for each creation, as its comment says so as not to
    go beyond [max_size], but gave it back as soon as the object was
    created: the gate does not bound the live objects. *)
Theorem C1_refill_exceeds_max_size :
  let c := example_cfg 1 2 0 0 0 None None None in
  let s := (Pool_init c 0).2 in
  (Pool_init c 0).1 = Done tt ∧ 0 < max_size c ∧
  nobjs s = 2 ∧ avail s = {[0%nat; 1%nat]} ∧ using_ s = ∅ ∧
  sem s = Some (mkSemaphore 1 1) ∧
  max_size c < Z.of_nat (size (avail s)) + Z.of_nat (size (using_ s)).
Proof. by vm_compute. Qed.

Lemma capacity_gate_serial_witness :
  let c := example_cfg 2 1 0 0 0 None None None in
  let s := example_run c [(Get None, 1); (Get None, 2)] in
  reachable c std_iter std_pop s ∧ 0 < max_size c ∧
  Z.of_nat (size (using_ s)) ≤ max_size c.
Proof.
  intros c s.
  assert (Hr : reachable c std_iter std_pop s).
  { exists 0, [(Get None, 1); (Get None, 2)]. split; [by vm_compute|done]. }
  assert (Hm : 0 < max_size c) by (cbn; lia).
  split_and!; [done|done|].
  exact (proj1 (proj2 (capacity_gate_serial c std_iter std_pop
    (example_fun_distinct _ _ _ _ _ _ _ _) std_iter_perm std_pop_elem
    std_pop_None s Hr Hm))).
Defined.

(** C2, the code at the failing input: when the body of the [with]
    statement raises, [obj] and [_obj] hand the exception on and the object
    is still in use, its token still taken (the next [get] times out), the
    slot of the proxy still bound; when the body completes, the object is
    available again and the token free. *)
Theorem C2_no_release_when_body_raises :
  let c := example_cfg 1 1 0 0 0 None None None in
  let s := example_run c [] in
  let r := obj c std_iter std_pop None 1 (λ _, raise (A:=unit) (UserError 1)) 2 s in
  let r' := obj c std_iter std_pop None 1 (λ _, ret_ tt) 2 s in
  let p := mkProxy true (Some s) None 0 0 in
  let q := _obj c std_iter std_pop None 1 (λ _, raise (A:=unit) (UserError 1)) 2 p in
  let q' := _obj c std_iter std_pop None 1 (λ _, ret_ tt) 2 p in
  (r.1 = Raised (UserError 1) ∧ using_ r.2 = {[0%nat]} ∧ avail r.2 = ∅ ∧
   sem r.2 = Some (mkSemaphore 0 1) ∧
   (get c std_pop (Some 5) 3 r.2).1 = Raised TimeOut) ∧
  (r'.1 = Done tt ∧ using_ r'.2 = ∅ ∧ avail r'.2 = {[0%nat]} ∧
   sem r'.2 = Some (mkSemaphore 1 1)) ∧
  (q.1 = Raised (UserError 1) ∧ p_local q.2 = Some (Some 0%nat) ∧
   (using_ <$> p_pool q.2) = Some {[0%nat]} ∧
   (sem <$> p_pool q.2) = Some (Some (mkSemaphore 0 1))) ∧
  (q'.1 = Done tt ∧ p_local q'.2 = None ∧
   (using_ <$> p_pool q'.2) = Some ∅ ∧
   (sem <$> p_pool q'.2) = Some (Some (mkSemaphore 1 1))).
Proof. by vm_compute. Qed.

(** C3, counterexample to the claim as stated: with [min_size = 1], one
    object in use and one idle available object, the sweep removes the
    available object: none is left available. *)
Lemma C3_idle_sweep_below_min_available :
  let c := example_cfg 0 1 0 5 0 None None None in
  let s := example_run c [(Get None, 1); (Get None, 1); (Ret 1%nat, 2)] in
  let s' := (idle_sweep c std_iter 100 s).2 in
  reachable c std_iter std_pop s ∧
  min_size s ≤ Z.of_nat (size (avail s)) ∧
  size (using_ s) = 1%nat ∧
  Z.of_nat (size (avail s')) < min_size s'.
Proof.
  intros c s s'. split.
  - exists 0, [(Get None, 1); (Get None, 1); (Ret 1%nat, 2)].
    split; [by vm_compute|done].
  - by vm_compute.
Qed.

Lemma C3_idle_sweep_floor_witness :
  let c := example_cfg 0 1 0 5 0 None None None in
  let s := example_run c [(Get None, 1); (Get None, 1); (Ret 1%nat, 2)] in
  reachable c std_iter std_pop s ∧
  ∃ s', idle_sweep c std_iter 100 s = (Done tt, s') ∧ using_ s' = using_ s ∧
        todel s' = todel s ∪ (avail s ∖ avail s').
Proof.
  intros c s.
  assert (Hr : reachable c std_iter std_pop s).
  { exists 0, [(Get None, 1); (Get None, 1); (Ret 1%nat, 2)].
    split; [by vm_compute|done]. }
  split; [done|].
  destruct (C3_idle_sweep_floor c std_iter std_pop
    (example_fun_distinct _ _ _ _ _ _ _ _) std_iter_perm std_pop_elem
    std_pop_None 100 s Hr) as (s' & H1 & H2 & _ & H3 & _).
  by exists s'.
Defined.


(** C5, counterexample to the claim as stated: a second release of an
    object leaves the gate as it is, although a token is taken. *)
Lemma C5_double_release_keeps_token :
  let c := example_cfg 2 1 0 0 0 None None None in
  let s := example_run c [(Get None, 1); (Get None, 1); (Ret 0%nat, 2)] in
  let r := ret c std_iter 0%nat 3 s in
  reachable c std_iter std_pop s ∧
  0%nat ∉ using_ s ∧ sem s = Some (mkSemaphore 1 2) ∧
  r.1 = Done tt ∧ sem r.2 = Some (mkSemaphore 1 2).
Proof.
  intros c s r. split.
  - exists 0, [(Get None, 1); (Get None, 1); (Ret 0%nat, 2)].
    split; [by vm_compute|done].
  - split; [by_compute|by vm_compute].
Qed.

Lemma C5_release_token_witness :
  let c := example_cfg 2 1 0 0 0 None None None in
  let s := example_run c [(Get None, 1); (Get None, 1); (Ret 0%nat, 2)] in
  reachable c std_iter std_pop s ∧ 1%nat ∈ using_ s ∧
  ∃ s', ret c std_iter 1%nat 3 s = (Done tt, s') ∧
        using_ s' = using_ s ∖ {[1%nat]} ∧ sem s' = sem_inc (sem s).
Proof.
  intros c s.
  assert (Hr : reachable c std_iter std_pop s).
  { exists 0, [(Get None, 1); (Get None, 1); (Ret 0%nat, 2)].
    split; [by vm_compute|done]. }
  assert (Ho : 1%nat ∈ using_ s) by by_compute.
  split_and!; [done|done|].
  exact (proj2 (C5_release_token c std_iter std_pop
    (example_fun_distinct _ _ _ _ _ _ _ _) std_iter_perm std_pop_elem
    std_pop_None 1%nat 3 s Hr) Ho).
Defined.

(** C6, counterexample to the claim as stated: [stats] raises the
    exception of the stats hook. *)
Lemma C6_stats_hook_exception_propagates :
  let c := example_cfg 2 1 0 0 0 None None (Some (λ _, Raises (UserError 4))) in
  let s := example_run c [(Get None, 1)] in
  reachable c std_iter std_pop s ∧
  (stats c std_iter 5 s).1 = Raised (UserError 4).
Proof.
  intros c s. split.
  - exists 0, [(Get None, 1)]. split; [by vm_compute|done].
  - by vm_compute.
Qed.

Lemma C6_hook_isolation_witness :
  let c := example_cfg 2 1 0 0 0 (Some (λ _, Raises (UserError 3))) None None in
  let s := example_run c [(Get None, 1)] in
  reachable c std_iter std_pop s ∧
  ∀ o now, (ret c std_iter o now s).1 = Done tt.
Proof.
  intros c s.
  assert (Hr : reachable c std_iter std_pop s).
  { exists 0, [(Get None, 1)]. split; [by vm_compute|done]. }
  split; [done|].
  exact (proj1 (proj2 (C6_hook_isolation c std_iter std_pop
    (example_fun_distinct _ _ _ _ _ _ _ _) std_iter_perm std_pop_elem
    std_pop_None s Hr))).
Defined.

Lemma C7_wear_out_witness :
  let c := example_cfg 2 1 1 0 0 None None None in
  let s := example_run c [(Get None, 1)] in
  reachable c std_iter std_pop s ∧ 0 < max_use c ∧
  0%nat ∈ using_ s ∧ uses s !! 0%nat = Some (mkUseInfo 1 1 0) ∧
  ∃ s', ret c std_iter 0%nat 2 s = (Done tt, s') ∧
        0%nat ∈ destroyed s' ∧ 0%nat ∉ todel s' ∧
        ∀ ops, 0%nat ∉ avail (run c std_iter std_pop ops s') ∧
               0%nat ∉ using_ (run c std_iter std_pop ops s').
Proof.
  intros c s.
  assert (Hr : reachable c std_iter std_pop s).
  { exists 0, [(Get None, 1)]. split; [by vm_compute|done]. }
  assert (Hm : 0 < max_use c) by (cbn; lia).
  assert (Ho : 0%nat ∈ using_ s) by by_compute.
  assert (Hi : uses s !! 0%nat = Some (mkUseInfo 1 1 0)) by (by vm_compute).
  split_and!; [done..|].
  apply (proj2 (proj2 (C7_wear_out c std_iter std_pop
    (example_fun_distinct _ _ _ _ _ _ _ _) std_iter_perm std_pop_elem
    std_pop_None s Hr Hm)) 0%nat 2 (mkUseInfo 1 1 0) Ho Hi).
  cbn. lia.
Defined.

Lemma C8_forced_reclaim_witness :
  let c := example_cfg 2 1 0 0 10 None None None in
  let s := example_run c [(Get None, 1)] in
  reachable c std_iter std_pop s ∧
  0%nat ∈ using_ s ∧ uses s !! 0%nat = Some (mkUseInfo 1 1 0) ∧
  0 < max_using_delay_kill c ∧ max_using_delay_kill c < 100 - 1 ∧
  ∃ s1, _hkRound c std_iter 100 s = (Done tt, s1) ∧
        0%nat ∈ todel s1 ∧ 0%nat ∉ using_ s1.
Proof.
  intros c s.
  assert (Hr : reachable c std_iter std_pop s).
  { exists 0, [(Get None, 1)]. split; [by vm_compute|done]. }
  assert (Ho : 0%nat ∈ using_ s) by by_compute.
  assert (Hi : uses s !! 0%nat = Some (mkUseInfo 1 1 0)) by (by vm_compute).
  assert (Hk : 0 < max_using_delay_kill c) by (cbn; lia).
  assert (Hh : max_using_delay_kill c < 100 - last_get (mkUseInfo 1 1 0))
    by (cbn; lia).
  split_and!; [done|done|done|done|cbn; lia|].
  destruct (C8_forced_reclaim c std_iter std_pop
    (example_fun_distinct _ _ _ _ _ _ _ _) std_iter_perm std_pop_elem
    std_pop_None 100 s 0%nat (mkUseInfo 1 1 0) Hr Ho Hi Hk Hh)
    as (s1 & H1 & H2 & H3 & _).
  by exists s1.
Defined.


Lemma C10_unbounded_no_timeout_witness :
  let c := example_cfg 0 1 0 0 0 None None None in
  let s := example_run c [(Get None, 1)] in
  reachable c std_iter std_pop s ∧ max_size c = 0 ∧
  (get c std_pop (Some 5) 2 s).1 ≠ Raised TimeOut.
Proof.
  intros c s.
  assert (Hr : reachable c std_iter std_pop s).
  { exists 0, [(Get None, 1)]. split; [by vm_compute|done]. }
  assert (Hf : ∀ n k, fun_ c n k ≠ Raises TimeOut) by (by intros n k).
  split_and!; [done|done|].
  exact (proj1 (proj2 (C10_unbounded_no_timeout c std_iter std_pop
    (example_fun_distinct _ _ _ _ _ _ _ _) std_iter_perm std_pop_elem
    std_pop_None (Some 5) 2 s Hr eq_refl Hf))).
Defined.

(** * Further properties on example pools *)

Lemma with_health_freq_distinct f c :
  fun_distinct c → fun_distinct (with_health_freq f c).
Proof. intros H. exact H. Qed.

Lemma flaky_fun_distinct c : fun_distinct (with_fun flaky_fun c).
Proof.
  intros n k n' k' o Hn Hn' H1 H2. cbn in H1, H2. unfold flaky_fun in *.
  repeat case_bool_decide; simplify_eq. lia.
Qed.

Lemma get_ret_round_trip_witness :
  let c := example_cfg 1 1 0 0 0 None None None in
  let s := example_run c [] in
  let s1 := (get c std_pop None 1 s).2 in
  reachable c std_iter std_pop s ∧
  get c std_pop None 1 s = (Done 0%nat, s1) ∧
  ∃ s2, ret c std_iter 0%nat 2 s1 = (Done tt, s2) ∧
        sem s2 = sem s ∧ using_ s2 = using_ s.
Proof.
  intros c s s1.
  assert (Hr : reachable c std_iter std_pop s).
  { exists 0, []. split; [by vm_compute|done]. }
  assert (Hg : get c std_pop None 1 s = (Done 0%nat, s1)) by (by vm_compute).
  split_and!; [done|done|].
  destruct (get_ret_round_trip c std_iter std_pop
    (example_fun_distinct _ _ _ _ _ _ _ _) std_iter_perm std_pop_elem
    std_pop_None None 1 2 s 0%nat s1 Hr Hg) as (s2 & H1 & H2 & H3 & _).
  by exists s2.
Defined.

Lemma get_exhausted_witness :
  let c := example_cfg 1 1 0 0 0 None None None in
  let s := example_run c [(Get None, 1)] in
  reachable c std_iter std_pop s ∧ sem s = Some (mkSemaphore 0 1) ∧
  get c std_pop (Some 5) 2 s = (Raised TimeOut, s) ∧
  get c std_pop None 2 s = (Blocked, s).
Proof.
  intros c s.
  assert (Hr : reachable c std_iter std_pop s).
  { exists 0, [(Get None, 1)]. split; [by vm_compute|done]. }
  assert (Hm : sem s = Some (mkSemaphore 0 1)) by (by vm_compute).
  split_and!; [done|done| |].
  - exact (proj1 (get_exhausted c std_iter std_pop
      (example_fun_distinct _ _ _ _ _ _ _ _) std_iter_perm std_pop_elem
      std_pop_None (Some 5) 2 s _ Hr Hm eq_refl)).
  - exact (proj1 (get_exhausted c std_iter std_pop
      (example_fun_distinct _ _ _ _ _ _ _ _) std_iter_perm std_pop_elem
      std_pop_None None 2 s _ Hr Hm eq_refl)).
Defined.

Lemma get_failure_keeps_state_witness :
  let c := with_fun flaky_fun (example_cfg 2 1 0 0 0 None None None) in
  let s := example_run c [(Get None, 1)] in
  let s' := (get c std_pop None 2 s).2 in
  reachable c std_iter std_pop s ∧
  get c std_pop None 2 s = (Raised (UserError 9), s') ∧
  ncreating s' = ncreating s + 1 ∧
  sem s' = sem s ∧ avail s' = avail s ∧ using_ s' = using_ s.
Proof.
  intros c s s'.
  assert (Hr : reachable c std_iter std_pop s).
  { exists 0, [(Get None, 1)]. split; [by vm_compute|done]. }
  assert (Hg : get c std_pop None 2 s = (Raised (UserError 9), s'))
    by (by vm_compute).
  split_and!; [done|done|by vm_compute|..].
  all: destruct (get_failure_keeps_state c std_iter std_pop
    (flaky_fun_distinct _) std_iter_perm std_pop_elem
    std_pop_None None 2 s (UserError 9) s' Hr Hg) as (H1 & H2 & H3 & _);
    done.
Defined.

Lemma get_reuses_available_witness :
  let c := example_cfg 2 1 0 0 0 None None None in
  let s := example_run c [] in
  let s' := (get c std_pop None 1 s).2 in
  reachable c std_iter std_pop s ∧ avail s ≠ ∅ ∧
  get c std_pop None 1 s = (Done 0%nat, s') ∧
  0%nat ∈ avail s ∧ ncreated s' = ncreated s.
Proof.
  intros c s s'.
  assert (Hr : reachable c std_iter std_pop s).
  { exists 0, []. split; [by vm_compute|done]. }
  assert (Hne : avail s ≠ ∅) by by_compute.
  assert (Hg : get c std_pop None 1 s = (Done 0%nat, s')) by (by vm_compute).
  split_and!; [done|done|done|..].
  all: destruct (get_reuses_available c std_iter std_pop
    (example_fun_distinct _ _ _ _ _ _ _ _) std_iter_perm std_pop_elem
    std_pop_None None 1 s 0%nat s' Hr Hne Hg) as (H1 & _ & _ & H4 & _);
    done.
Defined.

Lemma get_creates_on_demand_witness :
  let c := example_cfg 2 0 0 0 0 None None None in
  let s := example_run c [] in
  reachable c std_iter std_pop s ∧ avail s = ∅ ∧ token_free s ∧
  ∃ s', get c std_pop None 1 s = (Done 0%nat, s') ∧
        using_ s' = {[0%nat]} ∪ using_ s ∧ nobjs s' = nobjs s + 1.
Proof.
  intros c s.
  assert (Hr : reachable c std_iter std_pop s).
  { exists 0, []. split; [by vm_compute|done]. }
  assert (Ha : avail s = ∅) by (by vm_compute).
  assert (Hfree : token_free s).
  { intros m Hm. vm_compute in Hm. by simplify_eq. }
  split_and!; [done|done|done|].
  destruct (get_creates_on_demand c std_iter std_pop
    (example_fun_distinct _ _ _ _ _ _ _ _) std_iter_perm std_pop_elem
    std_pop_None None 1 s 0%nat Hr Ha Hfree eq_refl)
    as (s' & H1 & _ & H2 & _ & H3 & _).
  by exists s'.
Defined.

Lemma fill_reaches_min_size_witness :
  let c := example_cfg 0 2 0 0 10 None None None in
  let s := example_run c [(Get None, 1); (HkRound, 100)] in
  reachable c std_iter std_pop s ∧ nobjs s = 1 ∧
  ∃ s', _fill c 101 s = (Done tt, s') ∧
        nobjs s' = Z.max (nobjs s) (min_size0 c).
Proof.
  intros c s.
  assert (Hr : reachable c std_iter std_pop s).
  { exists 0, [(Get None, 1); (HkRound, 100)]. split; [by vm_compute|done]. }
  assert (Hfun : ∀ n k, ∃ o, fun_ c n k = Returns o) by (intros; by eexists).
  assert (Hfree : ∀ m, sem s = Some m → sem_value m ≠ 0).
  { intros m Hm. vm_compute in Hm. by simplify_eq. }
  split_and!; [done|by vm_compute|].
  destruct (fill_reaches_min_size c std_iter std_pop
    (example_fun_distinct _ _ _ _ _ _ _ _) std_iter_perm std_pop_elem
    std_pop_None 101 s Hfun Hr Hfree) as (s' & H1 & H2 & _).
  by exists s'.
Defined.

Lemma Pool_init_outcome_witness :
  let c := example_cfg 2 1 0 0 0 None None None in
  0 ≤ max_size c ∧ (Pool_init c 0).1 = Done tt ∧
  nobjs (Pool_init c 0).2 = Z.max 0 (min_size0 c).
Proof.
  intros c.
  assert (Hpos : 0 ≤ max_size c) by (cbn; lia).
  assert (Hfun : ∀ n k, ∃ o, fun_ c n k = Returns o) by (intros; by eexists).
  destruct (proj2 (Pool_init_outcome c std_iter std_pop
    (example_fun_distinct _ _ _ _ _ _ _ _) std_iter_perm std_pop_elem
    std_pop_None 0) Hpos) as (H1 & _ & _ & _ & _ & _ & _ & H2).
  split_and!; [done|done|]. by apply H2.
Defined.

Lemma empty_drains_witness :
  let c := example_cfg 0 2 0 0 10 None None None in
  let s := example_run c [(Get None, 1); (HkRound, 100)] in
  todel s ≠ ∅ ∧
  ∃ l s', _empty c std_iter s = (Done tt, s') ∧ todel s' = ∅ ∧
          destroyed s' = destroyed s ++ l.
Proof.
  intros c s. split; [by_compute|].
  destruct (empty_drains c std_iter std_iter_perm s)
    as (l & s' & H1 & H2 & _ & H3 & _).
  by exists l, s'.
Defined.

Lemma hkRound_spares_recent_witness :
  let c := example_cfg 2 1 0 0 10 None None None in
  let s := example_run c [(Get None, 1)] in
  reachable c std_iter std_pop s ∧ 0%nat ∈ using_ s ∧
  uses s !! 0%nat = Some (mkUseInfo 1 1 0) ∧
  5 - 1 < max_using_delay_kill c ∧
  ∃ s', _hkRound c std_iter 5 s = (Done tt, s') ∧ 0%nat ∈ using_ s'.
Proof.
  intros c s.
  assert (Hr : reachable c std_iter std_pop s).
  { exists 0, [(Get None, 1)]. split; [by vm_compute|done]. }
  assert (Ho : 0%nat ∈ using_ s) by by_compute.
  assert (Hi : uses s !! 0%nat = Some (mkUseInfo 1 1 0)) by (by vm_compute).
  assert (Hlt : 5 - 1 < max_using_delay_kill c) by (cbn; lia).
  split_and!; [done|done|done|done|].
  destruct (hkRound_spares_recent c std_iter std_pop
    (example_fun_distinct _ _ _ _ _ _ _ _) std_iter_perm std_pop_elem
    std_pop_None 5 s 0%nat (mkUseInfo 1 1 0) Hr Ho Hi (or_intror Hlt))
    as (s' & H1 & H2 & _).
  by exists s'.
Defined.

Lemma health_check_sorts_witness :
  let h : Obj → call bool := λ o, Returns (negb (Nat.eqb o 2)) in
  let c := example_cfg 0 3 0 0 0 None (Some h) None in
  let s := example_run c [(Get None, 1); (Get None, 1); (Get None, 1);
                         (Ret 1%nat, 2); (Ret 2%nat, 2)] in
  reachable c std_iter std_pop s ∧ avail s = {[1%nat; 2%nat]} ∧
  ∃ s', _health_check c std_iter s = (Done tt, s') ∧
        avail s' = filter (λ o, ¬ unhealthy h o) (avail s) ∧
        todel s' = filter (λ o, unhealthy h o) (avail s) ∪ todel s ∧
        2%nat ∈ todel s' ∧ 1%nat ∈ avail s'.
Proof.
  intros h c s.
  assert (Hr : reachable c std_iter std_pop s).
  { exists 0, [(Get None, 1); (Get None, 1); (Get None, 1);
                         (Ret 1%nat, 2); (Ret 2%nat, 2)]. split; [by vm_compute|done]. }
  assert (Ha : avail s = {[1%nat; 2%nat]}) by (by vm_compute).
  assert (Hfree : token_free s).
  { intros m Hm. vm_compute in Hm. by simplify_eq. }
  assert (Hty : ∀ o, o ∈ avail s → obj_truthy c o = true).
  { intros o Ho. rewrite Ha in Ho.
    apply elem_of_union in Ho as [Ho|Ho]; apply elem_of_singleton in Ho;
      by subst. }
  assert (Htr : ∀ o, o ∈ avail s → unhealthy h o →
                     ∃ d, trace_obj c o = Returns d).
  { intros o _ _. by eexists. }
  split_and!; [done|done|].
  destruct (health_check_sorts c std_iter std_pop
    (example_fun_distinct _ _ _ _ _ _ _ _) std_iter_perm std_pop_elem
    std_pop_None h s Hr eq_refl Hfree Hty Htr) as (s' & H1 & H2 & H3 & _).
  exists s'. split_and!; [done|done|done| |].
  - rewrite H3, Ha. apply elem_of_union_l, elem_of_filter.
    split; [done|set_solver].
  - rewrite H2, Ha. apply elem_of_filter. split; [by intros []|set_solver].
Defined.

Lemma health_check_skips_when_exhausted_witness :
  let h : Obj → call bool := λ _, Returns false in
  let c := example_cfg 1 2 0 0 0 None (Some h) None in
  let s := example_run c [(Get None, 1)] in
  avail s ≠ ∅ ∧ sem s = Some (mkSemaphore 0 1) ∧
  _health_check c std_iter s = (Done tt, upd_hc_rounds (λ n, n + 1) s).
Proof.
  intros h c s.
  assert (Hm : sem s = Some (mkSemaphore 0 1)) by (by vm_compute).
  split_and!; [by_compute|done|].
  exact (health_check_skips_when_exhausted c std_iter h s _ eq_refl Hm eq_refl).
Defined.

Lemma health_check_falsy_object_stays_borrowed_witness :
  let h : Obj → call bool := λ _, Returns true in
  let c := example_cfg 2 1 0 0 0 None (Some h) None in
  let s := example_run c [] in
  0%nat ∈ avail s ∧ token_free s ∧ obj_truthy c 0%nat = false ∧
  ∃ s', health_check_obj c h 0%nat s = (Done tt, s') ∧
        avail s' = avail s ∖ {[0%nat]} ∧
        using_ s' = {[0%nat]} ∪ using_ s ∧ sem s' = sem_dec (sem s).
Proof.
  intros h c s.
  assert (Ho : 0%nat ∈ avail s) by by_compute.
  assert (Hfree : token_free s).
  { intros m Hm. vm_compute in Hm. by simplify_eq. }
  split_and!; [done|done|done|].
  destruct (health_check_falsy_object_stays_borrowed c h 0%nat s Ho Hfree
              eq_refl) as (s' & H1 & H2 & H3 & H4 & _).
  by exists s'.
Defined.

Lemma houseKeeping_zero_health_freq_witness :
  let h : Obj → call bool := λ _, Returns true in
  let c := with_health_freq 0 (example_cfg 2 1 0 0 0 None (Some h) None) in
  let s := example_run c [] in
  reachable c std_iter std_pop s ∧ health_freq c = 0 ∧
  ∃ s', _houseKeeping c std_iter 1 s = (Raised ZeroDivisionError, s').
Proof.
  intros h c s.
  assert (Hr : reachable c std_iter std_pop s).
  { exists 0, []. split; [by vm_compute|done]. }
  split_and!; [done|done|].
  destruct (houseKeeping_zero_health_freq c std_iter std_pop
    (with_health_freq_distinct _ _ (example_fun_distinct _ _ _ _ _ _ _ _))
    std_iter_perm std_pop_elem std_pop_None 1 s h Hr eq_refl eq_refl)
    as (s' & _ & H).
  by exists s'.
Defined.

Lemma houseKeeping_drains_witness :
  let c := example_cfg 2 1 0 0 10 None None None in
  let s := example_run c [(Get None, 1)] in
  let s' := (_houseKeeping c std_iter 100 s).2 in
  reachable c std_iter std_pop s ∧
  _houseKeeping c std_iter 100 s = (Done tt, s') ∧
  0%nat ∈ using_ s ∧ todel s' = ∅ ∧ 0%nat ∈ destroyed s'.
Proof.
  intros c s s'.
  assert (Hr : reachable c std_iter std_pop s).
  { exists 0, [(Get None, 1)]. split; [by vm_compute|done]. }
  assert (Hk : _houseKeeping c std_iter 100 s = (Done tt, s'))
    by (by vm_compute).
  assert (Ho : 0%nat ∈ using_ s) by by_compute.
  assert (Hdue : kill_due c 100 s 0%nat).
  { split; [done|]. exists (mkUseInfo 1 1 0). split; [by vm_compute|].
    cbn. lia. }
  destruct (houseKeeping_drains c std_iter std_pop
    (example_fun_distinct _ _ _ _ _ _ _ _) std_iter_perm std_pop_elem
    std_pop_None 100 s s' Hr Hk) as (H1 & _ & H2).
  split_and!; [done|done|done|done|]. by apply H2.
Defined.

Lemma shutdown_closes_all_witness :
  let c := example_cfg 2 2 0 0 0 None None None in
  let s := example_run c [(Get None, 1)] in
  reachable c std_iter std_pop s ∧ using_ s ≠ ∅ ∧ avail s ≠ ∅ ∧
  ∃ s', shutdown c std_iter s = (Done tt, s') ∧
        avail s' = ∅ ∧ using_ s' = ∅ ∧ nobjs s' = 0 ∧ sem s' = sem s ∧
        ∀ t now, get c std_pop t now s' = (Raised PoolException, s').
Proof.
  intros c s.
  assert (Hr : reachable c std_iter std_pop s).
  { exists 0, [(Get None, 1)]. split; [by vm_compute|done]. }
  split_and!; [done|by_compute|by_compute|].
  destruct (shutdown_closes_all c std_iter std_pop
    (example_fun_distinct _ _ _ _ _ _ _ _) std_iter_perm std_pop_elem
    std_pop_None s Hr)
    as (s' & H1 & _ & _ & H2 & H3 & _ & H4 & _ & H5 & _ & _ & H6 & _).
  by exists s'.
Defined.

Lemma stats_read_only_witness :
  let c := example_cfg 2 2 0 0 0 None None None in
  let s := example_run c [(Get None, 1)] in
  reachable c std_iter std_pop s ∧ (stats c std_iter 5 s).2 = s.
Proof.
  intros c s.
  assert (Hr : reachable c std_iter std_pop s).
  { exists 0, [(Get None, 1)]. split; [by vm_compute|done]. }
  split; [done|].
  exact (proj1 (stats_read_only c std_iter std_pop
    (example_fun_distinct _ _ _ _ _ _ _ _) std_iter_perm std_pop_elem
    std_pop_None 5 s Hr)).
Defined.



Lemma proxy_without_pool_witness :
  let c := example_cfg 0 1 0 0 0 None None None in
  let p := mkProxy true None None 0 0 in
  let p1 := mkProxy true None (Some (Some 0%nat)) 1 1 in
  fun_ c (p_nobjs p) (p_calls p + 1) = Returns 0%nat ∧
  _get_obj c std_pop None 1 p = (Done (Some 0%nat), p1) ∧
  _ret_obj c std_iter 2 p1 = (Done tt, p1).
Proof.
  intros c p p1.
  destruct (proxy_without_pool c std_iter std_pop None 1 p 0%nat
              eq_refl eq_refl eq_refl eq_refl) as (H1 & _ & H2).
  split_and!; [done|exact H1|apply H2].
Defined.

Lemma use_limit_respected_witness :
  let c := example_cfg 2 1 2 0 0 None None None in
  let s := example_run c [(Get None, 1); (Ret 0%nat, 2); (Get None, 3)] in
  reachable c std_iter std_pop s ∧ 0 < max_use c ∧
  uses s !! 0%nat = Some (mkUseInfo 2 3 2) ∧ within_max_use c s.
Proof.
  intros c s.
  assert (Hr : reachable c std_iter std_pop s).
  { exists 0, [(Get None, 1); (Ret 0%nat, 2); (Get None, 3)].
    split; [by vm_compute|done]. }
  assert (Hm : 0 < max_use c) by (cbn; lia).
  split_and!; [done|done|by vm_compute|].
  exact (proj1 (use_limit_respected c std_iter std_pop
    (example_fun_distinct _ _ _ _ _ _ _ _) std_iter_perm std_pop_elem
    std_pop_None s Hr Hm)).
Defined.
